(** * HTSeq [count_with_barcodes]: barcode-aware read counting

    A shallow embedding of [count_reads_with_barcodes]
    (python3/HTSeq/scripts/count_with_barcodes.py) together with the
    properties of its classifier, overlap resolver, aggregation loop and
    UMI collapse pass.

    Conventions of the embedding:
    - Python dictionaries ([defaultdict], [Counter], [dict]) are association
      lists in insertion order, because [Counter.most_common] breaks ties by
      insertion order;
    - Python sets of feature names are [gset string];
    - an exception is a value of [exn]; code that may raise returns a
      [result];
    - every [counts[cb][ub][k] += 1] of one loop iteration is logged as the
      category [k] by the iteration's body (the barcode [(cb, ub)] is fixed
      for the whole iteration) and the log is applied to the table by the
      loop;
    - the optional SAM output ([write_to_samout]) appends the tag XF to a
      record whose barcode has been read already and writes it to a file;
      it and the progress messages are left out;
    - strings are compared as Python compares them, character by character
      on the character codes. *)

From Stdlib Require Import ZArith.
From stdpp Require Import gmap strings list sorting pretty.

Local Open Scope Z_scope.

(** ** Exceptions and results *)

Inductive exn : Type :=
| UnknownChrom
| KeyError
| ValueError (msg : string)
| SystemExit (msg : string)
| TypeError
| IndexError.

Inductive result (A : Type) : Type :=
| Ok (a : A)
| Raise (e : exn).
Arguments Ok {A} a.
Arguments Raise {A} e.

Global Instance exn_eq_dec : EqDecision exn.
Proof. solve_decision. Defined.

Global Instance result_ret : MRet result := λ A a, Ok a.
Global Instance result_bind : MBind result := λ A B f m,
  match m with
  | Ok a => f a
  | Raise e => Raise e
  end.

(** ** Data model *)

(** [HTSeq.GenomicInterval]; the strand is the string "+", "-" or ".". *)
Record GenomicInterval : Type := {
  chrom : string;
  start : Z;
  end_ : Z;
  strand : string
}.

Definition with_strand (iv : GenomicInterval) (s : string) : GenomicInterval :=
  {| chrom := chrom iv; start := start iv; end_ := end_ iv; strand := s |}.

(** [HTSeq.CigarOperation]: only the fields the script reads. *)
Record CigarOperation : Type := {
  type : string;
  size_ : Z;
  ref_iv : GenomicInterval
}.

(** Modelled from the spec: [HTSeq.SAM_Alignment] is not part of the script.
    The record follows the AlignmentRecord of the data model: aligned flag,
    paired-end flag, mapping quality, not-primary flag, supplementary flag,
    ordered list of operations, optional tag list and the optional
    multimapping count (NH), which [optional_field("NH")] returns, raising
    [KeyError] when it is absent. *)
Record SAM_Alignment : Type := {
  aligned : bool;
  paired_end : bool;
  aQual : Z;
  not_primary_alignment : bool;
  supplementary : bool;
  cigar : list CigarOperation;
  optional_fields : list (string * string);
  NH : option Z
}.

Definition optional_field_NH (r : SAM_Alignment) : result Z :=
  match NH r with
  | Some n => Ok n
  | None => Raise KeyError
  end.

(** One element of [read_seq]: a record (single-end) or a pair of optional
    mates (paired-end, as produced by the pairing functions). *)
Inductive RecordUnit : Type :=
| SE (r : SAM_Alignment)
| PE (r0 r1 : option SAM_Alignment).

(** The input after pairing.  [pe_mode] is the [paired_end] flag of the first
    record; an empty input is single-end. *)
Inductive ReadSeq : Type :=
| SingleEnd (rs : list SAM_Alignment)
| PairedEnd (ps : list (option SAM_Alignment * option SAM_Alignment)).

Definition pe_mode (s : ReadSeq) : bool :=
  match s with
  | SingleEnd _ => false
  | PairedEnd _ => true
  end.

Definition units (s : ReadSeq) : list RecordUnit :=
  match s with
  | SingleEnd rs => SE <$> rs
  | PairedEnd ps => (λ p, PE p.1 p.2) <$> ps
  end.

Abbreviation FeatureSet := (gset string).

(** [HTSeq.GenomicArrayOfSets] as the script uses it: the known chromosomes
    and, for an interval, the steps [(iv2, fs2)] that cover it. *)
Record FeatureIndex : Type := {
  chrom_vectors : gset string;
  steps : GenomicInterval → list (GenomicInterval * FeatureSet)
}.

(** The arguments of [count_reads_with_barcodes] that the counting reads. *)
Record Config : Type := {
  order : string;
  stranded : string;
  overlap_mode : string;
  multimapped_mode : string;
  secondary_alignment_mode : string;
  supplementary_alignment_mode : string;
  minaqual : Z;
  cb_tag : string;
  ub_tag : string
}.

(** ** Dictionaries in insertion order *)

Abbreviation dict K V := (list (K * V)).
Abbreviation Counter := (list (string * Z)).
Abbreviation Barcode := (option string).
Abbreviation UmiTable := (list (option string * list (string * Z))).
Abbreviation CountTable :=
  (list (option string * list (option string * list (string * Z)))).

Fixpoint dict_get {K V} `{EqDecision K} (d : dict K V) (k : K) : option V :=
  match d with
  | [] => None
  | (k', v) :: d' => if decide (k' = k) then Some v else dict_get d' k
  end.

(** [d[k] = f(d[k])] where a missing key reads as [dflt] and is inserted at
    the end ([defaultdict] access, [Counter] increment). *)
Fixpoint dict_upd {K V} `{EqDecision K}
    (d : dict K V) (k : K) (dflt : V) (f : V → V) : dict K V :=
  match d with
  | [] => [(k, f dflt)]
  | (k', v) :: d' =>
      if decide (k' = k) then (k', f v) :: d'
      else (k', v) :: dict_upd d' k dflt f
  end.

(** [d.pop(k)]: the value and the dictionary without the key. *)
Fixpoint dict_pop {K V} `{EqDecision K}
    (d : dict K V) (k : K) : result (V * dict K V) :=
  match d with
  | [] => Raise KeyError
  | (k', v) :: d' =>
      if decide (k' = k) then Ok (v, d')
      else '(x, d'') ← dict_pop d' k; Ok (x, (k', v) :: d'')
  end.

Definition dict_keys {K V} (d : dict K V) : list K := fst <$> d.

(** [counts[cb][ub][cat] += 1] *)
Definition incr (counts : CountTable) (cb ub : Barcode) (cat : string)
    : CountTable :=
  dict_upd counts cb []
    (λ m, dict_upd m ub [] (λ ctr, dict_upd ctr cat 0 Z.succ)).

(** ** [invert_strand] *)

Definition invert_strand (iv : GenomicInterval) : result GenomicInterval :=
  if bool_decide (strand iv = "+") then Ok (with_strand iv "-")
  else if bool_decide (strand iv = "-") then Ok (with_strand iv "+")
  else Raise (ValueError "Illegal strand").

(** ** [identify_barcodes] *)

Definition mates (r : RecordUnit) : list (option SAM_Alignment) :=
  match r with
  | SE a => [Some a]
  | PE r0 r1 => [r0; r1]
  end.

Section Barcodes.
Context (cfg : Config).

(** The inner loop over one read's [optional_fields]: [inl] is an early
    [return barcodes], [inr] the state [(barcodes, nbar)] after the loop. *)
Fixpoint scan_fields (fields : list (string * string))
    (cb ub : Barcode) (nbar : nat)
    : (Barcode * Barcode) + (Barcode * Barcode * nat) :=
  match fields with
  | [] => inr (cb, ub, nbar)
  | (tag, val) :: rest =>
      if bool_decide (tag = cb_tag cfg) then
        if bool_decide (S nbar = 2%nat) then inl (Some val, ub)
        else scan_fields rest (Some val) ub (S nbar)
      else if bool_decide (tag = ub_tag cfg) then
        if bool_decide (S nbar = 2%nat) then inl (cb, Some val)
        else scan_fields rest cb (Some val) (S nbar)
      else scan_fields rest cb ub nbar
  end.

Fixpoint scan_reads (reads : list (option SAM_Alignment))
    (cb ub : Barcode) (nbar : nat) : Barcode * Barcode :=
  match reads with
  | [] => (cb, ub)
  | None :: rest => scan_reads rest cb ub nbar
  | Some read :: rest =>
      match scan_fields (optional_fields read) cb ub nbar with
      | inl barcodes => barcodes
      | inr (cb', ub', nbar') => scan_reads rest cb' ub' nbar'
      end
  end.

Definition identify_barcodes (r : RecordUnit) : Barcode * Barcode :=
  scan_reads (mates r) None None 0%nat.
End Barcodes.

(** ** One loop iteration as a logged computation

    [tr A] is a computation of the loop body: the categories it has
    incremented so far, and its result or the exception it raised. *)

Definition tr (A : Type) : Type := list string * result A.

Global Instance tr_ret : MRet tr := λ A a, ([], Ok a).
Global Instance tr_bind : MBind tr := λ A B f m,
  match m.2 with
  | Ok a => (m.1 ++ (f a).1, (f a).2)
  | Raise e => (m.1, Raise e)
  end.

(** [counts[cb][ub][cat] += 1] inside the body *)
Definition record (cat : string) : tr unit := ([cat], Ok tt).

Definition raise {A} (e : exn) : tr A := ([], Raise e).

Definition lift {A} (m : result A) : tr A := ([], m).

(** [try: m  except UnknownChrom: h] *)
Definition try_except_UnknownChrom (m h : tr unit) : tr unit :=
  match m.2 with
  | Raise UnknownChrom => (m.1 ++ h.1, h.2)
  | _ => m
  end.

(** How an iteration leaves the classifier: [Stop] is a [continue] after an
    exclusion category was counted, [Drop] the [continue] of the
    secondary/supplementary filters, [Resolve iv_seq] falls through to the
    overlap resolution.  [iv_seq] is a generator in the script: its elements
    are computed when the resolver loop reaches them, so an element is the
    interval or the exception that [invert_strand] raises for it. *)
Inductive verdict : Type :=
| Stop
| Drop
| Resolve (iv_seq : list (result GenomicInterval)).

(** CIGAR match characters *)
Definition com : list string := ["M"; "="; "X"].

Definition match_op (co : CigarOperation) : bool :=
  bool_decide (type co ∈ com) && bool_decide (0 < size_ co).

(** [(co.ref_iv for co in cigar if co.type in com and co.size > 0)] *)
Definition ivs_plain (cig : list CigarOperation) : list (result GenomicInterval) :=
  (λ co, Ok (ref_iv co)) <$> filter (λ co, match_op co = true) cig.

(** [(invert_strand(co.ref_iv) for co in cigar if ...)] *)
Definition ivs_inverted (cig : list CigarOperation) : list (result GenomicInterval) :=
  (λ co, invert_strand (ref_iv co)) <$> filter (λ co, match_op co = true) cig.

Definition present (p : SAM_Alignment → bool) (m : option SAM_Alignment) : bool :=
  match m with
  | Some a => p a
  | None => false
  end.

Section Classifier.
Context (cfg : Config).

Definition is_ignore (mode : string) : bool := bool_decide (mode = "ignore").

(** [if NH > 1: counts[..]['__alignment_not_unique'] += 1;
    if multimapped_mode == 'none': continue]; the result tells whether the
    iteration continues with the next record. *)
Definition count_not_unique : tr bool :=
  record "__alignment_not_unique";;
  mret (bool_decide (multimapped_mode cfg = "none")).

(** Single-end branch, lines 164-200 *)
Definition classify_se (r : SAM_Alignment) : tr verdict :=
  if negb (aligned r) then
    record "__not_aligned";; mret Stop
  else if is_ignore (secondary_alignment_mode cfg) && not_primary_alignment r then
    mret Drop
  else if is_ignore (supplementary_alignment_mode cfg) && supplementary r then
    mret Drop
  else
    skip ← match optional_field_NH r with
           | Ok n => if bool_decide (1 < n) then count_not_unique else mret false
           | Raise KeyError => mret false
           | Raise e => raise e
           end;
    if (skip : bool) then mret Stop
    else if bool_decide (aQual r < minaqual cfg) then
      record "__too_low_aQual";; mret Stop
    else if bool_decide (stranded cfg ≠ "reverse") then
      mret (Resolve (ivs_plain (cigar r)))
    else
      mret (Resolve (ivs_inverted (cigar r))).

(** The condition of the paired-end multimapping test: the conjunctions
    and the disjunction are evaluated left to right, and the first
    [optional_field] that raises ends the evaluation. *)
Definition NH_gt1 (m : option SAM_Alignment) : result bool :=
  match m with
  | None => Ok false
  | Some a => n ← optional_field_NH a; Ok (bool_decide (1 < n))
  end.

Definition pe_not_unique (r0 r1 : option SAM_Alignment) : result bool :=
  b ← NH_gt1 r0;
  if (b : bool) then Ok true else NH_gt1 r1.

(** Paired-end branch after the interval generators, lines 229-256 *)
Definition classify_pe_checks (r0 r1 : option SAM_Alignment)
    (iv_seq : list (result GenomicInterval)) : tr verdict :=
  if is_ignore (secondary_alignment_mode cfg) &&
     (present not_primary_alignment r0 || present not_primary_alignment r1) then
    mret Drop
  else if is_ignore (supplementary_alignment_mode cfg) &&
     (present supplementary r0 || present supplementary r1) then
    mret Drop
  else
    skip ← match pe_not_unique r0 r1 with
           | Ok true => count_not_unique
           | Ok false => mret false
           | Raise KeyError => mret false
           | Raise e => raise e
           end;
    if (skip : bool) then mret Stop
    else if present (λ a, bool_decide (aQual a < minaqual cfg)) r0 ||
            present (λ a, bool_decide (aQual a < minaqual cfg)) r1 then
      record "__too_low_aQual";; mret Stop
    else mret (Resolve iv_seq).

(** Paired-end branch, lines 202-256 *)
Definition classify_pe (r0 r1 : option SAM_Alignment) : tr verdict :=
  let iv_seq0 :=
    match r0 with
    | Some a =>
        if aligned a then
          if bool_decide (stranded cfg ≠ "reverse") then ivs_plain (cigar a)
          else ivs_inverted (cigar a)
        else []
    | None => []
    end in
  match r1 with
  | Some b =>
      if aligned b then
        classify_pe_checks r0 r1
          (iv_seq0 ++
           (if bool_decide (stranded cfg ≠ "reverse") then ivs_inverted (cigar b)
            else ivs_plain (cigar b)))
      else if negb (present aligned r0) then
        record "__not_aligned";; mret Stop
      else classify_pe_checks r0 r1 iv_seq0
  | None =>
      if negb (present aligned r0) then
        record "__not_aligned";; mret Stop
      else classify_pe_checks r0 r1 iv_seq0
  end.

Definition classify (r : RecordUnit) : tr verdict :=
  match r with
  | SE a => classify_se a
  | PE r0 r1 => classify_pe r0 r1
  end.
End Classifier.

(** ** Overlap resolution, lines 258-313 *)

Section Resolver.
Context (cfg : Config) (features : FeatureIndex).

(** [for iv2, fs2 in features[iv].steps(): fs = fs.union(fs2)] *)
Definition union_steps (fs : FeatureSet)
    (sts : list (GenomicInterval * FeatureSet)) : FeatureSet :=
  foldl (λ acc st, acc ∪ st.2) fs sts.

(** The loop of mode "union" over the generator [iv_seq]. *)
Fixpoint union_loop (fs : FeatureSet) (iv_seq : list (result GenomicInterval))
    : result FeatureSet :=
  match iv_seq with
  | [] => Ok fs
  | Raise e :: _ => Raise e
  | Ok iv :: rest =>
      if bool_decide (chrom iv ∈ chrom_vectors features) then
        union_loop (union_steps fs (steps features iv)) rest
      else Raise UnknownChrom
  end.

(** One step of the intersection modes; [None] is Python's [fs = None]. *)
Definition intersect_step (fs : option FeatureSet) (fs2 : FeatureSet)
    : option FeatureSet :=
  if bool_decide (0 < size fs2)%nat ||
     bool_decide (overlap_mode cfg = "intersection-strict") then
    match fs with
    | None => Some fs2
    | Some s => Some (s ∩ fs2)
    end
  else fs.

Definition intersect_steps (fs : option FeatureSet)
    (sts : list (GenomicInterval * FeatureSet)) : option FeatureSet :=
  foldl (λ acc st, intersect_step acc st.2) fs sts.

Fixpoint intersect_loop (fs : option FeatureSet)
    (iv_seq : list (result GenomicInterval)) : result (option FeatureSet) :=
  match iv_seq with
  | [] => Ok fs
  | Raise e :: _ => Raise e
  | Ok iv :: rest =>
      if bool_decide (chrom iv ∈ chrom_vectors features) then
        intersect_loop (intersect_steps fs (steps features iv)) rest
      else Raise UnknownChrom
  end.

(** The dispatch on [overlap_mode], lines 259-280. *)
Definition resolve_fs (iv_seq : list (result GenomicInterval))
    : result (option FeatureSet) :=
  if bool_decide (overlap_mode cfg = "union") then
    fs ← union_loop ∅ iv_seq; Ok (Some fs)
  else if bool_decide (overlap_mode cfg ∈
                         ["intersection-strict"; "intersection-nonempty"]) then
    intersect_loop None iv_seq
  else Raise (SystemExit "Illegal overlap mode.").

(** [counts[cb][ub][list(fs)[0]] += 1] *)
Definition count_first (s : FeatureSet) : tr unit :=
  match elements s with
  | f :: _ => record f
  | [] => raise IndexError
  end.

(** [for fsi in list(fs): counts[cb][ub][fsi] += 1] *)
Definition count_each (s : FeatureSet) : tr unit :=
  foldr (λ fsi rest, record fsi;; rest) (mret tt) (elements s).

(** Lines 282-306: the audit categories, then the feature counts. *)
Definition count_fs (fs : option FeatureSet) : tr unit :=
  match fs with
  | None => record "__no_feature"
  | Some s =>
      (if bool_decide (size s = 0%nat) then record "__no_feature"
       else if bool_decide (1 < size s)%nat then record "__ambiguous"
       else mret tt);;
      if bool_decide (0 < size s)%nat then
        if bool_decide (multimapped_mode cfg = "none") then
          if bool_decide (size s = 1%nat) then count_first s else mret tt
        else if bool_decide (multimapped_mode cfg = "all") then
          count_each s
        else raise (SystemExit "Illegal multimap mode.")
      else mret tt
  end.

Definition resolve_and_count (iv_seq : list (result GenomicInterval)) : tr unit :=
  try_except_UnknownChrom
    (fs ← lift (resolve_fs iv_seq); count_fs fs)
    (record "__no_feature").

(** The body of [for r in read_seq] after [identify_barcodes]. *)
Definition loop_body (r : RecordUnit) : tr unit :=
  v ← classify cfg r;
  match v with
  | Stop | Drop => mret tt
  | Resolve iv_seq => resolve_and_count iv_seq
  end.

(** The table when the loop ended: normally, or by an exception that
    leaves the function (the table as it stood when it was raised). *)
Inductive outcome : Type :=
| Finished (counts : CountTable)
| Aborted (e : exn) (counts : CountTable).

Definition apply_log (counts : CountTable) (cb ub : Barcode)
    (cats : list string) : CountTable :=
  foldl (λ c cat, incr c cb ub cat) counts cats.

Definition process_unit (r : RecordUnit) (counts : CountTable) : outcome :=
  let b := identify_barcodes cfg r in
  let m := loop_body r in
  let counts' := apply_log counts b.1 b.2 m.1 in
  match m.2 with
  | Ok _ => Finished counts'
  | Raise e => Aborted e counts'
  end.

Fixpoint scan (read_seq : list RecordUnit) (counts : CountTable) : outcome :=
  match read_seq with
  | [] => Finished counts
  | r :: rest =>
      match process_unit r counts with
      | Finished counts' => scan rest counts'
      | Aborted e counts' => Aborted e counts'
      end
  end.
End Resolver.

(** ** UMI collapse, lines 330-342 *)

(** [max(items, key=itemgetter(1))] as [Counter.most_common(1)] computes it:
    a later item replaces the current maximum only when its count is
    greater. *)
Definition max_item (x : string * Z) (rest : Counter) : string * Z :=
  foldl (λ best y, if bool_decide (best.2 < y.2) then y else best) x rest.

Definition most_common_1 (udic : Counter) : list (string * Z) :=
  match udic with
  | [] => []
  | x :: rest => [max_item x rest]
  end.

(** [for ub, udic in items: counts_cell[udic.most_common(1)[0][0]] += 1] *)
Fixpoint collapse_umis (items : UmiTable) (counts_cell : Counter) : result Counter :=
  match items with
  | [] => Ok counts_cell
  | (ub, udic) :: rest =>
      match most_common_1 udic with
      | [] => Raise IndexError
      | w :: _ => collapse_umis rest (dict_upd counts_cell w.1 0 Z.succ)
      end
  end.

(** [d[k] = v] on a plain dictionary *)
Definition dict_set {K V} `{EqDecision K} (d : dict K V) (k : K) (v : V) : dict K V :=
  dict_upd d k v (λ _, v).

Fixpoint collapse_cells (cbs : list Barcode) (counts : CountTable)
    (counts_noumi : dict Barcode Counter) : result (dict Barcode Counter) :=
  match cbs with
  | [] => Ok counts_noumi
  | cb :: rest =>
      '(m, counts') ← dict_pop counts cb;
      counts_cell ← collapse_umis m [];
      collapse_cells rest counts' (dict_set counts_noumi cb counts_cell)
  end.

(** [a < b] on dictionary keys: [None] is not comparable with anything. *)
Definition key_lt (a b : Barcode) : result bool :=
  match a, b with
  | Some s, Some t => Ok (String.ltb s t)
  | _, _ => Raise TypeError
  end.

(** [sorted]: a stable sort that compares with [<] only and lets the
    exception of a comparison through; it is modelled by insertion from the
    left.  A list of fewer than two elements is returned without any
    comparison. *)
Fixpoint sorted_insert (x : Barcode) (l : list Barcode) : result (list Barcode) :=
  match l with
  | [] => Ok [x]
  | y :: l' =>
      b ← key_lt x y;
      if (b : bool) then Ok (x :: y :: l')
      else l'' ← sorted_insert x l'; Ok (y :: l'')
  end.

Definition sort_step (acc : result (list Barcode)) (x : Barcode)
    : result (list Barcode) :=
  acc ≫= sorted_insert x.

Definition sorted (l : list Barcode) : result (list Barcode) :=
  foldl sort_step (Ok []) l.

Record Output : Type := {
  cell_barcodes : list Barcode;
  counts_collapsed : dict Barcode Counter
}.

Definition collapse (counts : CountTable) : result Output :=
  cbs ← sorted (dict_keys counts);
  counts_noumi ← collapse_cells cbs counts [];
  Ok {| cell_barcodes := cbs; counts_collapsed := counts_noumi |}.

(** ** The whole function *)

Definition count_reads_with_barcodes (cfg : Config) (features : FeatureIndex)
    (read_seq : ReadSeq) : result Output :=
  if pe_mode read_seq &&
     negb (bool_decide (order cfg = "name") || bool_decide (order cfg = "pos")) then
    Raise (ValueError "Illegal order specified.")
  else
    match scan cfg features (units read_seq) [] with
    | Aborted e _ => Raise e
    | Finished counts => collapse counts
    end.

(** ** Notions used to state the properties *)

(** The overlap modes and multimapped modes the script knows. *)
Definition overlap_modes : list string :=
  ["union"; "intersection-strict"; "intersection-nonempty"].
Definition multimapped_modes : list string := ["none"; "all"].

Definition with_overlap_mode (cfg : Config) (mode : string) : Config :=
  {| order := order cfg; stranded := stranded cfg; overlap_mode := mode;
     multimapped_mode := multimapped_mode cfg;
     secondary_alignment_mode := secondary_alignment_mode cfg;
     supplementary_alignment_mode := supplementary_alignment_mode cfg;
     minaqual := minaqual cfg; cb_tag := cb_tag cfg; ub_tag := ub_tag cfg |}.

(** The feature set of a resolver result, an unset accumulator being empty. *)
Definition fs_set (fs : option FeatureSet) : FeatureSet := default ∅ fs.

(** The accumulators of the three overlap modes after the same steps:
    the strict one is below the non-empty one, which is below the union; the
    non-empty one is still unset only if every step so far was empty. *)
Definition nested (s n : option FeatureSet) (u : FeatureSet) : Prop :=
  match s, n with
  | None, None => True
  | Some a, None => a = ∅
  | Some a, Some b => a ⊆ b ∧ b ⊆ u
  | None, Some _ => False
  end.

(** The iteration reaches the overlap resolution. *)
Definition reaches_resolution (m : tr verdict) : Prop :=
  ∃ iv_seq, m.2 = Ok (Resolve iv_seq).

(** The record unit is discarded by a secondary/supplementary filter. *)
Definition dropped (cfg : Config) (r : RecordUnit) : bool :=
  match (classify cfg r).2 with
  | Ok Drop => true
  | _ => false
  end.

(** A single-end record gets past the not-aligned test and both filters. *)
Definition se_passes_filters (cfg : Config) (r : SAM_Alignment) : Prop :=
  aligned r = true ∧
  ¬ (secondary_alignment_mode cfg = "ignore" ∧ not_primary_alignment r = true) ∧
  ¬ (supplementary_alignment_mode cfg = "ignore" ∧ supplementary r = true).

Definition multimapped (r : SAM_Alignment) : Prop :=
  ∃ n, NH r = Some n ∧ 1 < n.

(** Interval extraction for a pair as the specification words it: the
    intervals of the matching operations of positive size of a present,
    aligned mate, inverted or not. *)
Definition mate_intervals (invert : bool) (m : option SAM_Alignment)
    : list (result GenomicInterval) :=
  match m with
  | Some a =>
      if aligned a then
        (λ co, if invert then invert_strand (ref_iv co) else Ok (ref_iv co))
          <$> filter (λ co, type co ∈ com ∧ 0 < size_ co) (cigar a)
      else []
  | None => []
  end.

Definition pair_intervals (stranded : string) (r0 r1 : option SAM_Alignment)
    : list (result GenomicInterval) :=
  mate_intervals (bool_decide (stranded = "reverse")) r0 ++
  mate_intervals (negb (bool_decide (stranded = "reverse"))) r1.

(** Sum of the counts of a [Counter], and of the bucket of a barcode. *)
Definition counter_total (ctr : Counter) : Z :=
  foldr (λ kv acc, kv.2 + acc) 0 ctr.

Definition counter_get (ctr : Counter) (k : string) : Z :=
  default 0 (dict_get ctr k).

Definition bucket (counts : CountTable) (cb ub : Barcode) : Counter :=
  default [] (m ← dict_get counts cb; dict_get m ub).

Definition bucket_total (counts : CountTable) (cb ub : Barcode) : Z :=
  counter_total (bucket counts cb ub).

(** The categories of a log applied to a [Counter]. *)
Definition count_log (ctr : Counter) (log : list string) : Counter :=
  foldl (λ c k, dict_upd c k 0 Z.succ) ctr log.

(** What the classifier may have counted before the quality test: nothing,
    or [__alignment_not_unique] when multimapped_mode is not "none". *)
Definition audit_prefix (cfg : Config) (log : list string) : Prop :=
  log = [] ∨ (log = ["__alignment_not_unique"] ∧ multimapped_mode cfg ≠ "none").

(** The possible results of the classifier. *)
Definition verdict_shape (cfg : Config) (m : tr verdict) : Prop :=
  match m.2 with
  | Ok Stop =>
      m.1 = ["__not_aligned"] ∨
      (m.1 = ["__alignment_not_unique"] ∧ multimapped_mode cfg = "none") ∨
      (∃ pre, audit_prefix cfg pre ∧ m.1 = pre ++ ["__too_low_aQual"])
  | Ok Drop => m.1 = []
  | Ok (Resolve _) => audit_prefix cfg m.1
  | Raise _ => False
  end.

(** Number of record units of the stream that carry the barcode and are not
    discarded by the secondary/supplementary filters. *)
Definition kept_with (cfg : Config) (rs : list RecordUnit) (cb ub : Barcode) : nat :=
  length (filter (λ r, identify_barcodes cfg r = (cb, ub) ∧ dropped cfg r = false) rs).

(** [w] with count [n] is the first item of the bucket that reaches the
    highest count: items inserted before it have a smaller count, items
    inserted after it have no greater one. *)
Definition first_max (udic : Counter) (w : string) (n : Z) : Prop :=
  ∃ pre post, udic = pre ++ (w, n) :: post ∧
    Forall (λ kv, kv.2 < n) pre ∧ Forall (λ kv, kv.2 ≤ n) post.

(** The winning category of a bucket. *)
Definition winner (udic : Counter) : option string :=
  fst <$> head (most_common_1 udic).

(** Number of UMI buckets of a cell that category [w] wins. *)
Definition wins (m : UmiTable) (w : string) : nat :=
  length (filter (λ uc, winner uc.2 = Some w) m).

(** Order of the sorted cell barcodes. *)
Definition key_le (a b : Barcode) : Prop :=
  match a, b with
  | Some s, Some t => String.le s t
  | _, _ => False
  end.

(** Well-formed count tables: keys are not repeated and no bucket is empty. *)
Definition wf_table (counts : CountTable) : Prop :=
  NoDup (dict_keys counts) ∧
  Forall (λ cm, NoDup (dict_keys cm.2) ∧ Forall (λ uc, uc.2 ≠ []) cm.2) counts.

(** ** Concrete inputs *)

Module Ex.
Definition cfg (overlap mm : string) : Config :=
  {| order := "name"; stranded := "yes"; overlap_mode := overlap;
     multimapped_mode := mm; secondary_alignment_mode := "ignore";
     supplementary_alignment_mode := "ignore"; minaqual := 10;
     cb_tag := "CB"; ub_tag := "UB" |}.

Definition iv (c : string) (a b : Z) : GenomicInterval :=
  {| chrom := c; start := a; end_ := b; strand := "+" |}.

(** A read aligned to [c] at [a, b) with one matching operation. *)
Definition read (c : string) (a b q : Z) (tags : list (string * string))
    (nh : option Z) : SAM_Alignment :=
  {| aligned := true; paired_end := false; aQual := q;
     not_primary_alignment := false; supplementary := false;
     cigar := [ {| type := "M"; size_ := b - a; ref_iv := iv c a b |} ];
     optional_fields := tags; NH := nh |}.

Definition unaligned (tags : list (string * string)) : SAM_Alignment :=
  {| aligned := false; paired_end := false; aQual := 0;
     not_primary_alignment := false; supplementary := false;
     cigar := []; optional_fields := tags; NH := None |}.

Definition XU : list (string * string) := [("CB", "X"); ("UB", "U")].

(** Chromosome chr1: GeneA below 100, nothing up to 200, GeneA then GeneB
    up to 300, GeneB above. *)
Definition features : FeatureIndex :=
  {| chrom_vectors := {["chr1"]};
     steps := λ i,
       if bool_decide (start i < 100) then [(i, {["GeneA"]})]
       else if bool_decide (start i < 200) then [(i, ∅)]
       else if bool_decide (start i < 300) then [(i, {["GeneA"]}); (i, {["GeneB"]})]
       else [(i, {["GeneB"]})] |}.

(** Two records of one molecule, the first on GeneA, the second on GeneB. *)
Definition tie : list RecordUnit :=
  [SE (read "chr1" 0 10 30 XU None); SE (read "chr1" 300 310 30 XU None)].

Definition tie_counts : CountTable :=
  [(Some "X", [(Some "U", [("GeneA", 1); ("GeneB", 1)])])].

(** A record that is not aligned and carries no tag, then a tagged record on
    GeneA; their table has a cell key [None] and a string cell key. *)
Definition mixed : list RecordUnit :=
  [SE (unaligned []); SE (read "chr1" 0 10 30 XU None)].

Definition mixed_counts : CountTable :=
  [(None, [(None, [("__not_aligned", 1)])]);
   (Some "X", [(Some "U", [("GeneA", 1)])])].

(** A pair with the first mate on GeneA and the second one on a
    chromosome that the index does not know. *)
Definition split_pair : RecordUnit :=
  PE (Some (read "chr1" 0 10 30 XU None)) (Some (read "chrUn" 0 10 30 XU None)).
End Ex.

(** ** [count_reads_in_features], lines 345-497

    The function reads the features, counts the reads and prints the table.
    What it prints is the log of a [tr] computation, one string per line;
    the early opening of the files and the messages on the error stream are
    left out. *)

(** [HTSeq.GenomicFeature] as [GFF_Reader] yields it: the fields the function
    reads. *)
Record GenomicFeature : Type := {
  f_type : string;
  f_name : string;
  f_iv : GenomicInterval;
  f_attr : dict string string
}.

(** The operations of the HTSeq library that the function calls and that
    are not part of the script: the empty [GenomicArrayOfSets] (stranded or
    not), [features[iv] += feature_id], and the text of an interval in a
    message. *)
Record Library : Type := {
  new_index : bool → FeatureIndex;
  add_feature : FeatureIndex → GenomicInterval → string → FeatureIndex;
  iv_str : GenomicInterval → string
}.

(** The arguments of [count_reads_in_features] beyond those of the
    counting. *)
Record Options : Type := {
  opt_cfg : Config;
  feature_type : string;
  id_attribute : string;
  additional_attributes : list string;
  output_delimiter : string
}.

(** [features], [feature_attr] and [attributes] while the GFF file is read. *)
Record GffState : Type := {
  gff_features : FeatureIndex;
  gff_feature_attr : gset string;
  gff_attributes : dict string (list string)
}.

(** [[f.attr[attr] if attr in f.attr else '' for attr in additional_attributes]] *)
Definition attribute_values (opt : Options) (f : GenomicFeature) : list string :=
  (λ attr, default "" (dict_get (f_attr f) attr)) <$> additional_attributes opt.

(** The body of [for f in gff], lines 394-410. *)
Definition gff_step (lib : Library) (opt : Options) (st : GffState)
    (f : GenomicFeature) : result GffState :=
  if bool_decide (f_type f = feature_type opt) then
    match dict_get (f_attr f) (id_attribute opt) with
    | None =>
        Raise (ValueError ("Feature " +:+ f_name f +:+ " does not contain a '" +:+
                           id_attribute opt +:+ "' attribute"))
    | Some feature_id =>
        if bool_decide (stranded (opt_cfg opt) ≠ "no") &&
           bool_decide (strand (f_iv f) = ".") then
          Raise (ValueError ("Feature " +:+ f_name f +:+ " at " +:+
                             iv_str lib (f_iv f) +:+
                             " does not have strand information but you are " +:+
                             "running htseq-count in stranded mode. Use '--stranded=no'."))
        else
          Ok {| gff_features := add_feature lib (gff_features st) (f_iv f) feature_id;
                gff_feature_attr := {[feature_id]} ∪ gff_feature_attr st;
                gff_attributes :=
                  dict_set (gff_attributes st) feature_id (attribute_values opt f) |}
    end
  else Ok st.

Fixpoint gff_loop (lib : Library) (opt : Options) (gff : list GenomicFeature)
    (st : GffState) : result GffState :=
  match gff with
  | [] => Ok st
  | f :: rest => st' ← gff_step lib opt st f; gff_loop lib opt rest st'
  end.

Definition gff_start (lib : Library) (opt : Options) : GffState :=
  {| gff_features := new_index lib (bool_decide (stranded (opt_cfg opt) ≠ "no"));
     gff_feature_attr := ∅;
     gff_attributes := [] |}.

(** [sorted(feature_attr)] on a set of strings: its elements in ascending
    order. *)
Definition sorted_features (s : gset string) : list string :=
  merge_sort String.le (elements s).

Definition other_features : list string :=
  ["__no_feature"; "__ambiguous"; "__too_low_aQual"; "__not_aligned";
   "__alignment_not_unique"].

Fixpoint result_mapM {A B} (f : A → result B) (l : list A) : result (list B) :=
  match l with
  | [] => Ok []
  | x :: l' => y ← f x; ys ← result_mapM f l'; Ok (y :: ys)
  end.

(** [sep.join(fields)]: an item that is [None] is a [TypeError]. *)
Definition join (sep : string) (fields : list (option string)) : result string :=
  strs ← result_mapM (λ x, match x with
                           | Some s => Ok s
                           | None => Raise TypeError
                           end) fields;
  Ok (String.concat sep strs).

(** [str(counts[cb][fn])]: [counts] is a plain dictionary, [counts[cb]] a
    [Counter]. *)
Definition count_str (counts : dict Barcode Counter) (cb : Barcode) (fn : string)
    : result string :=
  match dict_get counts cb with
  | Some ctr => Ok (pretty (counter_get ctr fn))
  | None => Raise KeyError
  end.

(** [print(line)], or the line appended to the output file *)
Definition print (line : string) : tr unit := ([line], Ok tt).

(** One row: [fields = [fn] + attrs + [str(counts[cb][fn]) for cb in cbs]],
    joined and printed. *)
Definition write_row (opt : Options) (out : Output) (fn : string)
    (attrs : list string) : tr unit :=
  cs ← lift (result_mapM (λ cb, count_str (counts_collapsed out) cb fn)
               (cell_barcodes out));
  line ← lift (join (output_delimiter opt) (Some <$> ([fn] ++ attrs ++ cs)));
  print line.

Fixpoint write_feature_rows (opt : Options) (attributes : dict string (list string))
    (out : Output) (fns : list string) : tr unit :=
  match fns with
  | [] => mret tt
  | fn :: rest =>
      attrs ← lift (match dict_get attributes fn with
                    | Some l => Ok l
                    | None => Raise KeyError
                    end);
      write_row opt out fn attrs;;
      write_feature_rows opt attributes out rest
  end.

Fixpoint write_other_rows (opt : Options) (pad : list string) (out : Output)
    (fns : list string) : tr unit :=
  match fns with
  | [] => mret tt
  | fn :: rest => write_row opt out fn pad;; write_other_rows opt pad out rest
  end.

(** Lines 454-497 *)
Definition write_table (opt : Options) (feature_attr : list string)
    (attributes : dict string (list string)) (out : Output) : tr unit :=
  let pad := (λ _, "") <$> additional_attributes opt in
  line ← lift (join (output_delimiter opt)
                 ([Some ""] ++ (Some <$> pad) ++ cell_barcodes out));
  print line;;
  write_feature_rows opt attributes out feature_attr;;
  write_other_rows opt pad out other_features.

Definition count_reads_in_features (lib : Library) (opt : Options)
    (gff : list GenomicFeature) (read_seq : ReadSeq) : tr unit :=
  st ← lift (gff_loop lib opt gff (gff_start lib opt));
  let feature_attr := sorted_features (gff_feature_attr st) in
  results ← lift (count_reads_with_barcodes (opt_cfg opt) (gff_features st) read_seq);
  write_table opt feature_attr (gff_attributes st) results.

(** ** Notions used to state the further properties *)

(** The optional fields of the present mates of a record unit, in the order
    in which [identify_barcodes] reads them. *)
Definition fields_of (reads : list (option SAM_Alignment)) : list (string * string) :=
  reads ≫= λ m, match m with Some read => optional_fields read | None => [] end.

Definition unit_fields (r : RecordUnit) : list (string * string) :=
  fields_of (mates r).

(** Number of fields with a given tag. *)
Definition tag_count (tag : string) (fields : list (string * string)) : nat :=
  length (filter (λ p, p.1 = tag) fields).

(** The result of the inner loop of [identify_barcodes], returned early or
    not. *)
Definition barcodes_of
    (x : (Barcode * Barcode) + (Barcode * Barcode * nat)) : Barcode * Barcode :=
  match x with
  | inl b => b
  | inr (cb, ub, _) => (cb, ub)
  end.

(** A pair with an aligned mate gets past both filters. *)
Definition pe_passes_filters (cfg : Config) (r0 r1 : option SAM_Alignment) : Prop :=
  (present aligned r0 = true ∨ present aligned r1 = true) ∧
  ¬ (secondary_alignment_mode cfg = "ignore" ∧
     (present not_primary_alignment r0 = true ∨ present not_primary_alignment r1 = true)) ∧
  ¬ (supplementary_alignment_mode cfg = "ignore" ∧
     (present supplementary r0 = true ∨ present supplementary r1 = true)).

(** A present mate has a mapping quality below the threshold. *)
Definition pe_low_quality (cfg : Config) (r0 r1 : option SAM_Alignment) : Prop :=
  present (λ a, bool_decide (aQual a < minaqual cfg)) r0 = true ∨
  present (λ a, bool_decide (aQual a < minaqual cfg)) r1 = true.

(** A mate is present and reports NH > 1. *)
Definition reports_multimapped (m : option SAM_Alignment) : Prop :=
  ∃ a, m = Some a ∧ multimapped a.

(** Every present mate carries an NH tag. *)
Definition mates_have_NH (r0 r1 : option SAM_Alignment) : Prop :=
  ∀ a, r0 = Some a ∨ r1 = Some a → is_Some (NH a).

(** The feature sets of all the steps of all the intervals, in the order in
    which the resolver meets them. *)
Definition step_sets (features : FeatureIndex) (ivs : list GenomicInterval)
    : list FeatureSet :=
  (ivs ≫= steps features).*2.

(** The step takes part in the intersection of the mode. *)
Definition takes_part (cfg : Config) (t : FeatureSet) : Prop :=
  (0 < size t)%nat ∨ overlap_mode cfg = "intersection-strict".

(** The table an outcome of the loop carries. *)
Definition final_table (o : outcome) : CountTable :=
  match o with
  | Finished counts => counts
  | Aborted _ counts => counts
  end.

Definition with_order (cfg : Config) (o : string) : Config :=
  {| order := o; stranded := stranded cfg; overlap_mode := overlap_mode cfg;
     multimapped_mode := multimapped_mode cfg;
     secondary_alignment_mode := secondary_alignment_mode cfg;
     supplementary_alignment_mode := supplementary_alignment_mode cfg;
     minaqual := minaqual cfg; cb_tag := cb_tag cfg; ub_tag := ub_tag cfg |}.

(** Tables as the loop builds them: at each level the keys are not repeated
    and the dictionary is not empty, and every count is at least one. *)
Definition counter_ok (udic : Counter) : Prop :=
  udic ≠ [] ∧ NoDup (dict_keys udic) ∧ Forall (λ kv, 1 ≤ kv.2) udic.

Definition cell_ok (m : UmiTable) : Prop :=
  m ≠ [] ∧ NoDup (dict_keys m) ∧ Forall (λ uc, counter_ok uc.2) m.

Definition table_ok (counts : CountTable) : Prop :=
  NoDup (dict_keys counts) ∧ Forall (λ cm, cell_ok cm.2) counts.

(** ** Further concrete inputs *)

Module Ex2.
(** A read whose single matching operation has the strand ".". *)
Definition unstranded_read : SAM_Alignment :=
  {| aligned := true; paired_end := false; aQual := 30;
     not_primary_alignment := false; supplementary := false;
     cigar := [ {| type := "M"; size_ := 10;
                   ref_iv := {| chrom := "chr1"; start := 0; end_ := 10;
                                strand := "." |} |} ];
     optional_fields := Ex.XU; NH := None |}.

Definition reverse_cfg : Config :=
  {| order := "name"; stranded := "reverse"; overlap_mode := "union";
     multimapped_mode := "none"; secondary_alignment_mode := "ignore";
     supplementary_alignment_mode := "ignore"; minaqual := 10;
     cb_tag := "CB"; ub_tag := "UB" |}.

(** A secondary alignment. *)
Definition secondary_read : SAM_Alignment :=
  {| aligned := true; paired_end := false; aQual := 30;
     not_primary_alignment := true; supplementary := false;
     cigar := [ {| type := "M"; size_ := 10; ref_iv := Ex.iv "chr1" 0 10 |} ];
     optional_fields := Ex.XU; NH := None |}.
(** A library whose index maps every interval of a known chromosome to one
    step with the ids of the features added on that chromosome. *)
Definition lib : Library :=
  {| new_index := λ _, {| chrom_vectors := ∅; steps := λ _, [] |};
     add_feature := λ idx iv fid,
       {| chrom_vectors := {[chrom iv]} ∪ chrom_vectors idx;
          steps := λ i,
            if bool_decide (chrom i = chrom iv) then
              match steps idx i with
              | (i', fs) :: _ => [(i', {[fid]} ∪ fs)]
              | [] => [(i, {[fid]})]
              end
            else steps idx i |};
     iv_str := chrom |}.

Definition opt : Options :=
  {| opt_cfg := Ex.cfg "union" "none"; feature_type := "exon";
     id_attribute := "gene_id"; additional_attributes := ["gene_name"];
     output_delimiter := "," |}.

Definition exon (c : string) (attrs : list (string * string)) : GenomicFeature :=
  {| f_type := "exon"; f_name := "e"; f_iv := Ex.iv c 0 100; f_attr := attrs |}.

Definition gff : list GenomicFeature :=
  [exon "chr1" [("gene_id", "GeneB"); ("gene_name", "b")];
   {| f_type := "gene"; f_name := "g"; f_iv := Ex.iv "chr1" 0 100; f_attr := [] |};
   exon "chr2" [("gene_id", "GeneA")]].

Definition gff_state : GffState :=
  match gff_loop lib opt gff (gff_start lib opt) with
  | Ok st => st
  | Raise _ => gff_start lib opt
  end.

Definition reads : ReadSeq :=
  SingleEnd [Ex.read "chr1" 0 10 30 Ex.XU None;
             Ex.read "chr2" 0 10 30 [("CB", "Y"); ("UB", "U")] None].

Definition out : Output :=
  {| cell_barcodes := [Some "X"; Some "Y"];
     counts_collapsed := [(Some "X", [("GeneB", 1)]); (Some "Y", [("GeneA", 1)])] |}.
End Ex2.

(** The feature [f] is of the requested type and names [fid]. *)
Definition names_feature (opt : Options) (f : GenomicFeature) (fid : string) : Prop :=
  f_type f = feature_type opt ∧ dict_get (f_attr f) (id_attribute opt) = Some fid.

(** What the GFF loop has gathered from the features [seen]: the ids of the
    features of the requested type, and for each id the attribute values of
    one of the features that name it. *)
Definition gathered (opt : Options) (seen : list GenomicFeature) (st : GffState) : Prop :=
  (∀ fid, fid ∈ gff_feature_attr st ↔ ∃ f, f ∈ seen ∧ names_feature opt f fid) ∧
  (∀ fid, fid ∈ gff_feature_attr st →
     ∃ f, f ∈ seen ∧ names_feature opt f fid ∧
          dict_get (gff_attributes st) fid = Some (attribute_values opt f)).

(** The printed count of category [fn] for the cell [cb]: the collapsed
    count, zero for a category the cell does not have. *)
Definition cell_count (out : Output) (cb : Barcode) (fn : string) : Z :=
  counter_get (default [] (dict_get (counts_collapsed out) cb)) fn.

(** The fields of the row of [fn] for the cells [names]. *)
Definition table_row (out : Output) (names : list string) (fn : string)
    (attrs : list string) : list string :=
  [fn] ++ attrs ++ ((λ cb, pretty (cell_count out (Some cb) fn)) <$> names).

(** The fields of the whole table: the header, the rows of the features and
    the rows of the five special categories. *)
Definition table_rows (opt : Options) (feature_attr : list string)
    (attributes : dict string (list string)) (out : Output) (names : list string)
    : list (list string) :=
  let pad := (λ _, "") <$> additional_attributes opt in
  ([""] ++ pad ++ names) ::
  ((λ fn, table_row out names fn (default [] (dict_get attributes fn))) <$> feature_attr) ++
  ((λ fn, table_row out names fn pad) <$> other_features).

(** * Properties *)

(** Unfolds the operations of the logged computations. *)
Ltac tr_unfold :=
  unfold count_not_unique, mbind, mret, tr_bind, tr_ret, record, raise, lift in *;
  simpl in *.

(** ** Barcode extraction *)


(** ** The classifier *)

(** C5, defect of the code: in the paired-end multimapping test a first mate
    without NH tag raises [KeyError] before the second mate is looked at, so
    the pair is not counted as [__alignment_not_unique] although its second
    mate reports NH = 2; with the mates exchanged it is. *)
Lemma pe_not_unique_first_mate_without_NH :
  let m1 := Ex.read "chr1" 0 10 30 Ex.XU None in
  let m2 := Ex.read "chr1" 50 60 30 Ex.XU (Some 2) in
  let cfg := Ex.cfg "union" "none" in
  multimapped m2 ∧
  (classify cfg (PE (Some m1) (Some m2))).1 = [] ∧
  reaches_resolution (classify cfg (PE (Some m1) (Some m2))) ∧
  classify cfg (PE (Some m2) (Some m1)) = (["__alignment_not_unique"], Ok Stop).
Proof.
  repeat split.
  - exists 2. split; [reflexivity | lia].
  - eexists. reflexivity.
Qed.

Lemma filter_match_op (cig : list CigarOperation) :
  filter (λ co, match_op co = true) cig
  = filter (λ co, type co ∈ com ∧ 0 < size_ co) cig.
Proof.
  apply list_filter_iff. intros co. unfold match_op.
  rewrite andb_true_iff, !bool_decide_eq_true. reflexivity.
Qed.

Lemma ivs_plain_mate (a : SAM_Alignment) :
  aligned a = true → ivs_plain (cigar a) = mate_intervals false (Some a).
Proof. intros Ha. unfold ivs_plain. simpl. rewrite Ha, filter_match_op. reflexivity. Qed.

Lemma ivs_inverted_mate (a : SAM_Alignment) :
  aligned a = true → ivs_inverted (cigar a) = mate_intervals true (Some a).
Proof. intros Ha. unfold ivs_inverted. simpl. rewrite Ha, filter_match_op. reflexivity. Qed.

Lemma mate_intervals_unaligned (inv : bool) (m : option SAM_Alignment) :
  present aligned m = false → mate_intervals inv m = [].
Proof. destruct m as [a|]; simpl; [intros -> | ]; reflexivity. Qed.

(** The checks of the paired-end branch hand on the interval sequence they
    were given. *)
Lemma classify_pe_checks_resolve cfg r0 r1 ivs log iv_seq :
  classify_pe_checks cfg r0 r1 ivs = (log, Ok (Resolve iv_seq)) → iv_seq = ivs.
Proof.
  unfold classify_pe_checks. tr_unfold.
  repeat (case_match; simpl; try discriminate); intros; simplify_eq/=; done.
Qed.

(** C9: when a pair reaches the overlap resolution, its interval sequence is
    made of the reference intervals of the matching operations ("M", "=",
    "X") of positive size: those of mate 1 as they are and those of mate 2
    strand-inverted, or the other way round when stranded is "reverse"; a
    mate that is absent or not aligned contributes nothing. *)
Theorem classify_pe_intervals cfg r0 r1 log iv_seq :
  classify_pe cfg r0 r1 = (log, Ok (Resolve iv_seq)) →
  iv_seq = pair_intervals (stranded cfg) r0 r1.
Proof.
  intros H. unfold pair_intervals, classify_pe in *.
  assert (Hsplit : ∀ b : bool, present aligned r0 = b →
     match r0 with
      | Some a =>
          if aligned a then
            if bool_decide (stranded cfg ≠ "reverse") then ivs_plain (cigar a)
            else ivs_inverted (cigar a)
          else []
      | None => []
      end = mate_intervals (bool_decide (stranded cfg = "reverse")) r0).
  { intros _ _. destruct r0 as [a|]; [|done]. simpl.
    destruct (aligned a) eqn:Ha; [|done].
    destruct (decide (stranded cfg = "reverse")) as [Hr|Hr].
    - rewrite (bool_decide_eq_true_2 _ Hr), bool_decide_eq_false_2 by (intros ?; done).
      rewrite ivs_inverted_mate by done. simpl. by rewrite Ha.
    - rewrite (bool_decide_eq_false_2 _ Hr), bool_decide_eq_true_2 by done.
      rewrite ivs_plain_mate by done. simpl. by rewrite Ha. }
  rewrite (Hsplit _ eq_refl) in H. clear Hsplit.
  destruct r1 as [b|]; simpl.
  - destruct (aligned b) eqn:Hb.
    + apply classify_pe_checks_resolve in H. subst iv_seq. f_equal.
      destruct (decide (stranded cfg = "reverse")) as [Hr|Hr].
      * rewrite (bool_decide_eq_true_2 _ Hr), bool_decide_eq_false_2 by (intros ?; done).
        unfold ivs_plain. by rewrite filter_match_op.
      * rewrite (bool_decide_eq_false_2 _ Hr), bool_decide_eq_true_2 by done.
        unfold ivs_inverted. by rewrite filter_match_op.
    + destruct (present aligned r0); simpl in H; [|discriminate].
      apply classify_pe_checks_resolve in H. by rewrite app_nil_r.
  - destruct (present aligned r0); simpl in H; [|discriminate].
    apply classify_pe_checks_resolve in H. by rewrite app_nil_r.
Qed.

Lemma classify_pe_intervals_witness :
  [Ok (Ex.iv "chr1" 0 10); Ok (with_strand (Ex.iv "chr1" 50 60) "-")]
  = pair_intervals "yes" (Some (Ex.read "chr1" 0 10 30 Ex.XU None))
      (Some (Ex.read "chr1" 50 60 30 Ex.XU None)).
Proof.
  apply (classify_pe_intervals (Ex.cfg "union" "none")
           (Some (Ex.read "chr1" 0 10 30 Ex.XU None))
           (Some (Ex.read "chr1" 50 60 30 Ex.XU None)) []).
  vm_compute. reflexivity.
Defined.

Lemma se_passes_filters_bool cfg r :
  se_passes_filters cfg r →
  aligned r = true ∧
  is_ignore (secondary_alignment_mode cfg) && not_primary_alignment r = false ∧
  is_ignore (supplementary_alignment_mode cfg) && supplementary r = false.
Proof.
  unfold se_passes_filters, is_ignore. intros (Ha & Hsec & Hsup).
  split; [done|]. split; apply andb_false_iff.
  - destruct (not_primary_alignment r); [left | by right].
    apply bool_decide_eq_false. intros ?. by apply Hsec.
  - destruct (supplementary r); [left | by right].
    apply bool_decide_eq_false. intros ?. by apply Hsup.
Qed.

(** What the single-end classifier does once the record is past the
    filters: the multimapping test, then the quality test. *)
Lemma classify_se_past_filters cfg r :
  se_passes_filters cfg r →
  classify_se cfg r =
    (skip ← match NH r with
            | Some n => if bool_decide (1 < n) then count_not_unique cfg else mret false
            | None => mret false
            end;
     if (skip : bool) then mret Stop
     else if bool_decide (aQual r < minaqual cfg) then
       record "__too_low_aQual";; mret Stop
     else mret (Resolve (if bool_decide (stranded cfg ≠ "reverse")
                         then ivs_plain (cigar r) else ivs_inverted (cigar r)))).
Proof.
  intros (Ha & Hsec & Hsup)%se_passes_filters_bool.
  unfold classify_se, optional_field_NH. rewrite Ha, Hsec, Hsup. simpl.
  destruct (NH r); repeat case_bool_decide; reflexivity.
Qed.

(** C4, as the code has it: the single-end classifier tests, in this order,
    not aligned (counted, stop), secondary with mode ignore (dropped),
    supplementary with mode ignore (dropped), NH > 1 (counted as
    [__alignment_not_unique]; stop exactly when multimapped_mode is "none"),
    quality below the threshold (counted as [__too_low_aQual], stop).  A
    multimapped record of low quality is counted as [__alignment_not_unique]
    only under "none"; under another mode it goes on to the quality test,
    is counted there as [__too_low_aQual] too and stops: only multimapped
    records of sufficient quality reach the overlap resolution. *)
Theorem classify_se_order cfg r :
  (aligned r = false → classify_se cfg r = (["__not_aligned"], Ok Stop)) ∧
  (aligned r = true → secondary_alignment_mode cfg = "ignore" →
   not_primary_alignment r = true → classify_se cfg r = ([], Ok Drop)) ∧
  (aligned r = true → supplementary_alignment_mode cfg = "ignore" →
   supplementary r = true → classify_se cfg r = ([], Ok Drop)) ∧
  (se_passes_filters cfg r → multimapped r → multimapped_mode cfg = "none" →
   classify_se cfg r = (["__alignment_not_unique"], Ok Stop)) ∧
  (se_passes_filters cfg r → multimapped r → multimapped_mode cfg ≠ "none" →
   aQual r < minaqual cfg →
   classify_se cfg r = (["__alignment_not_unique"; "__too_low_aQual"], Ok Stop)) ∧
  (se_passes_filters cfg r → multimapped r → multimapped_mode cfg ≠ "none" →
   minaqual cfg ≤ aQual r →
   (classify_se cfg r).1 = ["__alignment_not_unique"] ∧
   reaches_resolution (classify_se cfg r)) ∧
  (se_passes_filters cfg r → ¬ multimapped r → aQual r < minaqual cfg →
   classify_se cfg r = (["__too_low_aQual"], Ok Stop)) ∧
  (se_passes_filters cfg r → ¬ multimapped r → minaqual cfg ≤ aQual r →
   (classify_se cfg r).1 = [] ∧ reaches_resolution (classify_se cfg r)).
Proof.
  assert (Hnot : ¬ multimapped r →
    match NH r with
    | Some n => if bool_decide (1 < n) then count_not_unique cfg else mret false
    | None => mret false
    end = mret false).
  { intros Hm. destruct (NH r) as [n|] eqn:Hn; [|done].
    case_bool_decide; [|done]. destruct Hm. by exists n. }
  split_and!.
  - intros Ha. unfold classify_se. by rewrite Ha.
  - intros Ha Hs Hn. unfold classify_se, is_ignore.
    by rewrite Ha, Hn, (bool_decide_eq_true_2 _ Hs).
  - intros Ha Hs Hn. unfold classify_se, is_ignore.
    rewrite Ha, Hn, (bool_decide_eq_true_2 _ Hs). simpl.
    by destruct (_ && _).
  - intros Hp (n & Hn & Hgt) Hm. rewrite classify_se_past_filters by done.
    rewrite Hn, (bool_decide_eq_true_2 _ Hgt). tr_unfold.
    by rewrite (bool_decide_eq_true_2 _ Hm).
  - intros Hp (n & Hn & Hgt) Hm Hq. rewrite classify_se_past_filters by done.
    rewrite Hn, (bool_decide_eq_true_2 _ Hgt). tr_unfold.
    by rewrite (bool_decide_eq_false_2 _ Hm), (bool_decide_eq_true_2 _ Hq).
  - intros Hp (n & Hn & Hgt) Hm Hq. rewrite classify_se_past_filters by done.
    rewrite Hn, (bool_decide_eq_true_2 _ Hgt). tr_unfold.
    rewrite (bool_decide_eq_false_2 _ Hm), bool_decide_eq_false_2 by lia.
    split; [done | eexists; reflexivity].
  - intros Hp Hm Hq. rewrite classify_se_past_filters, Hnot by done. tr_unfold.
    by rewrite (bool_decide_eq_true_2 _ Hq).
  - intros Hp Hm Hq. rewrite classify_se_past_filters, Hnot by done. tr_unfold.
    rewrite bool_decide_eq_false_2 by lia.
    split; [done | eexists; reflexivity].
Qed.

Lemma ex_passes_filters c a b q tags nh mode mm :
  se_passes_filters (Ex.cfg mode mm) (Ex.read c a b q tags nh).
Proof. split; [reflexivity|]. split; intros [_ ?]; discriminate. Qed.

Lemma classify_se_order_witness :
  classify_se (Ex.cfg "union" "all") (Ex.read "chr1" 0 10 0 Ex.XU (Some 2))
  = (["__alignment_not_unique"; "__too_low_aQual"], Ok Stop).
Proof.
  refine (proj1 (proj2 (proj2 (proj2 (proj2
           (classify_se_order (Ex.cfg "union" "all")
              (Ex.read "chr1" 0 10 0 Ex.XU (Some 2))))))) _ _ _ _).
  - apply ex_passes_filters.
  - exists 2. split; [reflexivity | lia].
  - simpl. discriminate.
  - simpl. lia.
Defined.

(** C4, counterexample to the claim as worded: under multimapped_mode "all"
    a multimapped single-end record of quality below the threshold does not
    go on to the overlap resolution; the quality test stops it. *)
Lemma multimapped_low_quality_all_stops :
  let cfg := Ex.cfg "union" "all" in
  let r := Ex.read "chr1" 0 10 0 Ex.XU (Some 2) in
  se_passes_filters cfg r ∧ multimapped r ∧ aQual r < minaqual cfg ∧
  multimapped_mode cfg = "all" ∧
  ¬ reaches_resolution (classify_se cfg r).
Proof.
  split; [apply ex_passes_filters|].
  split; [exists 2; split; [reflexivity | lia]|].
  split; [simpl; lia|]. split; [reflexivity|].
  intros [ivs H]. vm_compute in H. discriminate.
Qed.

(** ** The overlap resolver *)

Section Monotone.
Context (cfg : Config) (features : FeatureIndex).

Lemma nested_step s n u fs2 :
  nested s n u →
  nested (intersect_step (with_overlap_mode cfg "intersection-strict") s fs2)
    (intersect_step (with_overlap_mode cfg "intersection-nonempty") n fs2)
    (u ∪ fs2).
Proof.
  unfold nested, intersect_step. simpl.
  rewrite orb_true_r, orb_false_r.
  destruct (decide (0 < size fs2)%nat) as [Hpos|Hzero].
  - rewrite (bool_decide_eq_true_2 _ Hpos).
    destruct s as [a|], n as [b|]; simpl; [set_solver | set_solver | done | set_solver].
  - rewrite (bool_decide_eq_false_2 _ Hzero).
    assert (fs2 = ∅) as -> by (apply leibniz_equiv, size_empty_iff; lia).
    destruct s as [a|], n as [b|]; simpl; [set_solver | set_solver | done | done].
Qed.

Lemma nested_steps sts s n u :
  nested s n u →
  nested (intersect_steps (with_overlap_mode cfg "intersection-strict") s sts)
    (intersect_steps (with_overlap_mode cfg "intersection-nonempty") n sts)
    (union_steps u sts).
Proof.
  revert s n u. induction sts as [|st sts IH]; intros s n u Hn; [done|].
  simpl. apply IH. by apply nested_step.
Qed.

Lemma nested_loops ivs s n u :
  Forall (λ iv, chrom iv ∈ chrom_vectors features) ivs →
  nested s n u →
  ∃ s' n' u',
    intersect_loop (with_overlap_mode cfg "intersection-strict") features s
      (Ok <$> ivs) = Ok s' ∧
    intersect_loop (with_overlap_mode cfg "intersection-nonempty") features n
      (Ok <$> ivs) = Ok n' ∧
    union_loop features u (Ok <$> ivs) = Ok u' ∧
    nested s' n' u'.
Proof.
  intros Hknown. revert s n u.
  induction Hknown as [|iv ivs Hiv _ IH]; intros s n u Hn; simpl.
  - by exists s, n, u.
  - rewrite (bool_decide_eq_true_2 _ Hiv). apply IH. by apply nested_steps.
Qed.

Lemma nested_subseteq s n u :
  nested s n u → fs_set s ⊆ fs_set n ∧ fs_set n ⊆ u.
Proof. destruct s as [a|], n as [b|]; simpl; set_solver. Qed.
End Monotone.

(** C3: on an interval sequence whose chromosomes are all known to the
    feature index, the three overlap modes return a result, and the feature
    set of intersection-strict is included in that of
    intersection-nonempty, which is included in that of union (an unset
    result counting as the empty set). *)
Theorem resolver_monotone cfg features ivs :
  Forall (λ iv, chrom iv ∈ chrom_vectors features) ivs →
  ∃ s n u,
    resolve_fs (with_overlap_mode cfg "intersection-strict") features (Ok <$> ivs) = Ok s ∧
    resolve_fs (with_overlap_mode cfg "intersection-nonempty") features (Ok <$> ivs) = Ok n ∧
    resolve_fs (with_overlap_mode cfg "union") features (Ok <$> ivs) = Ok u ∧
    fs_set s ⊆ fs_set n ∧ fs_set n ⊆ fs_set u.
Proof.
  intros Hknown.
  destruct (nested_loops cfg features ivs None None ∅ Hknown I)
    as (s & n & u & Hs & Hn & Hu & Hnest).
  exists s, n, (Some u). unfold resolve_fs. simpl.
  rewrite Hs, Hn, Hu. split_and!; try done; by apply nested_subseteq in Hnest as [??].
Qed.

Lemma resolver_monotone_witness :
  ∃ s n u,
    resolve_fs (with_overlap_mode (Ex.cfg "union" "none") "intersection-strict")
      Ex.features [Ok (Ex.iv "chr1" 0 10); Ok (Ex.iv "chr1" 250 260)] = Ok s ∧
    resolve_fs (with_overlap_mode (Ex.cfg "union" "none") "intersection-nonempty")
      Ex.features [Ok (Ex.iv "chr1" 0 10); Ok (Ex.iv "chr1" 250 260)] = Ok n ∧
    resolve_fs (with_overlap_mode (Ex.cfg "union" "none") "union")
      Ex.features [Ok (Ex.iv "chr1" 0 10); Ok (Ex.iv "chr1" 250 260)] = Ok u ∧
    fs_set s ⊆ fs_set n ∧ fs_set n ⊆ fs_set u.
Proof.
  apply (resolver_monotone (Ex.cfg "union" "none") Ex.features
           [Ex.iv "chr1" 0 10; Ex.iv "chr1" 250 260]).
  repeat constructor; simpl; by apply elem_of_singleton.
Defined.

(** ** Dictionaries and logs *)

Lemma dict_get_upd {K V} `{EqDecision K} (d : dict K V) k k' dflt f :
  dict_get (dict_upd d k dflt f) k'
  = if decide (k = k') then Some (f (default dflt (dict_get d k)))
    else dict_get d k'.
Proof.
  induction d as [|[k0 v] d IH]; simpl.
  - repeat case_decide; congruence.
  - destruct (decide (k0 = k)) as [->|Hne]; simpl.
    + repeat case_decide; congruence.
    + rewrite IH. repeat case_decide; congruence.
Qed.

Lemma dict_keys_upd {K V} `{EqDecision K} (d : dict K V) k dflt f :
  dict_keys (dict_upd d k dflt f)
  = if decide (k ∈ dict_keys d) then dict_keys d else dict_keys d ++ [k].
Proof.
  unfold dict_keys. induction d as [|[k0 v] d IH]; cbn [dict_upd fmap list_fmap fst].
  - by rewrite decide_False by set_solver.
  - destruct (decide (k0 = k)) as [->|Hne]; cbn [fmap list_fmap fst].
    + by rewrite decide_True by set_solver.
    + rewrite IH. destruct (decide (k ∈ fst <$> d)).
      * by rewrite decide_True by set_solver.
      * by rewrite decide_False by set_solver.
Qed.

Lemma dict_get_None {K V} `{EqDecision K} (d : dict K V) k :
  dict_get d k = None ↔ k ∉ dict_keys d.
Proof.
  unfold dict_keys. induction d as [|[k0 v] d IH]; cbn [dict_get fmap list_fmap fst].
  - set_solver.
  - destruct (decide (k0 = k)); subst; [set_solver|]. rewrite IH. set_solver.
Qed.

Lemma dict_get_elem_of {K V} `{EqDecision K} (d : dict K V) k v :
  dict_get d k = Some v → (k, v) ∈ d.
Proof.
  induction d as [|[k0 v0] d IH]; cbn [dict_get]; [done|].
  destruct (decide (k0 = k)); intros; simplify_eq; set_solver.
Qed.

Lemma counter_total_upd (ctr : Counter) k :
  counter_total (dict_upd ctr k 0 Z.succ) = counter_total ctr + 1.
Proof.
  induction ctr as [|[k0 v] ctr IH]; [done|].
  cbn [dict_upd]. destruct (decide (k0 = k)).
  - unfold counter_total. simpl. lia.
  - change (counter_total ((k0, v) :: dict_upd ctr k 0 Z.succ))
      with (v + counter_total (dict_upd ctr k 0 Z.succ)).
    rewrite IH. unfold counter_total. simpl. lia.
Qed.

Lemma counter_get_upd (ctr : Counter) k k' :
  counter_get (dict_upd ctr k 0 Z.succ) k'
  = counter_get ctr k' + (if decide (k = k') then 1 else 0).
Proof.
  unfold counter_get. rewrite dict_get_upd.
  case_decide; subst; simpl; [|lia]. destruct (dict_get ctr k'); simpl; lia.
Qed.

Lemma bucket_incr counts cb ub cat cb' ub' :
  bucket (incr counts cb ub cat) cb' ub'
  = if decide ((cb, ub) = (cb', ub')) then dict_upd (bucket counts cb ub) cat 0 Z.succ
    else bucket counts cb' ub'.
Proof.
  unfold bucket, incr. rewrite dict_get_upd.
  destruct (decide (cb = cb')) as [<-|Hcb]; simpl.
  - rewrite dict_get_upd.
    destruct (decide (ub = ub')) as [<-|Hub].
    + rewrite decide_True by done. simpl.
      by destruct (dict_get counts cb).
    + rewrite decide_False by congruence.
      by destruct (dict_get counts cb).
  - by rewrite decide_False by congruence.
Qed.

Lemma bucket_apply_log counts cb ub log cb' ub' :
  bucket (apply_log counts cb ub log) cb' ub'
  = if decide ((cb, ub) = (cb', ub')) then count_log (bucket counts cb ub) log
    else bucket counts cb' ub'.
Proof.
  unfold apply_log, count_log. revert counts.
  induction log as [|k log IH]; intros counts; simpl.
  - by case_decide; simplify_eq.
  - rewrite IH, !bucket_incr. rewrite (decide_True (P := (cb, ub) = (cb, ub))) by done.
    by case_decide.
Qed.

Lemma counter_total_count_log ctr log :
  counter_total (count_log ctr log) = counter_total ctr + Z.of_nat (length log).
Proof.
  unfold count_log. revert ctr. induction log as [|k log IH]; intros ctr; simpl.
  - lia.
  - rewrite IH, counter_total_upd. lia.
Qed.

Lemma counter_get_count_log ctr log k :
  counter_get (count_log ctr log) k
  = counter_get ctr k + Z.of_nat (length (filter (λ x, x = k) log)).
Proof.
  unfold count_log. revert ctr. induction log as [|x log IH]; intros ctr; simpl.
  - lia.
  - rewrite IH, counter_get_upd, filter_cons.
    repeat case_decide; simpl; lia.
Qed.

(** ** One iteration of the loop *)

Lemma classify_se_shape cfg r : verdict_shape cfg (classify_se cfg r).
Proof.
  unfold classify_se, verdict_shape, audit_prefix, optional_field_NH. tr_unfold.
  repeat (case_match; simplify_eq/=); repeat case_bool_decide; simplify_eq/=;
    naive_solver.
Qed.

Lemma pe_not_unique_raises r0 r1 e :
  pe_not_unique r0 r1 = Raise e → e = KeyError.
Proof.
  unfold pe_not_unique, NH_gt1, optional_field_NH, mbind, result_bind.
  repeat (case_match; simplify_eq/=); congruence.
Qed.

Lemma classify_pe_checks_shape cfg r0 r1 ivs :
  verdict_shape cfg (classify_pe_checks cfg r0 r1 ivs).
Proof.
  unfold classify_pe_checks, verdict_shape, audit_prefix. tr_unfold.
  repeat (case_match; simplify_eq/=); repeat case_bool_decide; simplify_eq/=;
    try naive_solver;
    match goal with
    | H : pe_not_unique _ _ = Raise _ |- _ => by apply pe_not_unique_raises in H
    end.
Qed.

Lemma classify_shape cfg r : verdict_shape cfg (classify cfg r).
Proof.
  destruct r as [a|r0 r1]; [apply classify_se_shape|].
  unfold classify, classify_pe.
  repeat case_match; try apply classify_pe_checks_shape;
    unfold verdict_shape; simpl; by left.
Qed.

Lemma classify_resolve_log cfg r log ivs :
  classify cfg r = (log, Ok (Resolve ivs)) → audit_prefix cfg log.
Proof.
  intros H. pose proof (classify_shape cfg r) as Hs.
  unfold verdict_shape in Hs. by rewrite H in Hs.
Qed.

(** The classifier never raises. *)
Lemma classify_ok cfg r : ∃ v, (classify cfg r).2 = Ok v.
Proof.
  pose proof (classify_shape cfg r) as Hs. unfold verdict_shape in Hs.
  destruct (classify cfg r).2; [by eexists | done].
Qed.

Lemma size_elements (s : FeatureSet) : size s = length (elements s).
Proof. reflexivity. Qed.

Lemma count_each_log (s : FeatureSet) : count_each s = (elements s, Ok tt).
Proof.
  unfold count_each. induction (elements s) as [|f l IH]; [done|].
  cbn [foldr]. rewrite IH. reflexivity.
Qed.

(** The counting after the resolution: when it returns, it has counted at
    least one category, and exactly one under multimapped_mode "none"; it
    raises only for an unknown multimapped mode and a non-empty set. *)
Lemma count_fs_shape cfg fs :
  match (count_fs cfg fs).2 with
  | Ok _ =>
      (1 ≤ length (count_fs cfg fs).1)%nat ∧
      (multimapped_mode cfg = "none" → length (count_fs cfg fs).1 = 1%nat)
  | Raise e =>
      e = SystemExit "Illegal multimap mode." ∧
      multimapped_mode cfg ∉ multimapped_modes
  end.
Proof.
  unfold count_fs, count_first, multimapped_modes.
  destruct fs as [s|]; [|simpl; auto].
  rewrite count_each_log, !size_elements. destruct (elements s) as [|f [|g l]]; tr_unfold.
  - auto.
  - destruct (decide (multimapped_mode cfg = "none")) as [Hn|Hn].
    + rewrite (bool_decide_eq_true_2 _ Hn). simpl. auto.
    + rewrite (bool_decide_eq_false_2 _ Hn).
      destruct (decide (multimapped_mode cfg = "all")) as [Ha|Ha].
      * rewrite (bool_decide_eq_true_2 _ Ha). simpl. split; [lia | done].
      * rewrite (bool_decide_eq_false_2 _ Ha). simpl. split; [done | set_solver].
  - destruct (decide (multimapped_mode cfg = "none")) as [Hn|Hn].
    + rewrite (bool_decide_eq_true_2 _ Hn). simpl. auto.
    + rewrite (bool_decide_eq_false_2 _ Hn).
      destruct (decide (multimapped_mode cfg = "all")) as [Ha|Ha].
      * rewrite (bool_decide_eq_true_2 _ Ha). simpl. split; [lia | done].
      * rewrite (bool_decide_eq_false_2 _ Ha). simpl. split; [done | set_solver].
Qed.

Lemma resolve_and_count_cases cfg features ivs :
  resolve_and_count cfg features ivs =
    match resolve_fs cfg features ivs with
    | Ok fs => count_fs cfg fs
    | Raise UnknownChrom => (["__no_feature"], Ok tt)
    | Raise e => ([], Raise e)
    end.
Proof.
  unfold resolve_and_count, try_except_UnknownChrom.
  destruct (resolve_fs cfg features ivs) as [fs|e]; tr_unfold.
  - pose proof (count_fs_shape cfg fs) as Hs.
    destruct (count_fs cfg fs) as [log [[]|e]]; simpl in *; [done|].
    destruct Hs as [-> _]. done.
  - by destruct e.
Qed.

Lemma loop_body_cases cfg features r :
  loop_body cfg features r =
    match (classify cfg r).2 with
    | Ok (Resolve ivs) =>
        ((classify cfg r).1 ++ (resolve_and_count cfg features ivs).1,
         (resolve_and_count cfg features ivs).2)
    | Ok _ => ((classify cfg r).1, Ok tt)
    | Raise e => ((classify cfg r).1, Raise e)
    end.
Proof.
  unfold loop_body. tr_unfold.
  destruct (classify cfg r) as [log [[| |ivs]|e]]; simpl; by rewrite ?app_nil_r.
Qed.

(** ** Unknown chromosomes *)

Section Unknown.
Context (cfg : Config) (features : FeatureIndex).

(** The generator is consumed up to the first interval of an unknown
    chromosome; what follows it is never computed. *)
Lemma union_loop_unknown fs pre iv post :
  chrom iv ∉ chrom_vectors features →
  union_loop features fs ((Ok <$> pre) ++ Ok iv :: post) = Raise UnknownChrom.
Proof.
  intros Hiv. revert fs. induction pre as [|iv0 pre IH]; intros fs; simpl.
  - by rewrite (bool_decide_eq_false_2 _ Hiv).
  - case_bool_decide; [apply IH | done].
Qed.

Lemma intersect_loop_unknown fs pre iv post :
  chrom iv ∉ chrom_vectors features →
  intersect_loop cfg features fs ((Ok <$> pre) ++ Ok iv :: post)
  = Raise UnknownChrom.
Proof.
  intros Hiv. revert fs. induction pre as [|iv0 pre IH]; intros fs; simpl.
  - by rewrite (bool_decide_eq_false_2 _ Hiv).
  - case_bool_decide; [apply IH | done].
Qed.

Lemma resolve_fs_unknown pre iv post :
  overlap_mode cfg ∈ overlap_modes →
  chrom iv ∉ chrom_vectors features →
  resolve_fs cfg features ((Ok <$> pre) ++ Ok iv :: post) = Raise UnknownChrom.
Proof.
  intros Hmode Hiv. unfold resolve_fs.
  case_bool_decide.
  - by rewrite union_loop_unknown.
  - rewrite bool_decide_eq_true_2; [by apply intersect_loop_unknown|].
    unfold overlap_modes in Hmode. set_solver.
Qed.
End Unknown.

(** C8: a record unit that reaches the overlap resolution (under one of the
    three overlap modes) and whose interval sequence holds an interval [iv]
    on a chromosome that the feature index does not know, after intervals
    [pre] that were computed without error, is counted once as
    [__no_feature] for its barcode, whatever the earlier intervals
    overlapped: no other category changes (but [__alignment_not_unique],
    which the classifier may have counted before), no exception leaves the
    iteration and the loop goes on with the next record unit. *)
Theorem unknown_chrom_no_feature cfg features r log pre iv post counts rest :
  overlap_mode cfg ∈ overlap_modes →
  classify cfg r = (log, Ok (Resolve ((Ok <$> pre) ++ Ok iv :: post))) →
  chrom iv ∉ chrom_vectors features →
  let b := identify_barcodes cfg r in
  let counts' := apply_log counts b.1 b.2 (log ++ ["__no_feature"]) in
  loop_body cfg features r = (log ++ ["__no_feature"], Ok tt) ∧
  scan cfg features (r :: rest) counts = scan cfg features rest counts' ∧
  counter_get (bucket counts' b.1 b.2) "__no_feature"
    = counter_get (bucket counts b.1 b.2) "__no_feature" + 1 ∧
  (∀ k, k ≠ "__no_feature" → k ≠ "__alignment_not_unique" →
        counter_get (bucket counts' b.1 b.2) k = counter_get (bucket counts b.1 b.2) k) ∧
  (∀ cb ub, (cb, ub) ≠ b → bucket counts' cb ub = bucket counts cb ub).
Proof.
  intros Hmode Hcl Hiv b counts'.
  assert (Hbody : loop_body cfg features r = (log ++ ["__no_feature"], Ok ())).
  { rewrite loop_body_cases, Hcl. simpl.
    by rewrite resolve_and_count_cases, resolve_fs_unknown. }
  split; [done|]. split.
  { simpl. unfold process_unit. by rewrite Hbody. }
  pose proof (classify_resolve_log _ _ _ _ Hcl) as Hlog.
  subst counts'. split; [|split].
  - rewrite bucket_apply_log, decide_True by by destruct b.
    rewrite counter_get_count_log.
    destruct Hlog as [->|[-> _]]; simpl; lia.
  - intros k Hk1 Hk2.
    rewrite bucket_apply_log, decide_True by by destruct b.
    rewrite counter_get_count_log.
    destruct Hlog as [->|[-> _]]; simpl; rewrite !filter_cons, filter_nil;
      repeat case_decide; simplify_eq; simpl; lia.
  - intros cb ub Hne. rewrite bucket_apply_log, decide_False; [done|].
    intros Heq. apply Hne. by destruct b; simplify_eq.
Qed.

Lemma unknown_chrom_no_feature_witness :
  loop_body (Ex.cfg "union" "none") Ex.features Ex.split_pair
  = (["__no_feature"], Ok tt).
Proof.
  refine (proj1 (unknown_chrom_no_feature (Ex.cfg "union" "none") Ex.features
                   Ex.split_pair []
                   [Ex.iv "chr1" 0 10] (with_strand (Ex.iv "chrUn" 0 10) "-") []
                   [] [] _ _ _)).
  - apply list_elem_of_here.
  - vm_compute. reflexivity.
  - simpl. intros Hin%elem_of_singleton. discriminate.
Defined.

(** ** Unknown modes *)

Section Modes.
Context (cfg : Config) (features : FeatureIndex).

Lemma scan_app pre post counts :
  scan cfg features (pre ++ post) counts =
    match scan cfg features pre counts with
    | Finished c => scan cfg features post c
    | Aborted e c => Aborted e c
    end.
Proof.
  revert counts. induction pre as [|r pre IH]; intros counts; simpl; [done|].
  destruct (process_unit cfg features r counts); [apply IH | done].
Qed.

Lemma resolve_fs_illegal ivs :
  overlap_mode cfg ∉ overlap_modes →
  resolve_fs cfg features ivs = Raise (SystemExit "Illegal overlap mode.").
Proof.
  unfold overlap_modes, resolve_fs. intros Hmode.
  rewrite !bool_decide_eq_false_2; [done | set_solver | set_solver].
Qed.

Lemma loop_body_illegal_overlap r log ivs :
  overlap_mode cfg ∉ overlap_modes →
  classify cfg r = (log, Ok (Resolve ivs)) →
  loop_body cfg features r = (log, Raise (SystemExit "Illegal overlap mode.")).
Proof.
  intros Hmode Hcl. rewrite loop_body_cases, Hcl. simpl.
  rewrite resolve_and_count_cases, resolve_fs_illegal by done.
  by rewrite app_nil_r.
Qed.

Lemma loop_body_no_resolution r :
  ¬ reaches_resolution (classify cfg r) →
  loop_body cfg features r = ((classify cfg r).1, Ok tt).
Proof.
  intros Hno. rewrite loop_body_cases.
  destruct (classify_ok cfg r) as [v Hv]. rewrite Hv.
  destruct v as [| |ivs]; [done | done |].
  destruct Hno. by exists ivs.
Qed.

Lemma count_fs_illegal_multimap s :
  multimapped_mode cfg ∉ multimapped_modes →
  (0 < size s)%nat →
  count_fs cfg (Some s) =
    ((if bool_decide (1 < size s)%nat then ["__ambiguous"] else []),
     Raise (SystemExit "Illegal multimap mode.")).
Proof.
  unfold multimapped_modes, count_fs. intros Hmode Hpos.
  rewrite (bool_decide_eq_false_2 (size s = 0%nat)) by lia.
  rewrite (bool_decide_eq_true_2 _ Hpos).
  rewrite !(bool_decide_eq_false_2 (multimapped_mode cfg = _)) by set_solver.
  case_bool_decide; reflexivity.
Qed.

Lemma loop_body_illegal_multimap r log ivs s :
  multimapped_mode cfg ∉ multimapped_modes →
  classify cfg r = (log, Ok (Resolve ivs)) →
  resolve_fs cfg features ivs = Ok (Some s) →
  (0 < size s)%nat →
  loop_body cfg features r =
    (log ++ (if bool_decide (1 < size s)%nat then ["__ambiguous"] else []),
     Raise (SystemExit "Illegal multimap mode.")).
Proof.
  intros Hmode Hcl Hfs Hpos. rewrite loop_body_cases, Hcl. simpl.
  by rewrite resolve_and_count_cases, Hfs, count_fs_illegal_multimap.
Qed.

(** Units that do not reach the overlap resolution are counted without
    error, whatever the modes. *)
Lemma scan_without_resolution rs counts :
  Forall (λ r, ¬ reaches_resolution (classify cfg r)) rs →
  ∃ counts', scan cfg features rs counts = Finished counts'.
Proof.
  intros Hall. revert counts.
  induction Hall as [|r rs Hr _ IH]; intros counts; simpl; [by eexists|].
  unfold process_unit. rewrite (loop_body_no_resolution r Hr). simpl. apply IH.
Qed.

(** Under an unknown overlap mode the loop ends normally only if no unit
    reached the overlap resolution. *)
Lemma scan_finished_illegal_overlap rs counts counts' :
  overlap_mode cfg ∉ overlap_modes →
  scan cfg features rs counts = Finished counts' →
  Forall (λ r, ¬ reaches_resolution (classify cfg r)) rs.
Proof.
  intros Hmode. revert counts.
  induction rs as [|r rs IH]; intros counts Hscan; [constructor|].
  simpl in Hscan. unfold process_unit in Hscan.
  destruct (loop_body cfg features r).2 eqn:Hbody; [|done].
  constructor; [|by eapply IH].
  intros [ivs Hivs].
  destruct (classify cfg r) as [log res] eqn:Hcl. simpl in Hivs. subst res.
  by rewrite (loop_body_illegal_overlap r log ivs) in Hbody.
Qed.
End Modes.

(** C7, as the code has it: an unknown mode is detected where it is used.
    With an unknown overlap mode the loop aborts with
    "Illegal overlap mode." at the first record unit that reaches the
    overlap resolution; with an unknown multimapped mode it aborts with
    "Illegal multimap mode." at the first record unit that resolves to a
    non-empty feature set.  The record units before it have been counted
    (under an unknown overlap mode, all of them were excluded or dropped),
    the table at the abort also holds what the aborting iteration counted
    before the test, and a stream in which no record unit reaches the
    overlap resolution is counted to the end without error. *)
Theorem config_error_at_first_use cfg features pre r post counts counts' log ivs :
  scan cfg features pre counts = Finished counts' →
  classify cfg r = (log, Ok (Resolve ivs)) →
  let b := identify_barcodes cfg r in
  (overlap_mode cfg ∉ overlap_modes →
   Forall (λ u, ¬ reaches_resolution (classify cfg u)) pre ∧
   scan cfg features (pre ++ r :: post) counts
   = Aborted (SystemExit "Illegal overlap mode.") (apply_log counts' b.1 b.2 log)) ∧
  (multimapped_mode cfg ∉ multimapped_modes →
   ∀ s, resolve_fs cfg features ivs = Ok (Some s) → (0 < size s)%nat →
   scan cfg features (pre ++ r :: post) counts
   = Aborted (SystemExit "Illegal multimap mode.")
       (apply_log counts' b.1 b.2
          (log ++ (if bool_decide (1 < size s)%nat then ["__ambiguous"] else [])))) ∧
  (∀ rs c, Forall (λ u, ¬ reaches_resolution (classify cfg u)) rs →
           ∃ c', scan cfg features rs c = Finished c').
Proof.
  intros Hpre Hcl b. split_and!.
  - intros Hmode. split; [by eapply scan_finished_illegal_overlap|].
    rewrite scan_app, Hpre. simpl. unfold process_unit.
    by rewrite (loop_body_illegal_overlap cfg features r log ivs).
  - intros Hmode s Hfs Hpos.
    rewrite scan_app, Hpre. simpl. unfold process_unit.
    by rewrite (loop_body_illegal_multimap cfg features r log ivs s).
  - intros rs c. apply scan_without_resolution.
Qed.

Lemma config_error_at_first_use_witness :
  scan (Ex.cfg "bogus" "none") Ex.features
    ([SE (Ex.unaligned Ex.XU)] ++ [SE (Ex.read "chr1" 0 10 30 Ex.XU None)]) []
  = Aborted (SystemExit "Illegal overlap mode.")
      [(Some "X", [(Some "U", [("__not_aligned", 1)])])].
Proof.
  refine (proj2 (proj1 (config_error_at_first_use (Ex.cfg "bogus" "none") Ex.features
                          [SE (Ex.unaligned Ex.XU)]
                          (SE (Ex.read "chr1" 0 10 30 Ex.XU None)) [] []
                          [(Some "X", [(Some "U", [("__not_aligned", 1)])])]
                          [] [Ok (Ex.iv "chr1" 0 10)] _ _) _)).
  - vm_compute. reflexivity.
  - vm_compute. reflexivity.
  - unfold overlap_modes. simpl. intros Hin.
    repeat (apply elem_of_cons in Hin as [Hin|Hin]; [discriminate|]).
    by apply elem_of_nil in Hin.
Defined.

(** C7, counterexample to the claim as worded: with the unknown overlap mode
    "bogus" a record that is not aligned is counted before the next record
    aborts the loop, and an input made of that record alone is counted to
    the end and collapsed without any error. *)
Lemma illegal_overlap_mode_after_counting :
  let cfg := Ex.cfg "bogus" "none" in
  (overlap_mode cfg ∉ overlap_modes) ∧
  scan cfg Ex.features
    [SE (Ex.unaligned Ex.XU); SE (Ex.read "chr1" 0 10 30 Ex.XU None)] []
  = Aborted (SystemExit "Illegal overlap mode.")
      [(Some "X", [(Some "U", [("__not_aligned", 1)])])] ∧
  count_reads_with_barcodes cfg Ex.features (SingleEnd [Ex.unaligned Ex.XU])
  = Ok {| cell_barcodes := [Some "X"];
          counts_collapsed := [(Some "X", [("__not_aligned", 1)])] |}.
Proof.
  split_and!.
  - unfold overlap_modes. simpl. intros Hin.
    repeat (apply elem_of_cons in Hin as [Hin|Hin]; [discriminate|]).
    by apply elem_of_nil in Hin.
  - vm_compute. reflexivity.
  - vm_compute. reflexivity.
Qed.

(** ** The sum of a bucket *)

Section Totals.
Context (cfg : Config) (features : FeatureIndex).

(** An iteration that ends normally counts nothing for a dropped unit, at
    least one category otherwise, and exactly one under multimapped_mode
    "none". *)
Lemma loop_body_log_length r :
  (loop_body cfg features r).2 = Ok tt →
  (dropped cfg r = true → (loop_body cfg features r).1 = []) ∧
  (dropped cfg r = false →
     (1 ≤ length (loop_body cfg features r).1)%nat ∧
     (multimapped_mode cfg = "none" →
      length (loop_body cfg features r).1 = 1%nat)).
Proof.
  rewrite loop_body_cases. unfold dropped.
  pose proof (classify_shape cfg r) as Hs. unfold verdict_shape in Hs.
  destruct (classify cfg r) as [log [[| |ivs]|e]]; simpl in *; [| | |done].
  - intros _. split; [done|]. intros _.
    destruct Hs as [->|[[-> _]|(pre & Hpre & ->)]]; simpl; [auto..|].
    rewrite length_app. simpl. split; [lia|].
    intros Hn. destruct Hpre as [->|[_ ?]]; done.
  - intros _. by split.
  - rewrite resolve_and_count_cases. intros Hok. split; [done|]. intros _.
    rewrite length_app.
    destruct (resolve_fs cfg features ivs) as [fs|e].
    + pose proof (count_fs_shape cfg fs) as Hc. rewrite Hok in Hc.
      destruct Hc as [Hge Hone]. split; [lia|].
      intros Hn. rewrite (Hone Hn). destruct Hs as [->|[_ ?]]; done.
    + destruct e; try done. simpl. split; [lia|].
      intros Hn. destruct Hs as [->|[_ ?]]; done.
Qed.

Lemma scan_bucket_total rs counts counts' cb ub :
  scan cfg features rs counts = Finished counts' →
  (bucket_total counts cb ub + Z.of_nat (kept_with cfg rs cb ub)
     ≤ bucket_total counts' cb ub) ∧
  (multimapped_mode cfg = "none" →
   bucket_total counts' cb ub
   = bucket_total counts cb ub + Z.of_nat (kept_with cfg rs cb ub)).
Proof.
  revert counts. induction rs as [|r rs IH]; intros counts Hscan.
  - simpl in Hscan. simplify_eq. unfold kept_with. simpl. lia.
  - simpl in Hscan. unfold process_unit in Hscan.
    destruct (loop_body cfg features r).2 as [[]|] eqn:Hbody; [|done].
    destruct (IH _ Hscan) as [IHle IHeq].
    destruct (loop_body_log_length r Hbody) as [Hdrop Hkeep].
    unfold bucket_total in *.
    rewrite bucket_apply_log in IHle, IHeq.
    unfold kept_with in *. rewrite filter_cons.
    destruct (identify_barcodes cfg r) as [cb0 ub0] eqn:Hb. simpl in *.
    destruct (decide ((cb0, ub0) = (cb, ub))) as [Heq|Hne].
    + rewrite counter_total_count_log in IHle, IHeq.
      destruct (dropped cfg r) eqn:Hd.
      * rewrite (Hdrop eq_refl) in IHle, IHeq. simpl in *.
        rewrite decide_False by (intros [_ ?]; done).
        simplify_eq. split; [lia|]. intros Hn. rewrite (IHeq Hn). lia.
      * destruct (Hkeep eq_refl) as [Hge Hone].
        rewrite decide_True by done. simpl length.
        simplify_eq. split; [lia|]. intros Hn. rewrite (IHeq Hn), (Hone Hn). lia.
    + rewrite decide_False by (intros [? _]; done).
      split; [lia|]. intros Hn. by rewrite (IHeq Hn).
Qed.
End Totals.

(** C1, as the code has it: when the loop ends normally, the counts of the
    bucket of a barcode sum to the number of record units that carry the
    barcode and were not dropped by the secondary/supplementary filters if
    multimapped_mode is "none"; in general (so under "all") the sum is at
    least that number. *)
Theorem bucket_total_counts_kept cfg features rs counts cb ub :
  scan cfg features rs [] = Finished counts →
  (multimapped_mode cfg = "none" →
   bucket_total counts cb ub = Z.of_nat (kept_with cfg rs cb ub)) ∧
  Z.of_nat (kept_with cfg rs cb ub) ≤ bucket_total counts cb ub.
Proof.
  intros Hscan.
  destruct (scan_bucket_total cfg features rs [] counts cb ub Hscan) as [Hle Heq].
  change (bucket_total [] cb ub) with 0 in *. split; [|lia].
  intros Hn. rewrite (Heq Hn). lia.
Qed.

Lemma bucket_total_counts_kept_witness :
  bucket_total
    [(Some "X", [(Some "U", [("__alignment_not_unique", 1); ("GeneA", 1)])])]
    (Some "X") (Some "U")
  = Z.of_nat (kept_with (Ex.cfg "union" "none")
                [SE (Ex.read "chr1" 0 10 30 Ex.XU (Some 2));
                 SE (Ex.read "chr1" 50 60 30 Ex.XU None)] (Some "X") (Some "U")).
Proof.
  refine (proj1 (bucket_total_counts_kept (Ex.cfg "union" "none") Ex.features
                   [SE (Ex.read "chr1" 0 10 30 Ex.XU (Some 2));
                    SE (Ex.read "chr1" 50 60 30 Ex.XU None)]
                   [(Some "X", [(Some "U", [("__alignment_not_unique", 1); ("GeneA", 1)])])]
                   (Some "X") (Some "U") _) _).
  - vm_compute. reflexivity.
  - reflexivity.
Defined.

(** C1, counterexample to the claim as worded: under multimapped_mode "all"
    one record with NH = 2 is counted as [__alignment_not_unique] and as
    GeneA, so its bucket sums to 2 for a single record unit. *)
Lemma multimapped_all_counts_twice :
  let cfg := Ex.cfg "union" "all" in
  let rs := [SE (Ex.read "chr1" 0 10 30 Ex.XU (Some 2))] in
  let counts := [(Some "X", [(Some "U", [("__alignment_not_unique", 1); ("GeneA", 1)])])] in
  scan cfg Ex.features rs [] = Finished counts ∧
  kept_with cfg rs (Some "X") (Some "U") = 1%nat ∧
  bucket_total counts (Some "X") (Some "U") = 2.
Proof. split_and!; vm_compute; reflexivity. Qed.

(** ** Well-formed tables *)

Lemma dict_upd_NoDup {K V} `{EqDecision K} (d : dict K V) k dflt f :
  NoDup (dict_keys d) → NoDup (dict_keys (dict_upd d k dflt f)).
Proof.
  intros Hnd. rewrite dict_keys_upd. case_decide; [done|].
  apply NoDup_app. split_and!; [done | | apply NoDup_singleton].
  intros x Hx ?%list_elem_of_singleton. by subst.
Qed.

Lemma dict_upd_Forall {K V} `{EqDecision K} (P : V → Prop) (d : dict K V) k dflt f :
  Forall (λ kv, P kv.2) d → P (f dflt) → (∀ v, P v → P (f v)) →
  Forall (λ kv, P kv.2) (dict_upd d k dflt f).
Proof.
  intros Hd Hdflt Hf. induction Hd as [|[k0 v] d Hv Hd IH]; cbn [dict_upd].
  - by repeat constructor.
  - destruct (decide (k0 = k)); constructor; simpl in *; auto.
Qed.

Lemma dict_upd_not_nil {K V} `{EqDecision K} (d : dict K V) k dflt f :
  dict_upd d k dflt f ≠ [].
Proof. destruct d as [|[k0 v] d]; cbn [dict_upd]; [done|]. by destruct (decide _). Qed.

Lemma incr_wf counts cb ub cat : wf_table counts → wf_table (incr counts cb ub cat).
Proof.
  unfold wf_table, incr. intros [Hnd Hall]. split; [by apply dict_upd_NoDup|].
  apply (dict_upd_Forall
           (λ m : UmiTable, NoDup (dict_keys m) ∧ Forall (λ uc, uc.2 ≠ []) m));
    [done | |].
  - split; [apply dict_upd_NoDup; constructor|].
    repeat constructor. simpl. done.
  - intros m [Hm1 Hm2]. split; [by apply dict_upd_NoDup|].
    apply (dict_upd_Forall (λ ctr : Counter, ctr ≠ [])); [done | ..];
      intros; apply dict_upd_not_nil.
Qed.

Lemma apply_log_wf counts cb ub log :
  wf_table counts → wf_table (apply_log counts cb ub log).
Proof.
  unfold apply_log. revert counts.
  induction log as [|k log IH]; intros counts Hwf; simpl; [done|].
  by apply IH, incr_wf.
Qed.

Lemma scan_wf cfg features rs counts counts' :
  wf_table counts → scan cfg features rs counts = Finished counts' → wf_table counts'.
Proof.
  revert counts. induction rs as [|r rs IH]; intros counts Hwf Hscan; simpl in Hscan.
  - by simplify_eq.
  - unfold process_unit in Hscan.
    destruct (loop_body cfg features r).2; [|done].
    eapply IH; [|done]. by apply apply_log_wf.
Qed.

Lemma wf_table_nil : wf_table [].
Proof. split; constructor. Qed.

(** ** The majority vote *)

Lemma max_item_first_max pre w n post rest :
  Forall (λ kv, kv.2 < n) pre → Forall (λ kv, kv.2 ≤ n) post →
  first_max (pre ++ (w, n) :: post ++ rest)
    (max_item (w, n) rest).1 (max_item (w, n) rest).2.
Proof.
  unfold max_item. revert pre w n post.
  induction rest as [|y rest IH]; intros pre w n post Hpre Hpost; simpl.
  - exists pre, post. by rewrite app_nil_r.
  - case_bool_decide as Hlt.
    + destruct y as [w' n']. simpl in Hlt.
      specialize (IH (pre ++ (w, n) :: post) w' n' []).
      rewrite <- app_assoc in IH. simpl in IH.
      replace (post ++ (w', n') :: rest) with (post ++ (w', n') :: [] ++ rest) by done.
      apply IH; [|constructor].
      apply Forall_app. split; [|constructor].
      * eapply Forall_impl; [done|]. simpl. lia.
      * simpl. lia.
      * eapply Forall_impl; [done|]. simpl. lia.
    + specialize (IH pre w n (post ++ [y])).
      rewrite <- app_assoc in IH. simpl in IH. apply IH; [done|].
      apply Forall_app. split; [done|]. repeat constructor. lia.
Qed.

(** [most_common(1)] of a non-empty bucket is its first maximum. *)
Lemma most_common_1_first_max (udic : Counter) :
  udic ≠ [] →
  ∃ w n, most_common_1 udic = [(w, n)] ∧ first_max udic w n.
Proof.
  destruct udic as [|[w0 n0] rest]; [done|]. intros _.
  exists (max_item (w0, n0) rest).1, (max_item (w0, n0) rest).2. split.
  - simpl. by destruct (max_item (w0, n0) rest).
  - apply (max_item_first_max [] w0 n0 [] rest); constructor.
Qed.

Lemma wins_cons ub udic (m : UmiTable) w :
  wins ((ub, udic) :: m) w
  = ((if decide (winner udic = Some w) then 1 else 0) + wins m w)%nat.
Proof. unfold wins. rewrite filter_cons. simpl. by case_decide. Qed.

Lemma collapse_umis_spec (m : UmiTable) (acc : Counter) :
  Forall (λ uc, uc.2 ≠ []) m →
  ∃ cell, collapse_umis m acc = Ok cell ∧
    (∀ w, counter_get cell w = counter_get acc w + Z.of_nat (wins m w)) ∧
    counter_total cell = counter_total acc + Z.of_nat (length m).
Proof.
  intros Hm. revert acc. induction Hm as [|[ub udic] m Hne _ IH]; intros acc.
  - exists acc. split_and!; [done | intros; unfold wins; simpl; lia | simpl; lia].
  - simpl in Hne. destruct (most_common_1_first_max udic Hne) as (w0 & n0 & Hmc & _).
    cbn [collapse_umis]. rewrite Hmc.
    destruct (IH (dict_upd acc (w0, n0).1 0 Z.succ)) as (cell & Hcell & Hget & Htot).
    exists cell. split_and!; [done | |].
    + intros w. rewrite Hget, counter_get_upd, wins_cons.
      unfold winner. rewrite Hmc. simpl.
      destruct (decide (w0 = w)) as [->|Hw].
      * rewrite decide_True by done. lia.
      * rewrite decide_False by congruence. lia.
    + rewrite Htot, counter_total_upd. simpl length. lia.
Qed.

(** ** Sorting the cell barcodes *)

Lemma ltb_le s t : String.ltb s t = true → String.le s t.
Proof.
  unfold String.le, String.ltb, String.leb.
  by destruct (String.compare s t).
Qed.

Lemma not_ltb_le s t : String.ltb s t = false → String.le t s.
Proof.
  unfold String.le, String.ltb, String.leb. rewrite (String.compare_antisym s t).
  by destruct (String.compare t s).
Qed.

Lemma key_le_trans : Transitive key_le.
Proof.
  intros [s|] [t|] [u|]; simpl; try done. apply transitivity.
Qed.

Lemma sorted_insert_ok x l l' :
  sorted_insert x l = Ok l' →
  l' ≡ₚ x :: l ∧ (StronglySorted key_le l → StronglySorted key_le l').
Proof.
  revert l'. induction l as [|y l IH]; intros l' Hins; cbn [sorted_insert] in Hins.
  - simplify_eq. split; [done|]. intros _. by repeat constructor.
  - destruct x as [s|], y as [t|]; try done. simpl in Hins.
    destruct (String.ltb s t) eqn:Hlt.
    + simplify_eq. split; [done|].
      intros Hs. constructor; [done|].
      constructor; [by apply ltb_le|].
      apply StronglySorted_inv in Hs as [_ Hall].
      eapply Forall_impl; [done|]. intros z Hz.
      apply (key_le_trans (Some s) (Some t) z); [by apply ltb_le | done].
    + destruct (sorted_insert (Some s) l) as [l''|] eqn:Hl''; [|done].
      simpl in Hins. simplify_eq.
      destruct (IH l'' eq_refl) as [Hperm Hsort]. split.
      * rewrite Hperm. apply perm_swap.
      * intros Hs. apply StronglySorted_inv in Hs as [Hs Hall].
        constructor; [by apply Hsort|].
        rewrite Hperm. constructor; [by apply not_ltb_le | done].
Qed.

Lemma sorted_insert_raise x l e : sorted_insert x l = Raise e → e = TypeError.
Proof.
  induction l as [|y l IH]; cbn [sorted_insert]; [done|].
  destruct x as [s|], y as [t|]; simpl; try congruence.
  destruct (String.ltb s t); [done|].
  destruct (sorted_insert (Some s) l); simpl; [done|]. intros. simplify_eq. by apply IH.
Qed.

Lemma sorted_insert_total s l :
  None ∉ l → ∃ l', sorted_insert (Some s) l = Ok l'.
Proof.
  induction l as [|y l IH]; intros Hno; cbn [sorted_insert]; [by eexists|].
  destruct y as [t|]; [|set_solver]. simpl.
  destruct (String.ltb s t); [by eexists|].
  destruct IH as [l' ->]; [set_solver|]. by eexists.
Qed.

Lemma sort_from_raise l e : foldl sort_step (Raise e) l = Raise e.
Proof. by induction l. Qed.

Lemma sort_from_ok l a r :
  StronglySorted key_le a →
  foldl sort_step (Ok a) l = Ok r →
  r ≡ₚ a ++ l ∧ StronglySorted key_le r.
Proof.
  revert a. induction l as [|x l IH]; intros a Ha Hr; simpl in Hr.
  - simplify_eq. by rewrite app_nil_r.
  - destruct (sorted_insert x a) as [a'|e] eqn:Hins.
    + destruct (sorted_insert_ok _ _ _ Hins) as [Hperm Hsort].
      destruct (IH a' (Hsort Ha) Hr) as [Hr1 Hr2]. split; [|done].
      rewrite Hr1, Hperm. simpl. apply Permutation_middle.
    + by rewrite sort_from_raise in Hr.
Qed.

Lemma sort_from_error l a e :
  foldl sort_step (Ok a) l = Raise e → e = TypeError.
Proof.
  revert a. induction l as [|x l IH]; intros a Hr; simpl in Hr; [done|].
  destruct (sorted_insert x a) as [a'|e'] eqn:Hins.
  - by eapply IH.
  - rewrite sort_from_raise in Hr. simplify_eq. by eapply sorted_insert_raise.
Qed.

Lemma sort_from_total l a :
  None ∉ a → None ∉ l → ∃ r, foldl sort_step (Ok a) l = Ok r.
Proof.
  revert a. induction l as [|x l IH]; intros a Ha Hl; simpl; [by eexists|].
  destruct x as [s|]; [|set_solver].
  destruct (sorted_insert_total s a Ha) as [a' Ha'].
  rewrite Ha'. apply IH; [|set_solver].
  apply sorted_insert_ok in Ha' as [Hperm _]. rewrite Hperm. set_solver.
Qed.

(** A sorted list of two or more keys holds no [None]. *)
Lemma sorted_keys_no_None l :
  StronglySorted key_le l → (2 ≤ length l)%nat → None ∉ l.
Proof.
  destruct l as [|a [|b l]]; simpl; [lia | lia |]. intros Hs _.
  apply StronglySorted_inv in Hs as [_ Hall].
  intros Hin. apply elem_of_cons in Hin as [<-|Hin].
  - by apply Forall_inv in Hall.
  - rewrite Forall_forall in Hall. specialize (Hall None Hin). by destruct a.
Qed.

Lemma sorted_ok l r :
  sorted l = Ok r → r ≡ₚ l ∧ StronglySorted key_le r.
Proof. intros H. apply (sort_from_ok l [] r) in H; [done | constructor]. Qed.

Lemma sorted_error l e : sorted l = Raise e → e = TypeError.
Proof. apply sort_from_error. Qed.

Lemma sorted_total l :
  None ∉ l ∨ (length l ≤ 1)%nat → ∃ r, sorted l = Ok r.
Proof.
  intros [Hno|Hlen].
  - apply sort_from_total; [set_solver | done].
  - destruct l as [|x [|y l]]; simpl in Hlen; [by eexists | by eexists | lia].
Qed.

Lemma sorted_mixed l s :
  None ∈ l → Some s ∈ l → sorted l = Raise TypeError.
Proof.
  intros Hn Hs. destruct (sorted l) as [r|e] eqn:Hsort.
  - apply sorted_ok in Hsort as [Hperm Hsorted].
    destruct (sorted_keys_no_None r Hsorted).
    + rewrite Hperm. destruct l as [|a [|b l]]; simpl; [set_solver | | lia].
      apply list_elem_of_singleton in Hn, Hs. congruence.
    + by rewrite Hperm.
  - by apply sorted_error in Hsort as ->.
Qed.

(** ** The collapse pass *)

Lemma dict_pop_get {K V} `{EqDecision K} (d : dict K V) k v :
  dict_get d k = Some v →
  ∃ d', dict_pop d k = Ok (v, d') ∧ ∀ k', k' ≠ k → dict_get d' k' = dict_get d k'.
Proof.
  induction d as [|[k0 v0] d IH]; cbn [dict_get dict_pop]; [done|].
  destruct (decide (k0 = k)) as [->|Hne]; intros Hget.
  - simplify_eq. exists d. split; [done|]. intros k' Hk'.
    cbn [dict_get]. by rewrite decide_False.
  - destruct (IH Hget) as (d' & -> & Hd'). exists ((k0, v0) :: d').
    split; [done|]. intros k' Hk'. cbn [dict_get]. by rewrite Hd'.
Qed.

Lemma dict_get_set {K V} `{EqDecision K} (d : dict K V) k v k' :
  dict_get (dict_set d k v) k' = if decide (k = k') then Some v else dict_get d k'.
Proof. unfold dict_set. by rewrite dict_get_upd. Qed.

Lemma collapse_cells_spec cbs (counts : CountTable) acc :
  NoDup cbs →
  (∀ cb, cb ∈ cbs →
     ∃ m, dict_get counts cb = Some m ∧ Forall (λ uc, uc.2 ≠ []) m) →
  ∃ res, collapse_cells cbs counts acc = Ok res ∧
    (∀ cb, cb ∉ cbs → dict_get res cb = dict_get acc cb) ∧
    (∀ cb m, cb ∈ cbs → dict_get counts cb = Some m →
       ∃ cell, collapse_umis m [] = Ok cell ∧ dict_get res cb = Some cell).
Proof.
  intros Hnd. revert counts acc.
  induction Hnd as [|cb0 rest Hnotin Hnd IH]; intros counts acc Hget.
  - exists acc. split_and!; [done | done | set_solver].
  - destruct (Hget cb0) as (m0 & Hm0 & Hne); [set_solver|].
    destruct (dict_pop_get _ _ _ Hm0) as (counts' & Hpop & Hother).
    destruct (collapse_umis_spec m0 [] Hne) as (cell0 & Hcell0 & _).
    cbn [collapse_cells]. rewrite Hpop. simpl. rewrite Hcell0. simpl.
    destruct (IH counts' (dict_set acc cb0 cell0)) as (res & Hres & Hout & Hin).
    { intros cb Hcb. rewrite Hother by set_solver. apply Hget. set_solver. }
    exists res. split_and!; [done | |].
    + intros cb Hcb. rewrite Hout by set_solver.
      rewrite dict_get_set, decide_False; [done | set_solver].
    + intros cb m Hcb Hm. destruct (decide (cb = cb0)) as [->|Hne0].
      * simplify_eq. exists cell0. split; [done|].
        by rewrite Hout, dict_get_set, decide_True.
      * apply Hin; [set_solver|]. by rewrite Hother.
Qed.

(** The collapse of a well-formed table whose keys can be sorted. *)
Lemma collapse_wf (counts : CountTable) :
  wf_table counts →
  None ∉ dict_keys counts ∨ (length counts ≤ 1)%nat →
  ∃ out, collapse counts = Ok out ∧
    ∀ cb m, dict_get counts cb = Some m →
      ∃ cell, dict_get (counts_collapsed out) cb = Some cell ∧
        (∀ w, counter_get cell w = Z.of_nat (wins m w)) ∧
        counter_total cell = Z.of_nat (length m).
Proof.
  intros [Hnd Hall] Hkeys.
  destruct (sorted_total (dict_keys counts)) as [cbs Hcbs].
  { unfold dict_keys in *. by rewrite length_fmap. }
  destruct (sorted_ok _ _ Hcbs) as [Hperm _].
  assert (Hbuckets : ∀ cb m, dict_get counts cb = Some m →
            Forall (λ uc : Barcode * Counter, uc.2 ≠ []) m).
  { intros cb m Hm%dict_get_elem_of. rewrite Forall_forall in Hall.
    by destruct (Hall _ Hm) as [_ ?]. }
  destruct (collapse_cells_spec cbs counts []) as (res & Hres & _ & Hin).
  { by rewrite Hperm. }
  { intros cb Hcb. rewrite Hperm in Hcb.
    destruct (dict_get counts cb) as [m|] eqn:Hm.
    - exists m. split; [done|]. by eapply Hbuckets.
    - by apply dict_get_None in Hm. }
  unfold collapse. rewrite Hcbs. simpl. rewrite Hres. simpl.
  eexists. split; [done|]. simpl. intros cb m Hm.
  destruct (Hin cb m) as (cell & Hcell & Hget); [|done|].
  { rewrite Hperm. apply dec_stable. intros Hno. apply dict_get_None in Hno. congruence. }
  exists cell. split; [done|].
  destruct (collapse_umis_spec m [] (Hbuckets _ _ Hm)) as (cell' & Hcell' & Hw & Htot).
  rewrite Hcell in Hcell'. simplify_eq. split.
  - intros w. rewrite Hw. unfold counter_get. simpl. lia.
  - rewrite Htot. unfold counter_total. simpl. lia.
Qed.

(** The buckets of a finished loop are those of the barcodes of the record
    units that were not dropped. *)
Lemma count_log_nil ctr log : count_log ctr log = [] ↔ ctr = [] ∧ log = [].
Proof.
  unfold count_log. revert ctr. induction log as [|k log IH]; intros ctr; simpl.
  - naive_solver.
  - rewrite IH. split; [|naive_solver].
    intros [Hnil _]. by apply dict_upd_not_nil in Hnil.
Qed.

Lemma scan_buckets cfg features rs counts counts' cb ub :
  scan cfg features rs counts = Finished counts' →
  bucket counts' cb ub ≠ [] ↔
    bucket counts cb ub ≠ [] ∨
    ∃ r, r ∈ rs ∧ identify_barcodes cfg r = (cb, ub) ∧ dropped cfg r = false.
Proof.
  revert counts. induction rs as [|r rs IH]; intros counts Hscan; simpl in Hscan.
  - simplify_eq. split; [by left|]. intros [?|(r & Hr & _)]; [done|].
    by apply elem_of_nil in Hr.
  - unfold process_unit in Hscan.
    destruct (loop_body cfg features r).2 as [[]|] eqn:Hbody; [|done].
    rewrite (IH _ Hscan), bucket_apply_log.
    destruct (loop_body_log_length cfg features r Hbody) as [Hdrop Hkeep].
    destruct (identify_barcodes cfg r) as [cb0 ub0] eqn:Hb. simpl.
    destruct (decide ((cb0, ub0) = (cb, ub))) as [Heq|Hne].
    + rewrite count_log_nil. simplify_eq.
      destruct (dropped cfg r) eqn:Hd.
      * rewrite (Hdrop eq_refl). split.
        -- intros [Hn|(r' & Hr' & ?)]; [left; naive_solver|].
           right. exists r'. split; [by apply list_elem_of_further | done].
        -- intros [Hn|(r' & Hr' & Hb' & Hd')]; [left; naive_solver|].
           apply elem_of_cons in Hr' as [->|Hr']; [congruence|].
           right. by exists r'.
      * split; [|intros _; left; intros [_ Hnil]].
        -- intros _. right. exists r. split; [apply list_elem_of_here | done].
        -- destruct (Hkeep eq_refl) as [Hge _]. rewrite Hnil in Hge. simpl in Hge. lia.
    + split.
      * intros [Hn|(r' & Hr' & ?)]; [by left|].
        right. exists r'. split; [by apply list_elem_of_further | done].
      * intros [Hn|(r' & Hr' & Hb' & Hd')]; [by left|].
        apply elem_of_cons in Hr' as [->|Hr']; [congruence|].
        right. by exists r'.
Qed.

Lemma wf_bucket_keys (counts : CountTable) cb m ub :
  wf_table counts → dict_get counts cb = Some m →
  ub ∈ dict_keys m ↔ bucket counts cb ub ≠ [].
Proof.
  intros [_ Hall] Hm. unfold bucket. rewrite Hm. simpl.
  destruct (dict_get m ub) as [ctr|] eqn:Hub; simpl.
  - split.
    + intros _. rewrite Forall_forall in Hall.
      destruct (Hall _ (dict_get_elem_of _ _ _ Hm)) as [_ Hne].
      rewrite Forall_forall in Hne. apply (Hne _ (dict_get_elem_of _ _ _ Hub)).
    + intros _. apply dec_stable. intros Hno%dict_get_None. congruence.
  - apply dict_get_None in Hub. naive_solver.
Qed.

(** C2, as the code has it: the collapse of the table of a finished loop
    whose cell keys can be sorted (the key [None] of the records without
    cell tag is not there, or it is the only cell key) returns a result in
    which, for every cell, each category has
    one count per UMI bucket it wins, the winner of a bucket being the
    first category in insertion order that has the highest count; so the
    counts of a cell sum to the number of its UMI buckets, which are the
    distinct UMIs of the record units of that cell that were not dropped by
    the secondary/supplementary filters. *)
Theorem collapse_majority cfg features rs counts :
  scan cfg features rs [] = Finished counts →
  None ∉ dict_keys counts ∨ (length counts ≤ 1)%nat →
  ∃ out, collapse counts = Ok out ∧
    ∀ cb m, dict_get counts cb = Some m →
      NoDup (dict_keys m) ∧
      (∀ ub udic, (ub, udic) ∈ m →
         ∃ w n, most_common_1 udic = [(w, n)] ∧ first_max udic w n) ∧
      (∀ ub, ub ∈ dict_keys m ↔
         ∃ r, r ∈ rs ∧ identify_barcodes cfg r = (cb, ub) ∧ dropped cfg r = false) ∧
      ∃ cell, dict_get (counts_collapsed out) cb = Some cell ∧
        (∀ w, counter_get cell w = Z.of_nat (wins m w)) ∧
        counter_total cell = Z.of_nat (length (dict_keys m)).
Proof.
  intros Hscan Hkeys.
  pose proof (scan_wf _ _ _ _ _ wf_table_nil Hscan) as Hwf.
  destruct (collapse_wf counts Hwf Hkeys) as (out & Hout & Hcells).
  exists out. split; [done|]. intros cb m Hm.
  pose proof Hwf as [_ Hall]. rewrite Forall_forall in Hall.
  destruct (Hall _ (dict_get_elem_of _ _ _ Hm)) as [Hnd Hne]. simpl in *.
  split_and!; [done | | |].
  - intros ub udic Hin. rewrite Forall_forall in Hne.
    apply most_common_1_first_max. by apply (Hne _ Hin).
  - intros ub. rewrite (wf_bucket_keys counts cb m ub Hwf Hm).
    rewrite (scan_buckets _ _ _ _ _ cb ub Hscan). naive_solver.
  - destruct (Hcells cb m Hm) as (cell & Hcell & Hw & Htot).
    exists cell. unfold dict_keys. by rewrite length_fmap.
Qed.

Lemma collapse_majority_witness :
  ∃ out, collapse Ex.tie_counts = Ok out ∧
    ∀ cb m, dict_get Ex.tie_counts cb = Some m →
      NoDup (dict_keys m) ∧
      (∀ ub udic, (ub, udic) ∈ m →
         ∃ w n, most_common_1 udic = [(w, n)] ∧ first_max udic w n) ∧
      (∀ ub, ub ∈ dict_keys m ↔
         ∃ r, r ∈ Ex.tie ∧ identify_barcodes (Ex.cfg "union" "none") r = (cb, ub) ∧
              dropped (Ex.cfg "union" "none") r = false) ∧
      ∃ cell, dict_get (counts_collapsed out) cb = Some cell ∧
        (∀ w, counter_get cell w = Z.of_nat (wins m w)) ∧
        counter_total cell = Z.of_nat (length (dict_keys m)).
Proof.
  apply (collapse_majority (Ex.cfg "union" "none") Ex.features Ex.tie).
  - vm_compute. reflexivity.
  - right. simpl. lia.
Defined.

(** C2, counterexample to the claim as worded: the loop ends normally on a
    record that is not aligned and carries no tag followed by a tagged
    record on GeneA, and its table has the bucket of (X, U) with GeneA on
    top; but the cell keys [None] and X cannot be sorted, so the collapse
    raises [TypeError] and returns no collapsed table: nothing is emitted
    for that bucket, nor for any other. *)
Lemma collapse_untagged_record_no_table :
  let cfg := Ex.cfg "union" "none" in
  scan cfg Ex.features Ex.mixed [] = Finished Ex.mixed_counts ∧
  bucket Ex.mixed_counts (Some "X") (Some "U") = [("GeneA", 1)] ∧
  most_common_1 (bucket Ex.mixed_counts (Some "X") (Some "U")) = [("GeneA", 1)] ∧
  collapse Ex.mixed_counts = Raise TypeError ∧
  (∀ out, collapse Ex.mixed_counts ≠ Ok out) ∧
  ¬ (None ∉ dict_keys Ex.mixed_counts ∨ (length Ex.mixed_counts ≤ 1)%nat).
Proof.
  split_and!; try (vm_compute; reflexivity).
  - intros out. vm_compute. discriminate.
  - intros [Hno|Hlen].
    + apply Hno. apply list_elem_of_here.
    + simpl in Hlen. lia.
Qed.

(** Two records of one molecule that resolve to GeneA and then to GeneB
    collapse to GeneA, the category inserted first. *)
Example collapse_tie_first_inserted :
  count_reads_with_barcodes (Ex.cfg "union" "none") Ex.features
    (SingleEnd [Ex.read "chr1" 0 10 30 Ex.XU None; Ex.read "chr1" 300 310 30 Ex.XU None])
  = Ok {| cell_barcodes := [Some "X"];
          counts_collapsed := [(Some "X", [("GeneA", 1)])] |}.
Proof. vm_compute. reflexivity. Qed.

(** C10: the collapse pass sorts the cell keys of the table of a finished
    loop.  If the table has the key [None] and a string key, the sort, and
    so the pass, fails with [TypeError] and nothing is returned; when the
    sort succeeds, the pass returns, and its [cell_barcodes] are the sorted
    list: the cell keys of the table in ascending order. *)
Theorem collapse_sorts_cell_keys cfg features rs counts :
  scan cfg features rs [] = Finished counts →
  (∀ s, None ∈ dict_keys counts → Some s ∈ dict_keys counts →
        collapse counts = Raise TypeError) ∧
  (∀ cbs, sorted (dict_keys counts) = Ok cbs →
          ∃ out, collapse counts = Ok out ∧ cell_barcodes out = cbs ∧
                 cbs ≡ₚ dict_keys counts ∧ StronglySorted key_le cbs).
Proof.
  intros Hscan. split.
  - intros s Hn Hs. unfold collapse. by rewrite (sorted_mixed _ s Hn Hs).
  - intros cbs Hcbs.
    pose proof (scan_wf _ _ _ _ _ wf_table_nil Hscan) as Hwf.
    destruct (sorted_ok _ _ Hcbs) as [Hperm Hsorted].
    destruct (collapse_wf counts Hwf) as (out & Hout & _).
    { destruct (decide (length counts ≤ 1)%nat) as [Hlen|Hlen]; [by right|].
      left. rewrite <- Hperm. apply sorted_keys_no_None; [done|].
      rewrite Hperm. unfold dict_keys. rewrite length_fmap. lia. }
    exists out. split; [done|]. split; [|done].
    unfold collapse in Hout. rewrite Hcbs in Hout. simpl in Hout.
    destruct (collapse_cells cbs counts []); simpl in Hout; by simplify_eq.
Qed.

Lemma collapse_sorts_cell_keys_witness :
  collapse Ex.mixed_counts = Raise TypeError.
Proof.
  refine (proj1 (collapse_sorts_cell_keys (Ex.cfg "union" "none") Ex.features
                   Ex.mixed Ex.mixed_counts _) "X" _ _).
  - vm_compute. reflexivity.
  - apply list_elem_of_here.
  - apply list_elem_of_further, list_elem_of_here.
Defined.

(** The table with the mixed keys is the one of an input made of a record
    that is not aligned and carries no tag and of a tagged record on GeneA;
    the whole function raises [TypeError] on it. *)
Example mixed_keys_from_input :
  scan (Ex.cfg "union" "none") Ex.features Ex.mixed [] = Finished Ex.mixed_counts ∧
  count_reads_with_barcodes (Ex.cfg "union" "none") Ex.features
    (SingleEnd [Ex.unaligned []; Ex.read "chr1" 0 10 30 Ex.XU None])
  = Raise TypeError.
Proof. split; vm_compute; reflexivity. Qed.

(** * Further properties *)

(** ** [invert_strand] *)

(** X1: on an interval of strand "+" or "-", [invert_strand] returns the
    interval with the other strand and the same chromosome and coordinates,
    and inverting twice gives the interval back. *)
Theorem invert_strand_involutive (iv : GenomicInterval) :
  strand iv = "+" ∨ strand iv = "-" →
  ∃ iv', invert_strand iv = Ok iv' ∧
    chrom iv' = chrom iv ∧ start iv' = start iv ∧ end_ iv' = end_ iv ∧
    strand iv' ≠ strand iv ∧ (strand iv' = "+" ∨ strand iv' = "-") ∧
    invert_strand iv' = Ok iv.
Proof.
  destruct iv as [c s e st]. unfold invert_strand. simpl.
  intros [->| ->]; simpl; eexists; split_and!; try reflexivity; try done; auto.
Qed.

Lemma invert_strand_involutive_witness :
  ∃ iv', invert_strand (Ex.iv "chr1" 0 10) = Ok iv' ∧
    chrom iv' = "chr1" ∧ start iv' = 0 ∧ end_ iv' = 10 ∧
    strand iv' ≠ "+" ∧ (strand iv' = "+" ∨ strand iv' = "-") ∧
    invert_strand iv' = Ok (Ex.iv "chr1" 0 10).
Proof. apply (invert_strand_involutive (Ex.iv "chr1" 0 10)). left. reflexivity. Defined.

(** X2: [invert_strand] raises [ValueError] "Illegal strand" exactly on the
    intervals whose strand is neither "+" nor "-" (such as the unstranded
    "."), and raises nothing else. *)
Theorem invert_strand_illegal (iv : GenomicInterval) :
  (invert_strand iv = Raise (ValueError "Illegal strand") ↔
   strand iv ≠ "+" ∧ strand iv ≠ "-") ∧
  (∀ e, invert_strand iv = Raise e → e = ValueError "Illegal strand").
Proof.
  unfold invert_strand. repeat case_bool_decide; split; try split;
    intros; simplify_eq; naive_solver.
Qed.

(** ** [identify_barcodes] on the fields of the unit *)

Lemma scan_fields_app cfg l1 l2 cb ub n :
  scan_fields cfg (l1 ++ l2) cb ub n =
    match scan_fields cfg l1 cb ub n with
    | inl b => inl b
    | inr (cb', ub', n') => scan_fields cfg l2 cb' ub' n'
    end.
Proof.
  revert cb ub n. induction l1 as [|[tag val] l1 IH]; intros cb ub n; [done|].
  cbn [app scan_fields]. repeat case_bool_decide; try done; apply IH.
Qed.

(** The loop over the mates is the loop over their fields put end to end. *)
Lemma scan_reads_fields cfg reads cb ub n :
  scan_reads cfg reads cb ub n
  = barcodes_of (scan_fields cfg (fields_of reads) cb ub n).
Proof.
  unfold fields_of. revert cb ub n.
  induction reads as [|[read|] reads IH]; intros cb ub n; [done| |].
  - cbn [scan_reads mbind list_bind]. rewrite scan_fields_app.
    destruct (scan_fields cfg (optional_fields read) cb ub n) as [b|[[cb' ub'] n']];
      [done | apply IH].
  - cbn [scan_reads mbind list_bind]. apply IH.
Qed.

Lemma tag_count_cons tag p fields :
  tag_count tag (p :: fields)
  = ((if decide (p.1 = tag) then 1 else 0) + tag_count tag fields)%nat.
Proof. unfold tag_count. rewrite filter_cons. by case_decide. Qed.

Lemma scan_fields_unique cfg fields cb ub n :
  cb_tag cfg ≠ ub_tag cfg →
  (is_Some cb → tag_count (cb_tag cfg) fields = 0%nat) →
  (is_Some ub → tag_count (ub_tag cfg) fields = 0%nat) →
  (tag_count (cb_tag cfg) fields ≤ 1)%nat →
  (tag_count (ub_tag cfg) fields ≤ 1)%nat →
  n = ((if cb is Some _ then 1 else 0) + (if ub is Some _ then 1 else 0))%nat →
  barcodes_of (scan_fields cfg fields cb ub n)
  = (match cb with Some _ => cb | None => dict_get fields (cb_tag cfg) end,
     match ub with Some _ => ub | None => dict_get fields (ub_tag cfg) end).
Proof.
  intros Hne. revert cb ub n.
  induction fields as [|[tag val] fields IH]; intros cb ub n Hcb Hub Hc1 Hu1 Hn.
  - simpl. by destruct cb, ub.
  - rewrite !tag_count_cons in *. simpl in *. cbn [scan_fields dict_get].
    destruct (decide (tag = cb_tag cfg)) as [->|Hc].
    + rewrite bool_decide_eq_true_2 by done.
      rewrite (decide_False (P := cb_tag cfg = ub_tag cfg)) in * by done.
      destruct cb as [c|]; [specialize (Hcb (mk_is_Some _ _ eq_refl)); lia|].
      destruct ub as [u|]; subst n; simpl.
      * done.
      * rewrite IH; try done; try lia; intros; lia.
    + rewrite (bool_decide_eq_false_2 _ Hc).
      destruct (decide (tag = ub_tag cfg)) as [->|Hu].
      * rewrite bool_decide_eq_true_2 by done.
        destruct ub as [u|]; [specialize (Hub (mk_is_Some _ _ eq_refl)); lia|].
        destruct cb as [c|]; subst n; simpl.
        -- done.
        -- rewrite IH; try done; try lia; intros; lia.
      * rewrite (bool_decide_eq_false_2 _ Hu). by apply IH.
Qed.

(** X3: when the cell tag and the UMI tag differ and each occurs at most
    once among the optional fields of the present mates, [identify_barcodes]
    returns the value of the cell tag and the value of the UMI tag, [None]
    standing for a tag that does not occur. *)
Theorem identify_barcodes_unique_tags cfg r :
  cb_tag cfg ≠ ub_tag cfg →
  (tag_count (cb_tag cfg) (unit_fields r) ≤ 1)%nat →
  (tag_count (ub_tag cfg) (unit_fields r) ≤ 1)%nat →
  identify_barcodes cfg r
  = (dict_get (unit_fields r) (cb_tag cfg), dict_get (unit_fields r) (ub_tag cfg)).
Proof.
  intros Hne Hc Hu. unfold identify_barcodes, unit_fields in *.
  rewrite scan_reads_fields.
  by rewrite (scan_fields_unique cfg _ None None 0%nat Hne)
    by (done || by intros [??]).
Qed.

Lemma identify_barcodes_unique_tags_witness :
  identify_barcodes (Ex.cfg "union" "none")
    (PE (Some (Ex.read "chr1" 0 10 30 [("UB", "U")] None))
        (Some (Ex.read "chr1" 50 60 30 [("XS", "+"); ("CB", "X")] None)))
  = (Some "X", Some "U").
Proof.
  apply (identify_barcodes_unique_tags (Ex.cfg "union" "none")
           (PE (Some (Ex.read "chr1" 0 10 30 [("UB", "U")] None))
               (Some (Ex.read "chr1" 50 60 30 [("XS", "+"); ("CB", "X")] None)))).
  - simpl. discriminate.
  - vm_compute. lia.
  - vm_compute. lia.
Defined.

Lemma scan_fields_sound cfg fields seen cb ub n :
  (∀ v, cb = Some v → (cb_tag cfg, v) ∈ seen) →
  (∀ v, ub = Some v → (ub_tag cfg, v) ∈ seen ∧ cb_tag cfg ≠ ub_tag cfg) →
  (∀ v, (barcodes_of (scan_fields cfg fields cb ub n)).1 = Some v →
        (cb_tag cfg, v) ∈ seen ++ fields) ∧
  (∀ v, (barcodes_of (scan_fields cfg fields cb ub n)).2 = Some v →
        (ub_tag cfg, v) ∈ seen ++ fields ∧ cb_tag cfg ≠ ub_tag cfg).
Proof.
  revert seen cb ub n.
  induction fields as [|[tag val] fields IH]; intros seen cb ub n Hcb Hub.
  - simpl. rewrite app_nil_r. done.
  - assert (Hmid : seen ++ (tag, val) :: fields = (seen ++ [(tag, val)]) ++ fields)
      by by rewrite <- app_assoc.
    rewrite Hmid. cbn [scan_fields].
    destruct (decide (tag = cb_tag cfg)) as [->|Hc].
    + rewrite bool_decide_eq_true_2 by done. case_bool_decide.
      * simpl. split; intros v Hv; simplify_eq.
        -- set_solver.
        -- destruct (Hub v eq_refl). set_solver.
      * apply IH.
        -- intros v Hv. simplify_eq. set_solver.
        -- intros v Hv. destruct (Hub v Hv). set_solver.
    + rewrite (bool_decide_eq_false_2 _ Hc).
      destruct (decide (tag = ub_tag cfg)) as [->|Hu].
      * rewrite bool_decide_eq_true_2 by done. case_bool_decide.
        -- simpl. split; intros v Hv; simplify_eq.
           ++ specialize (Hcb v eq_refl). set_solver.
           ++ split; [set_solver | done].
        -- apply IH.
           ++ intros v Hv. specialize (Hcb v Hv). set_solver.
           ++ intros v Hv. simplify_eq. split; [set_solver | done].
      * rewrite (bool_decide_eq_false_2 _ Hu). apply IH.
        -- intros v Hv. specialize (Hcb v Hv). set_solver.
        -- intros v Hv. destruct (Hub v Hv). set_solver.
Qed.

(** X4: whatever the fields, a barcode component that [identify_barcodes]
    returns is the value of a field of a present mate with the configured
    tag; a unit without the cell tag gets the cell [None], a unit without
    the UMI tag gets the umi [None], and when both options name the same
    tag the umi is always [None]. *)
Theorem identify_barcodes_sound cfg r :
  let b := identify_barcodes cfg r in
  (∀ v, b.1 = Some v → (cb_tag cfg, v) ∈ unit_fields r) ∧
  (∀ v, b.2 = Some v → (ub_tag cfg, v) ∈ unit_fields r) ∧
  (tag_count (cb_tag cfg) (unit_fields r) = 0%nat → b.1 = None) ∧
  (tag_count (ub_tag cfg) (unit_fields r) = 0%nat → b.2 = None) ∧
  (cb_tag cfg = ub_tag cfg → b.2 = None).
Proof.
  intros b. subst b. unfold identify_barcodes, unit_fields.
  rewrite scan_reads_fields.
  destruct (scan_fields_sound cfg (fields_of (mates r)) [] None None 0%nat)
    as [Hcb Hub]; [done | done |]. simpl in Hcb, Hub.
  set (b := barcodes_of (scan_fields cfg (fields_of (mates r)) None None 0%nat)) in *.
  assert (Hzero : ∀ tag v, (tag, v) ∈ fields_of (mates r) →
            tag_count tag (fields_of (mates r)) ≠ 0%nat).
  { intros tag v Hin Hz. unfold tag_count in Hz.
    apply length_zero_iff_nil in Hz.
    assert ((tag, v) ∈ filter (λ p, p.1 = tag) (fields_of (mates r))) as Hf
      by (by apply list_elem_of_filter).
    rewrite Hz in Hf. by apply elem_of_nil in Hf. }
  split_and!.
  - done.
  - intros v Hv. by destruct (Hub v Hv).
  - intros Hz. destruct b.1 as [v|] eqn:Hb; [|done].
    by destruct (Hzero _ _ (Hcb v eq_refl)).
  - intros Hz. destruct b.2 as [v|] eqn:Hb; [|done].
    destruct (Hub v eq_refl) as [Hin _]. by destruct (Hzero _ _ Hin).
  - intros Heq. destruct b.2 as [v|] eqn:Hb; [|done].
    by destruct (Hub v eq_refl) as [_ ?].
Qed.

(** ** The classifier on pairs *)

Lemma pe_passes_filters_bool cfg r0 r1 :
  pe_passes_filters cfg r0 r1 →
  is_ignore (secondary_alignment_mode cfg) &&
    (present not_primary_alignment r0 || present not_primary_alignment r1) = false ∧
  is_ignore (supplementary_alignment_mode cfg) &&
    (present supplementary r0 || present supplementary r1) = false.
Proof.
  unfold pe_passes_filters, is_ignore. intros (_ & Hsec & Hsup).
  split; apply andb_false_iff.
  - destruct (present not_primary_alignment r0 || present not_primary_alignment r1) eqn:Hor;
      [left | by right].
    apply bool_decide_eq_false. intros ?. apply Hsec. split; [done|].
    by apply orb_true_iff.
  - destruct (present supplementary r0 || present supplementary r1) eqn:Hor;
      [left | by right].
    apply bool_decide_eq_false. intros ?. apply Hsup. split; [done|].
    by apply orb_true_iff.
Qed.

(** A pair with an aligned mate goes through the checks. *)
Lemma classify_pe_some_aligned cfg r0 r1 :
  present aligned r0 = true ∨ present aligned r1 = true →
  ∃ ivs, classify_pe cfg r0 r1 = classify_pe_checks cfg r0 r1 ivs.
Proof.
  intros Hal. unfold classify_pe.
  destruct r1 as [b|]; simpl in *.
  - destruct (aligned b); [by eexists|].
    destruct Hal as [->|?]; [by eexists | done].
  - destruct Hal as [->|?]; [by eexists | done].
Qed.

(** What the checks count once the pair is past the filters. *)
Lemma classify_pe_checks_past_filters cfg r0 r1 ivs :
  pe_passes_filters cfg r0 r1 →
  classify_pe_checks cfg r0 r1 ivs =
    (skip ← match pe_not_unique r0 r1 with
            | Ok true => count_not_unique cfg
            | _ => mret false
            end;
     if (skip : bool) then mret Stop
     else if present (λ a, bool_decide (aQual a < minaqual cfg)) r0 ||
             present (λ a, bool_decide (aQual a < minaqual cfg)) r1 then
       record "__too_low_aQual";; mret Stop
     else mret (Resolve ivs)).
Proof.
  intros [Hsec Hsup]%pe_passes_filters_bool.
  unfold classify_pe_checks. rewrite Hsec, Hsup.
  destruct (pe_not_unique r0 r1) as [[]|e] eqn:Hnu; try done.
  by apply pe_not_unique_raises in Hnu as ->.
Qed.

Lemma pe_low_quality_bool cfg r0 r1 :
  pe_low_quality cfg r0 r1 ↔
  present (λ a, bool_decide (aQual a < minaqual cfg)) r0 ||
  present (λ a, bool_decide (aQual a < minaqual cfg)) r1 = true.
Proof. unfold pe_low_quality. by rewrite orb_true_iff. Qed.

(** X5: the paired-end classifier tests, in this order: no aligned mate
    (counted as [__not_aligned], stop), a present secondary mate with mode
    ignore (dropped), a present supplementary mate with mode ignore
    (dropped), the multimapping test (counted as [__alignment_not_unique];
    stop exactly when multimapped_mode is "none"), a present mate of
    quality below the threshold, aligned or not (counted as
    [__too_low_aQual], stop); a pair that passes them all reaches the
    overlap resolution. *)
Theorem classify_pe_order cfg r0 r1 :
  (present aligned r0 = false → present aligned r1 = false →
   classify_pe cfg r0 r1 = (["__not_aligned"], Ok Stop)) ∧
  (present aligned r0 = true ∨ present aligned r1 = true →
   secondary_alignment_mode cfg = "ignore" →
   present not_primary_alignment r0 = true ∨ present not_primary_alignment r1 = true →
   classify_pe cfg r0 r1 = ([], Ok Drop)) ∧
  (present aligned r0 = true ∨ present aligned r1 = true →
   supplementary_alignment_mode cfg = "ignore" →
   present supplementary r0 = true ∨ present supplementary r1 = true →
   classify_pe cfg r0 r1 = ([], Ok Drop)) ∧
  (pe_passes_filters cfg r0 r1 → pe_not_unique r0 r1 = Ok true →
   multimapped_mode cfg = "none" →
   classify_pe cfg r0 r1 = (["__alignment_not_unique"], Ok Stop)) ∧
  (pe_passes_filters cfg r0 r1 → pe_not_unique r0 r1 = Ok true →
   multimapped_mode cfg ≠ "none" → pe_low_quality cfg r0 r1 →
   classify_pe cfg r0 r1
   = (["__alignment_not_unique"; "__too_low_aQual"], Ok Stop)) ∧
  (pe_passes_filters cfg r0 r1 → pe_not_unique r0 r1 = Ok true →
   multimapped_mode cfg ≠ "none" → ¬ pe_low_quality cfg r0 r1 →
   (classify_pe cfg r0 r1).1 = ["__alignment_not_unique"] ∧
   reaches_resolution (classify_pe cfg r0 r1)) ∧
  (pe_passes_filters cfg r0 r1 → pe_not_unique r0 r1 ≠ Ok true →
   pe_low_quality cfg r0 r1 →
   classify_pe cfg r0 r1 = (["__too_low_aQual"], Ok Stop)) ∧
  (pe_passes_filters cfg r0 r1 → pe_not_unique r0 r1 ≠ Ok true →
   ¬ pe_low_quality cfg r0 r1 →
   (classify_pe cfg r0 r1).1 = [] ∧ reaches_resolution (classify_pe cfg r0 r1)).
Proof.
  assert (Hnot : pe_not_unique r0 r1 ≠ Ok true →
    match pe_not_unique r0 r1 with
    | Ok true => count_not_unique cfg
    | _ => mret false
    end = mret false).
  { intros Hne. by destruct (pe_not_unique r0 r1) as [[]|]. }
  split_and!.
  - intros H0 H1. unfold classify_pe. destruct r1 as [b|]; simpl in *.
    + by rewrite H1, H0.
    + by rewrite H0.
  - intros Hal Hs Hn. destruct (classify_pe_some_aligned cfg r0 r1 Hal) as [ivs ->].
    unfold classify_pe_checks, is_ignore. rewrite (bool_decide_eq_true_2 _ Hs).
    by apply orb_true_iff in Hn as ->.
  - intros Hal Hs Hn. destruct (classify_pe_some_aligned cfg r0 r1 Hal) as [ivs ->].
    unfold classify_pe_checks, is_ignore. rewrite (bool_decide_eq_true_2 _ Hs).
    apply orb_true_iff in Hn as ->. simpl. by destruct (_ && _).
  - intros Hp Hnu Hm. destruct (classify_pe_some_aligned cfg r0 r1 (proj1 Hp)) as [ivs ->].
    rewrite classify_pe_checks_past_filters, Hnu by done. tr_unfold.
    by rewrite (bool_decide_eq_true_2 _ Hm).
  - intros Hp Hnu Hm Hq%pe_low_quality_bool.
    destruct (classify_pe_some_aligned cfg r0 r1 (proj1 Hp)) as [ivs ->].
    rewrite classify_pe_checks_past_filters, Hnu by done. tr_unfold.
    by rewrite (bool_decide_eq_false_2 _ Hm), Hq.
  - intros Hp Hnu Hm Hq.
    destruct (classify_pe_some_aligned cfg r0 r1 (proj1 Hp)) as [ivs ->].
    rewrite classify_pe_checks_past_filters, Hnu by done. tr_unfold.
    rewrite (bool_decide_eq_false_2 _ Hm).
    destruct (_ || _) eqn:Hor; [by apply pe_low_quality_bool in Hor|].
    split; [done | by eexists].
  - intros Hp Hnu Hq%pe_low_quality_bool.
    destruct (classify_pe_some_aligned cfg r0 r1 (proj1 Hp)) as [ivs ->].
    rewrite classify_pe_checks_past_filters, Hnot by done. tr_unfold.
    by rewrite Hq.
  - intros Hp Hnu Hq.
    destruct (classify_pe_some_aligned cfg r0 r1 (proj1 Hp)) as [ivs ->].
    rewrite classify_pe_checks_past_filters, Hnot by done. tr_unfold.
    destruct (_ || _) eqn:Hor; [by apply pe_low_quality_bool in Hor|].
    split; [done | by eexists].
Qed.

Lemma classify_pe_order_witness :
  classify_pe (Ex.cfg "union" "all")
    (Some (Ex.read "chr1" 0 10 30 Ex.XU (Some 2))) (Some (Ex.unaligned Ex.XU))
  = (["__alignment_not_unique"; "__too_low_aQual"], Ok Stop).
Proof.
  refine (proj1 (proj2 (proj2 (proj2 (proj2
           (classify_pe_order (Ex.cfg "union" "all")
              (Some (Ex.read "chr1" 0 10 30 Ex.XU (Some 2)))
              (Some (Ex.unaligned Ex.XU))))))) _ _ _ _).
  - split; [by left|]. split; intros [_ [?|?]]; discriminate.
  - reflexivity.
  - simpl. discriminate.
  - right. reflexivity.
Defined.

Lemma NH_gt1_have_NH (m : option SAM_Alignment) :
  (∀ a, m = Some a → is_Some (NH a)) →
  ∃ b : bool, NH_gt1 m = Ok b ∧ (b = true ↔ reports_multimapped m).
Proof.
  intros Hnh. destruct m as [a|]; simpl.
  - destruct (Hnh a eq_refl) as [n Hn]. unfold optional_field_NH. rewrite Hn. simpl.
    exists (bool_decide (1 < n)). split; [done|].
    rewrite bool_decide_eq_true. unfold reports_multimapped, multimapped.
    split.
    + intros Hlt. exists a. split; [done|]. by exists n.
    + intros (a' & Ha' & n' & Hn' & Hlt). by simplify_eq.
  - exists false. split; [done|]. split; [done|]. by intros (a & ? & _).
Qed.

(** X6: when every present mate of a pair carries an NH tag, a pair that is
    past the filters is counted as [__alignment_not_unique] exactly when one
    of its present mates reports NH > 1. *)
Theorem pe_not_unique_with_NH cfg r0 r1 :
  pe_passes_filters cfg r0 r1 →
  mates_have_NH r0 r1 →
  "__alignment_not_unique" ∈ (classify_pe cfg r0 r1).1 ↔
  reports_multimapped r0 ∨ reports_multimapped r1.
Proof.
  intros Hp Hnh.
  destruct (NH_gt1_have_NH r0) as (b0 & Hb0 & Hr0); [intros; apply Hnh; by left|].
  destruct (NH_gt1_have_NH r1) as (b1 & Hb1 & Hr1); [intros; apply Hnh; by right|].
  assert (Hnu : pe_not_unique r0 r1 = Ok (b0 || b1)).
  { unfold pe_not_unique. rewrite Hb0. simpl. destruct b0; [done|]. by rewrite Hb1. }
  rewrite <- Hr0, <- Hr1, <- orb_true_iff.
  destruct (classify_pe_some_aligned cfg r0 r1 (proj1 Hp)) as [ivs ->].
  rewrite classify_pe_checks_past_filters, Hnu by done. tr_unfold.
  destruct (b0 || b1); simpl.
  - split; [done|]. intros _.
    repeat case_bool_decide; repeat case_match; simpl; set_solver.
  - split; [|done]. case_match; simpl; set_solver.
Qed.

Lemma pe_not_unique_with_NH_witness :
  "__alignment_not_unique" ∈
    (classify_pe (Ex.cfg "union" "none")
       (Some (Ex.read "chr1" 0 10 30 Ex.XU (Some 1)))
       (Some (Ex.read "chr1" 50 60 30 Ex.XU (Some 2)))).1 ↔
  reports_multimapped (Some (Ex.read "chr1" 0 10 30 Ex.XU (Some 1))) ∨
  reports_multimapped (Some (Ex.read "chr1" 50 60 30 Ex.XU (Some 2))).
Proof.
  apply (pe_not_unique_with_NH (Ex.cfg "union" "none")).
  - split; [by left|]. split; intros [_ [?|?]]; discriminate.
  - intros a [Ha|Ha]; injection Ha as <-; by eexists.
Defined.

(** ** What the overlap modes compute *)

Section Modes_compute.
Context (cfg : Config) (features : FeatureIndex).

Lemma step_sets_cons iv ivs :
  step_sets features (iv :: ivs) = (steps features iv).*2 ++ step_sets features ivs.
Proof. unfold step_sets. cbn [mbind list_bind]. by rewrite fmap_app. Qed.

Lemma union_steps_sets fs sts :
  union_steps fs sts = foldl (∪) fs (sts.*2).
Proof. unfold union_steps. revert fs. induction sts as [|st sts IH]; intros fs; [done|]. apply IH. Qed.

Lemma intersect_steps_sets fs sts :
  intersect_steps cfg fs sts = foldl (intersect_step cfg) fs (sts.*2).
Proof. unfold intersect_steps. revert fs. induction sts as [|st sts IH]; intros fs; [done|]. apply IH. Qed.

Lemma union_loop_known fs ivs :
  Forall (λ iv, chrom iv ∈ chrom_vectors features) ivs →
  union_loop features fs (Ok <$> ivs) = Ok (foldl (∪) fs (step_sets features ivs)).
Proof.
  intros Hknown. revert fs. induction Hknown as [|iv ivs Hiv _ IH]; intros fs; [done|].
  cbn [fmap list_fmap union_loop]. rewrite (bool_decide_eq_true_2 _ Hiv).
  by rewrite IH, step_sets_cons, foldl_app, union_steps_sets.
Qed.

Lemma intersect_loop_known fs ivs :
  Forall (λ iv, chrom iv ∈ chrom_vectors features) ivs →
  intersect_loop cfg features fs (Ok <$> ivs)
  = Ok (foldl (intersect_step cfg) fs (step_sets features ivs)).
Proof.
  intros Hknown. revert fs. induction Hknown as [|iv ivs Hiv _ IH]; intros fs; [done|].
  cbn [fmap list_fmap intersect_loop]. rewrite (bool_decide_eq_true_2 _ Hiv).
  by rewrite IH, step_sets_cons, foldl_app, intersect_steps_sets.
Qed.

Lemma elem_of_foldl_union (fs : FeatureSet) (l : list FeatureSet) f :
  f ∈ foldl (∪) fs l ↔ f ∈ fs ∨ ∃ t, t ∈ l ∧ f ∈ t.
Proof.
  revert fs. induction l as [|t l IH]; intros fs; simpl.
  - split; [by left|]. intros [?|(t & Ht & _)]; [done|]. by apply elem_of_nil in Ht.
  - rewrite IH, elem_of_union. split.
    + intros [[?|?]|(t' & Ht' & ?)]; [by left | right; exists t | right; exists t'];
        split; try done; [apply list_elem_of_here | by apply list_elem_of_further].
    + intros [?|(t' & Ht' & ?)]; [by left; left|].
      apply elem_of_cons in Ht' as [->|Ht']; [by left; right|].
      right. by exists t'.
Qed.

Lemma takes_part_bool t :
  bool_decide (0 < size t)%nat ||
  bool_decide (overlap_mode cfg = "intersection-strict") = true ↔ takes_part cfg t.
Proof. unfold takes_part. by rewrite orb_true_iff, !bool_decide_eq_true. Qed.

Lemma intersect_fold_Some (a : FeatureSet) (l : list FeatureSet) :
  ∃ s, foldl (intersect_step cfg) (Some a) l = Some s ∧
    ∀ f, f ∈ s ↔ f ∈ a ∧ Forall (λ t, takes_part cfg t → f ∈ t) l.
Proof.
  revert a. induction l as [|t l IH]; intros a; simpl.
  - exists a. split; [done|]. intros f. split; [by split | by intros [? _]].
  - unfold intersect_step at 2.
    destruct (bool_decide _ || bool_decide _) eqn:Hp.
    + apply takes_part_bool in Hp.
      destruct (IH (a ∩ t)) as (s & -> & Hs). exists s. split; [done|].
      intros f. rewrite Hs, elem_of_intersection, Forall_cons. tauto.
    + destruct (IH a) as (s & -> & Hs). exists s. split; [done|].
      intros f. rewrite Hs, Forall_cons.
      assert (¬ takes_part cfg t) by (rewrite <- takes_part_bool; congruence).
      tauto.
Qed.

Lemma intersect_fold_None (l : list FeatureSet) :
  match foldl (intersect_step cfg) None l with
  | None => Forall (λ t, ¬ takes_part cfg t) l
  | Some s =>
      Exists (takes_part cfg) l ∧
      ∀ f, f ∈ s ↔ Forall (λ t, takes_part cfg t → f ∈ t) l
  end.
Proof.
  induction l as [|t l IH]; simpl; [constructor|].
  unfold intersect_step at 2.
  destruct (bool_decide _ || bool_decide _) eqn:Hp.
  - apply takes_part_bool in Hp.
    destruct (intersect_fold_Some t l) as (s & -> & Hs).
    split; [by left|]. intros f. rewrite Hs, Forall_cons. tauto.
  - assert (¬ takes_part cfg t) by (rewrite <- takes_part_bool; congruence).
    destruct (foldl (intersect_step cfg) None l) as [s|].
    + destruct IH as [Hex Hs]. split; [by right|].
      intros f. rewrite Hs, Forall_cons. tauto.
    + by constructor.
Qed.
End Modes_compute.

(** X7: in mode "union", on intervals of known chromosomes, the resolver
    returns the set of the features of all the steps of all the intervals:
    a feature is in the result exactly when some step of some interval
    carries it. *)
Theorem union_is_union_of_steps cfg features ivs :
  overlap_mode cfg = "union" →
  Forall (λ iv, chrom iv ∈ chrom_vectors features) ivs →
  ∃ u, resolve_fs cfg features (Ok <$> ivs) = Ok (Some u) ∧
    ∀ f, f ∈ u ↔ ∃ t, t ∈ step_sets features ivs ∧ f ∈ t.
Proof.
  intros Hmode Hknown. unfold resolve_fs.
  rewrite (bool_decide_eq_true_2 _ Hmode), union_loop_known by done. simpl.
  eexists. split; [done|]. intros f. rewrite elem_of_foldl_union. set_solver.
Qed.

Lemma union_is_union_of_steps_witness :
  ∃ u, resolve_fs (Ex.cfg "union" "none") Ex.features
         (Ok <$> [Ex.iv "chr1" 0 10; Ex.iv "chr1" 250 260]) = Ok (Some u) ∧
    ∀ f, f ∈ u ↔
      ∃ t, t ∈ step_sets Ex.features [Ex.iv "chr1" 0 10; Ex.iv "chr1" 250 260] ∧ f ∈ t.
Proof.
  apply (union_is_union_of_steps (Ex.cfg "union" "none") Ex.features).
  - reflexivity.
  - repeat constructor; simpl; by apply elem_of_singleton.
Defined.

(** X8: in mode "intersection-strict", on intervals of known chromosomes,
    the result is unset only if the intervals have no step at all, and
    otherwise it is the set of the features that every step carries (so one
    step without feature empties it). *)
Theorem strict_is_intersection_of_steps cfg features ivs :
  overlap_mode cfg = "intersection-strict" →
  Forall (λ iv, chrom iv ∈ chrom_vectors features) ivs →
  ∃ r, resolve_fs cfg features (Ok <$> ivs) = Ok r ∧
    (r = None ↔ step_sets features ivs = []) ∧
    ∀ s, r = Some s → ∀ f, f ∈ s ↔ ∀ t, t ∈ step_sets features ivs → f ∈ t.
Proof.
  intros Hmode Hknown. unfold resolve_fs.
  rewrite bool_decide_eq_false_2 by (rewrite Hmode; discriminate).
  rewrite bool_decide_eq_true_2 by (rewrite Hmode; apply list_elem_of_here).
  rewrite intersect_loop_known by done. eexists. split; [done|].
  pose proof (intersect_fold_None cfg (step_sets features ivs)) as Hfold.
  assert (Hall : ∀ t, takes_part cfg t) by (by right).
  destruct (foldl (intersect_step cfg) None (step_sets features ivs)) as [s|].
  - destruct Hfold as [Hex Hs]. split.
    + split; [done|]. intros Hnil. rewrite Hnil in Hex. by apply Exists_nil in Hex.
    + intros s' [= <-] f. rewrite Hs, Forall_forall. naive_solver.
  - split; [|done]. split; [|done]. intros _.
    destruct (step_sets features ivs) as [|t l]; [done|].
    apply Forall_inv in Hfold. by destruct Hfold.
Qed.

Lemma strict_is_intersection_of_steps_witness :
  ∃ r, resolve_fs (Ex.cfg "intersection-strict" "none") Ex.features
         (Ok <$> [Ex.iv "chr1" 0 10; Ex.iv "chr1" 250 260]) = Ok r ∧
    (r = None ↔ step_sets Ex.features [Ex.iv "chr1" 0 10; Ex.iv "chr1" 250 260] = []) ∧
    ∀ s, r = Some s → ∀ f, f ∈ s ↔
      ∀ t, t ∈ step_sets Ex.features [Ex.iv "chr1" 0 10; Ex.iv "chr1" 250 260] → f ∈ t.
Proof.
  apply (strict_is_intersection_of_steps (Ex.cfg "intersection-strict" "none") Ex.features).
  - reflexivity.
  - repeat constructor; simpl; by apply elem_of_singleton.
Defined.

(** X9: in mode "intersection-nonempty", on intervals of known chromosomes,
    the steps without feature are skipped: the result is unset exactly when
    every step is empty, and otherwise it is the set of the features that
    every non-empty step carries. *)
Theorem nonempty_is_intersection_of_nonempty_steps cfg features ivs :
  overlap_mode cfg = "intersection-nonempty" →
  Forall (λ iv, chrom iv ∈ chrom_vectors features) ivs →
  ∃ r, resolve_fs cfg features (Ok <$> ivs) = Ok r ∧
    (r = None ↔ ∀ t, t ∈ step_sets features ivs → t = ∅) ∧
    ∀ s, r = Some s →
      ∀ f, f ∈ s ↔ ∀ t, t ∈ step_sets features ivs → t ≠ ∅ → f ∈ t.
Proof.
  intros Hmode Hknown. unfold resolve_fs.
  rewrite bool_decide_eq_false_2 by (rewrite Hmode; discriminate).
  rewrite bool_decide_eq_true_2
    by (rewrite Hmode; apply list_elem_of_further, list_elem_of_here).
  rewrite intersect_loop_known by done. eexists. split; [done|].
  pose proof (intersect_fold_None cfg (step_sets features ivs)) as Hfold.
  assert (Hpart : ∀ t : FeatureSet, takes_part cfg t ↔ t ≠ ∅).
  { intros t. unfold takes_part. rewrite Hmode. split.
    - intros [Hpos|?]; [|done]. intros ->. rewrite size_empty in Hpos. lia.
    - intros Hne. left.
      destruct (decide (size t = 0%nat)) as [Hz|Hz]; [|lia].
      destruct Hne. by apply leibniz_equiv, size_empty_iff. }
  destruct (foldl (intersect_step cfg) None (step_sets features ivs)) as [s|].
  - destruct Hfold as [Hex Hs]. split.
    + split; [done|]. intros Hall. apply Exists_exists in Hex as (t & Ht & Hp).
      apply Hpart in Hp. by destruct Hp; apply Hall.
    + intros s' [= <-] f. rewrite Hs, Forall_forall.
      split; intros H t Ht; [intros Hne; apply H; [done | by apply Hpart]|].
      intros Hp. apply H; [done | by apply Hpart].
  - split; [|done]. split; [|done]. intros _ t Ht.
    rewrite Forall_forall in Hfold. specialize (Hfold t Ht).
    apply dec_stable. intros Hne. by apply Hfold, Hpart.
Qed.

Lemma nonempty_is_intersection_of_nonempty_steps_witness :
  ∃ r, resolve_fs (Ex.cfg "intersection-nonempty" "none") Ex.features
         (Ok <$> [Ex.iv "chr1" 0 10; Ex.iv "chr1" 150 160]) = Ok r ∧
    (r = None ↔ ∀ t, t ∈ step_sets Ex.features [Ex.iv "chr1" 0 10; Ex.iv "chr1" 150 160] → t = ∅) ∧
    ∀ s, r = Some s →
      ∀ f, f ∈ s ↔
        ∀ t, t ∈ step_sets Ex.features [Ex.iv "chr1" 0 10; Ex.iv "chr1" 150 160] →
             t ≠ ∅ → f ∈ t.
Proof.
  apply (nonempty_is_intersection_of_nonempty_steps
           (Ex.cfg "intersection-nonempty" "none") Ex.features).
  - reflexivity.
  - repeat constructor; simpl; by apply elem_of_singleton.
Defined.

(** ** Exceptions of the interval generator *)

Lemma invert_strand_raises iv e :
  invert_strand iv = Raise e → e = ValueError "Illegal strand".
Proof. unfold invert_strand. repeat case_bool_decide; congruence. Qed.

Lemma ivs_plain_raises cig :
  Forall (λ x, ∀ e, x = Raise e → e = ValueError "Illegal strand") (ivs_plain cig).
Proof. unfold ivs_plain. apply Forall_fmap, Forall_forall. by intros co _ e. Qed.

Lemma ivs_inverted_raises cig :
  Forall (λ x, ∀ e, x = Raise e → e = ValueError "Illegal strand") (ivs_inverted cig).
Proof.
  unfold ivs_inverted. apply Forall_fmap, Forall_forall.
  intros co _ e. apply invert_strand_raises.
Qed.

Lemma classify_iv_seq_raises cfg r log ivs :
  classify cfg r = (log, Ok (Resolve ivs)) →
  Forall (λ x, ∀ e, x = Raise e → e = ValueError "Illegal strand") ivs.
Proof.
  destruct r as [a|r0 r1]; simpl.
  - unfold classify_se. tr_unfold.
    repeat (case_match; simplify_eq/=); intros; simplify_eq;
      auto using ivs_plain_raises, ivs_inverted_raises.
  - unfold classify_pe.
    repeat (case_match; simplify_eq/=); try (by tr_unfold);
      intros ->%classify_pe_checks_resolve;
      repeat apply Forall_app_2;
      auto using ivs_plain_raises, ivs_inverted_raises, Forall_nil_2.
Qed.

Section Generator.
Context (cfg : Config) (features : FeatureIndex).

Lemma union_loop_raise fs pre e post :
  Forall (λ iv, chrom iv ∈ chrom_vectors features) pre →
  union_loop features fs ((Ok <$> pre) ++ Raise e :: post) = Raise e.
Proof.
  intros Hpre. revert fs. induction Hpre as [|iv pre Hiv _ IH]; intros fs; simpl; [done|].
  by rewrite (bool_decide_eq_true_2 _ Hiv).
Qed.

Lemma intersect_loop_raise fs pre e post :
  Forall (λ iv, chrom iv ∈ chrom_vectors features) pre →
  intersect_loop cfg features fs ((Ok <$> pre) ++ Raise e :: post) = Raise e.
Proof.
  intros Hpre. revert fs. induction Hpre as [|iv pre Hiv _ IH]; intros fs; simpl; [done|].
  by rewrite (bool_decide_eq_true_2 _ Hiv).
Qed.

Lemma resolve_fs_raise pre e post :
  overlap_mode cfg ∈ overlap_modes →
  Forall (λ iv, chrom iv ∈ chrom_vectors features) pre →
  resolve_fs cfg features ((Ok <$> pre) ++ Raise e :: post) = Raise e.
Proof.
  intros Hmode Hpre. unfold resolve_fs. case_bool_decide.
  - by rewrite union_loop_raise.
  - rewrite bool_decide_eq_true_2; [by apply intersect_loop_raise|].
    unfold overlap_modes in Hmode. set_solver.
Qed.
End Generator.

(** X10: the strand of an interval is inverted when the resolver loop
    reaches it.  A record unit that reaches the overlap resolution and whose
    intervals of known chromosomes are followed by one that cannot be
    inverted aborts the loop with [ValueError] "Illegal strand", the table
    holding what the classifier counted for the unit; no later record unit
    is processed. *)
Theorem illegal_strand_aborts cfg features r log pre e post counts rest :
  overlap_mode cfg ∈ overlap_modes →
  classify cfg r = (log, Ok (Resolve ((Ok <$> pre) ++ Raise e :: post))) →
  Forall (λ iv, chrom iv ∈ chrom_vectors features) pre →
  let b := identify_barcodes cfg r in
  e = ValueError "Illegal strand" ∧
  scan cfg features (r :: rest) counts
  = Aborted (ValueError "Illegal strand") (apply_log counts b.1 b.2 log).
Proof.
  intros Hmode Hcl Hpre b.
  assert (He : e = ValueError "Illegal strand").
  { pose proof (classify_iv_seq_raises _ _ _ _ Hcl) as Hall.
    apply Forall_app in Hall as [_ Hall]. apply Forall_inv in Hall. by apply Hall. }
  split; [done|]. subst e.
  simpl. unfold process_unit.
  rewrite loop_body_cases, Hcl. simpl.
  rewrite resolve_and_count_cases, resolve_fs_raise by done. simpl.
  by rewrite app_nil_r.
Qed.

Lemma illegal_strand_aborts_witness :
  ValueError "Illegal strand" = ValueError "Illegal strand" ∧
  scan Ex2.reverse_cfg Ex.features [SE Ex2.unstranded_read] []
  = Aborted (ValueError "Illegal strand") [].
Proof.
  apply (illegal_strand_aborts Ex2.reverse_cfg Ex.features (SE Ex2.unstranded_read)
           [] [] (ValueError "Illegal strand") [] [] []).
  - apply list_elem_of_here.
  - vm_compute. reflexivity.
  - constructor.
Defined.

(** ** What a resolved record unit counts *)

Lemma count_occ_NoDup (l : list string) k :
  NoDup l →
  length (filter (λ x, x = k) l) = if decide (k ∈ l) then 1%nat else 0%nat.
Proof.
  induction 1 as [|x l Hx _ IH]; [done|].
  rewrite filter_cons. destruct (decide (x = k)) as [->|Hne]; simpl.
  - rewrite IH, decide_False, decide_True by set_solver. done.
  - rewrite IH. destruct (decide (k ∈ l)).
    + by rewrite decide_True by set_solver.
    + by rewrite decide_False by set_solver.
Qed.

(** The categories [count_fs] counts under a known multimapped mode. *)
Lemma count_fs_log cfg fs :
  multimapped_mode cfg ∈ multimapped_modes →
  count_fs cfg fs =
    ((if decide (fs_set fs = ∅) then ["__no_feature"]
      else if decide (1 < size (fs_set fs))%nat then ["__ambiguous"] else []) ++
     (if decide (multimapped_mode cfg = "all" ∨ size (fs_set fs) = 1%nat)
      then elements (fs_set fs) else []),
     Ok tt).
Proof.
  unfold multimapped_modes. intros Hmode.
  destruct fs as [s|]; simpl.
  2: { rewrite elements_empty.
       rewrite (decide_True (P := (∅ : FeatureSet) = ∅)) by done.
       by destruct (decide (_ ∨ _)). }
  unfold count_fs, count_first. rewrite count_each_log.
  destruct (decide (s = ∅)) as [->|Hne].
  { rewrite size_empty, elements_empty. simpl.
    by destruct (decide (_ ∨ _)). }
  assert (size s ≠ 0%nat) as Hsz.
  { intros Hz. apply Hne. by apply leibniz_equiv, size_empty_iff. }
  rewrite (bool_decide_eq_false_2 (size s = 0%nat)) by done.
  rewrite (bool_decide_eq_true_2 (0 < size s)%nat) by lia.
  destruct (decide (1 < size s)%nat) as [Hgt|Hle].
  - rewrite (bool_decide_eq_true_2 _ Hgt).
    rewrite (bool_decide_eq_false_2 (size s = 1%nat)) by lia.
    destruct (decide (multimapped_mode cfg = "none")) as [Hn|Hn].
    + rewrite (bool_decide_eq_true_2 _ Hn). tr_unfold.
      rewrite decide_False; [done|]. intros [Ha|?]; [congruence | lia].
    + rewrite (bool_decide_eq_false_2 _ Hn).
      assert (multimapped_mode cfg = "all") as Ha by set_solver.
      rewrite (bool_decide_eq_true_2 _ Ha). tr_unfold.
      by rewrite decide_True by by left.
  - rewrite (bool_decide_eq_false_2 _ Hle).
    assert (size s = 1%nat) as H1 by lia.
    rewrite (bool_decide_eq_true_2 _ H1).
    rewrite (decide_True (P := _ ∨ size s = 1%nat)) by by right.
    rewrite size_elements in H1.
    destruct (elements s) as [|f [|g l]] eqn:Hel; simpl in H1; try lia.
    destruct (decide (multimapped_mode cfg = "none")) as [Hn|Hn].
    + by rewrite (bool_decide_eq_true_2 _ Hn).
    + rewrite (bool_decide_eq_false_2 _ Hn).
      assert (multimapped_mode cfg = "all") as Ha by set_solver.
      by rewrite (bool_decide_eq_true_2 _ Ha).
Qed.

(** X11: a record unit whose intervals resolve to the feature set [fs]
    (unset counting as empty) ends its iteration normally and changes the
    bucket of its barcode as follows, beyond what the classifier counted:
    [__no_feature] gets one count if [fs] is empty, [__ambiguous] gets one if
    [fs] has more than one feature, and each feature of [fs] gets one count
    if multimapped_mode is "all" or if it is the only feature of [fs]. *)
Theorem resolved_unit_counts cfg features r log ivs fs counts k :
  multimapped_mode cfg ∈ multimapped_modes →
  classify cfg r = (log, Ok (Resolve ivs)) →
  resolve_fs cfg features ivs = Ok fs →
  let b := identify_barcodes cfg r in
  ∃ counts', process_unit cfg features r counts = Finished counts' ∧
    counter_get (bucket counts' b.1 b.2) k
    = counter_get (bucket counts b.1 b.2) k
      + Z.of_nat (length (filter (λ x, x = k) log))
      + (if decide (k = "__no_feature" ∧ fs_set fs = ∅) then 1 else 0)
      + (if decide (k = "__ambiguous" ∧ (1 < size (fs_set fs))%nat) then 1 else 0)
      + (if decide (k ∈ fs_set fs ∧
                    (multimapped_mode cfg = "all" ∨ size (fs_set fs) = 1%nat))
         then 1 else 0).
Proof.
  intros Hmode Hcl Hfs b. unfold process_unit.
  rewrite loop_body_cases, Hcl. simpl.
  rewrite resolve_and_count_cases, Hfs, count_fs_log by done. simpl.
  eexists. split; [done|].
  rewrite bucket_apply_log, decide_True by by destruct (identify_barcodes cfg r).
  fold b. rewrite counter_get_count_log, !filter_app, !length_app.
  assert (Hel : length (filter (λ x, x = k)
                  (if decide (multimapped_mode cfg = "all" ∨ size (fs_set fs) = 1%nat)
                   then elements (fs_set fs) else []))
              = if decide (k ∈ fs_set fs ∧
                    (multimapped_mode cfg = "all" ∨ size (fs_set fs) = 1%nat))
                then 1%nat else 0%nat).
  { destruct (decide (_ ∨ _)) as [Hm|Hm].
    - rewrite count_occ_NoDup by apply NoDup_elements.
      destruct (decide (k ∈ elements (fs_set fs))) as [Hin|Hin];
        rewrite elem_of_elements in Hin.
      + by rewrite decide_True.
      + rewrite decide_False; [done | by intros [? _]].
    - rewrite decide_False; [done | by intros [_ ?]]. }
  rewrite Hel. clear Hel.
  assert (Haud : length (filter (λ x, x = k)
                   (if decide (fs_set fs = ∅) then ["__no_feature"]
                    else if decide (1 < size (fs_set fs))%nat then ["__ambiguous"]
                    else []))
               = ((if decide (k = "__no_feature" ∧ fs_set fs = ∅) then 1 else 0) +
                  (if decide (k = "__ambiguous" ∧ (1 < size (fs_set fs))%nat)
                   then 1 else 0))%nat).
  { destruct (decide (fs_set fs = ∅)) as [He|He].
    - rewrite He, size_empty.
      rewrite (decide_False (P := _ ∧ (1 < 0)%nat)) by (intros [_ ?]; lia).
      rewrite filter_cons, filter_nil.
      destruct (decide ("__no_feature" = k)) as [<-|Hk].
      + by rewrite decide_True.
      + rewrite decide_False; [done | by intros [-> _]].
    - rewrite (decide_False (P := _ ∧ fs_set fs = ∅)) by by intros [_ ?].
      destruct (decide (1 < size (fs_set fs))%nat) as [Hgt|Hgt].
      + rewrite filter_cons, filter_nil.
        destruct (decide ("__ambiguous" = k)) as [<-|Hk].
        * by rewrite decide_True.
        * rewrite decide_False; [done | by intros [-> _]].
      + rewrite decide_False; [done | by intros [_ ?]]. }
  rewrite Haud. clear Haud.
  repeat case_decide; lia.
Qed.

Lemma resolved_unit_counts_witness :
  ∃ counts', process_unit (Ex.cfg "union" "all") Ex.features
               (SE (Ex.read "chr1" 250 260 30 Ex.XU None)) [] = Finished counts' ∧
    counter_get (bucket counts' (Some "X") (Some "U")) "GeneB"
    = counter_get (bucket [] (Some "X") (Some "U")) "GeneB"
      + Z.of_nat (length (filter (λ x, x = "GeneB") []))
      + (if decide ("GeneB" = "__no_feature" ∧ fs_set (Some {["GeneA"; "GeneB"]}) = ∅)
         then 1 else 0)
      + (if decide ("GeneB" = "__ambiguous" ∧
                    (1 < size (fs_set (Some {["GeneA"; "GeneB"]})))%nat) then 1 else 0)
      + (if decide ("GeneB" ∈ fs_set (Some ({["GeneA"; "GeneB"]} : FeatureSet)) ∧
                    (multimapped_mode (Ex.cfg "union" "all") = "all" ∨
                     size (fs_set (Some {["GeneA"; "GeneB"]})) = 1%nat))
         then 1 else 0).
Proof.
  apply (resolved_unit_counts (Ex.cfg "union" "all") Ex.features
           (SE (Ex.read "chr1" 250 260 30 Ex.XU None)) []
           [Ok (Ex.iv "chr1" 250 260)] (Some {["GeneA"; "GeneB"]}) [] "GeneB").
  - apply list_elem_of_further, list_elem_of_here.
  - vm_compute. reflexivity.
  - vm_compute. reflexivity.
Defined.

(** ** What the loop keeps *)

Lemma process_unit_table cfg features r counts :
  final_table (process_unit cfg features r counts)
  = apply_log counts (identify_barcodes cfg r).1 (identify_barcodes cfg r).2
      (loop_body cfg features r).1.
Proof. unfold process_unit. by destruct (loop_body cfg features r).2. Qed.

Lemma scan_cons_table cfg features r rs counts :
  final_table (scan cfg features (r :: rs) counts)
  = match process_unit cfg features r counts with
    | Finished c => final_table (scan cfg features rs c)
    | Aborted _ c => c
    end.
Proof. simpl. by destruct (process_unit cfg features r counts). Qed.

Lemma incr_keys_prefix counts cb ub cat :
  dict_keys counts `prefix_of` dict_keys (incr counts cb ub cat).
Proof.
  unfold incr. rewrite dict_keys_upd. case_decide; [done|]. by apply prefix_app_r.
Qed.

Lemma apply_log_keys_prefix counts cb ub log :
  dict_keys counts `prefix_of` dict_keys (apply_log counts cb ub log).
Proof.
  unfold apply_log. revert counts. induction log as [|k log IH]; intros counts; simpl; [done|].
  etrans; [apply incr_keys_prefix | apply IH].
Qed.

Lemma apply_log_counts_grow counts cb ub log cb' ub' k :
  counter_get (bucket counts cb' ub') k
  ≤ counter_get (bucket (apply_log counts cb ub log) cb' ub') k.
Proof.
  rewrite bucket_apply_log. case_decide; [|done].
  simplify_eq. rewrite counter_get_count_log. lia.
Qed.

(** X12: while the loop runs, the table only grows: whether the loop ends
    normally or is aborted, the cell keys of the table it started from are
    the first cell keys of the resulting table, in the same order, and no
    count of any bucket has decreased. *)
Theorem scan_table_grows cfg features rs counts :
  dict_keys counts `prefix_of` dict_keys (final_table (scan cfg features rs counts)) ∧
  ∀ cb ub k,
    counter_get (bucket counts cb ub) k
    ≤ counter_get (bucket (final_table (scan cfg features rs counts)) cb ub) k.
Proof.
  revert counts. induction rs as [|r rs IH]; intros counts; [done|].
  rewrite scan_cons_table.
  pose proof (process_unit_table cfg features r counts) as Ht.
  destruct (process_unit cfg features r counts) as [c|e c]; simpl in Ht; subst c.
  - destruct (IH (apply_log counts (identify_barcodes cfg r).1
                    (identify_barcodes cfg r).2 (loop_body cfg features r).1))
      as [Hpre Hle].
    split.
    + etrans; [apply apply_log_keys_prefix | done].
    + intros cb ub k. etrans; [apply apply_log_counts_grow | apply Hle].
  - split; [apply apply_log_keys_prefix|]. intros. apply apply_log_counts_grow.
Qed.

Lemma dict_get_Forall {K V} `{EqDecision K} (P : V → Prop) (d : dict K V) k v :
  Forall (λ kv, P kv.2) d → dict_get d k = Some v → P v.
Proof.
  intros Hall Hget%dict_get_elem_of. rewrite Forall_forall in Hall.
  apply (Hall _ Hget).
Qed.

Lemma incr_table_ok counts cb ub cat :
  table_ok counts → table_ok (incr counts cb ub cat).
Proof.
  unfold table_ok, incr. intros [Hnd Hall]. split; [by apply dict_upd_NoDup|].
  assert (Hctr : ∀ ctr : Counter,
            ctr = [] ∨ counter_ok ctr → counter_ok (dict_upd ctr cat 0 Z.succ)).
  { intros ctr Hc. split; [apply dict_upd_not_nil|]. split.
    - apply dict_upd_NoDup. destruct Hc as [->|(_ & ? & _)]; [constructor | done].
    - apply (dict_upd_Forall (λ n : Z, 1 ≤ n)); [|lia|lia].
      destruct Hc as [->|(_ & _ & ?)]; [constructor | done]. }
  assert (Hcell : ∀ m : UmiTable,
            m = [] ∨ cell_ok m →
            cell_ok (dict_upd m ub [] (λ ctr, dict_upd ctr cat 0 Z.succ))).
  { intros m Hm. split; [apply dict_upd_not_nil|]. split.
    - apply dict_upd_NoDup. destruct Hm as [->|(_ & ? & _)]; [constructor | done].
    - apply (dict_upd_Forall counter_ok).
      + destruct Hm as [->|(_ & _ & ?)]; [constructor | done].
      + apply Hctr. by left.
      + intros ctr Hok. apply Hctr. by right. }
  apply (dict_upd_Forall cell_ok); [done | |].
  - apply Hcell. by left.
  - intros m Hok. apply Hcell. by right.
Qed.

Lemma apply_log_table_ok counts cb ub log :
  table_ok counts → table_ok (apply_log counts cb ub log).
Proof.
  unfold apply_log. revert counts.
  induction log as [|k log IH]; intros counts Hok; simpl; [done|].
  by apply IH, incr_table_ok.
Qed.

Lemma scan_table_ok cfg features rs counts :
  table_ok counts → table_ok (final_table (scan cfg features rs counts)).
Proof.
  revert counts. induction rs as [|r rs IH]; intros counts Hok; [done|].
  rewrite scan_cons_table.
  pose proof (process_unit_table cfg features r counts) as Ht.
  destruct (process_unit cfg features r counts) as [c|e c]; simpl in Ht; subst c.
  - by apply IH, apply_log_table_ok.
  - by apply apply_log_table_ok.
Qed.

(** X13: the table of the loop, started from the empty table, is well
    formed whether the loop ends normally or is aborted: no key is repeated
    at any of the three levels, every cell has a UMI, every UMI bucket has a
    category, and every recorded count is at least one (keys are created by
    the increment that first needs them, and never for nothing). *)
Theorem scan_table_well_formed cfg features rs :
  let counts := final_table (scan cfg features rs []) in
  NoDup (dict_keys counts) ∧
  ∀ cb m, dict_get counts cb = Some m →
    m ≠ [] ∧ NoDup (dict_keys m) ∧
    ∀ ub udic, dict_get m ub = Some udic →
      udic ≠ [] ∧ NoDup (dict_keys udic) ∧
      ∀ k n, dict_get udic k = Some n → 1 ≤ n.
Proof.
  intros counts.
  assert (Hok : table_ok counts).
  { apply scan_table_ok. split; constructor. }
  destruct Hok as [Hnd Hall]. split; [done|].
  intros cb m Hm.
  destruct (dict_get_Forall cell_ok _ _ _ Hall Hm) as (Hne & Hndm & Hallm).
  split_and!; [done | done |].
  intros ub udic Hu.
  destruct (dict_get_Forall counter_ok _ _ _ Hallm Hu) as (Hneu & Hndu & Hallu).
  split_and!; [done | done |].
  intros k n Hk. apply (dict_get_Forall (λ n : Z, 1 ≤ n) _ _ _ Hallu Hk).
Qed.

(** X14: record units that the secondary/supplementary filters drop leave
    no trace: a stream made of dropped units only ends normally with the
    table it started from, without even an empty bucket for their
    barcodes. *)
Theorem dropped_units_leave_no_trace cfg features rs counts :
  Forall (λ r, dropped cfg r = true) rs →
  scan cfg features rs counts = Finished counts.
Proof.
  intros Hall. induction Hall as [|r rs Hr _ IH]; [done|].
  simpl. unfold process_unit. rewrite loop_body_cases.
  unfold dropped in Hr.
  pose proof (classify_shape cfg r) as Hs. unfold verdict_shape in Hs.
  destruct (classify cfg r) as [log [[| |ivs]|e]]; simpl in *; try done.
  by rewrite Hs.
Qed.

Lemma dropped_units_leave_no_trace_witness :
  scan (Ex.cfg "union" "none") Ex.features
    [SE Ex2.secondary_read; SE Ex2.secondary_read] Ex.tie_counts
  = Finished Ex.tie_counts.
Proof.
  apply (dropped_units_leave_no_trace (Ex.cfg "union" "none") Ex.features).
  repeat constructor.
Defined.

(** X15: the sorting order is only looked at for paired-end input.  With
    pairs, an order other than "name" and "pos" raises [ValueError]
    "Illegal order specified." before any pair is read; with single-end
    input (or an empty input) the result does not depend on the order
    option at all. *)
Theorem order_checked_for_pairs_only cfg features :
  (∀ ps, order cfg ≠ "name" → order cfg ≠ "pos" →
         count_reads_with_barcodes cfg features (PairedEnd ps)
         = Raise (ValueError "Illegal order specified.")) ∧
  (∀ rs o, count_reads_with_barcodes (with_order cfg o) features (SingleEnd rs)
           = count_reads_with_barcodes cfg features (SingleEnd rs)).
Proof.
  split.
  - intros ps Hn Hp. unfold count_reads_with_barcodes. simpl.
    by rewrite !bool_decide_eq_false_2.
  - intros rs o. reflexivity.
Qed.

(** ** The collapsed table *)

Lemma collapse_cells_keys cbs (counts : CountTable) acc res :
  NoDup cbs →
  (∀ cb, cb ∈ cbs → cb ∉ dict_keys acc) →
  collapse_cells cbs counts acc = Ok res →
  dict_keys res = dict_keys acc ++ cbs.
Proof.
  intros Hnd. revert counts acc.
  induction Hnd as [|cb0 rest Hnotin Hnd IH]; intros counts acc Hfresh Hres.
  - simpl in Hres. simplify_eq. by rewrite app_nil_r.
  - cbn [collapse_cells] in Hres.
    destruct (dict_pop counts cb0) as [[m counts']|] eqn:Hpop; [|done]. simpl in Hres.
    destruct (collapse_umis m []) as [cell|] eqn:Hcell; [|done]. simpl in Hres.
    apply IH in Hres.
    + rewrite Hres. unfold dict_set. rewrite dict_keys_upd.
      rewrite decide_False by (apply Hfresh; set_solver).
      by rewrite <- app_assoc.
    + intros cb Hcb. unfold dict_set. rewrite dict_keys_upd.
      rewrite decide_False by (apply Hfresh; set_solver).
      specialize (Hfresh cb). set_solver.
Qed.

Lemma collapse_umis_ok (m : UmiTable) acc cell :
  acc = [] ∨ counter_ok acc →
  m ≠ [] ∨ counter_ok acc →
  collapse_umis m acc = Ok cell →
  counter_ok cell.
Proof.
  revert acc. induction m as [|[ub udic] m IH]; intros acc Hacc Hne Hcell.
  - simpl in Hcell. simplify_eq. by destruct Hne.
  - cbn [collapse_umis] in Hcell.
    destruct (most_common_1 udic) as [|w l]; [done|].
    assert (counter_ok (dict_upd acc w.1 0 Z.succ)) as Hok.
    { split; [apply dict_upd_not_nil|]. split.
      - apply dict_upd_NoDup. destruct Hacc as [->|(_ & ? & _)]; [constructor | done].
      - apply (dict_upd_Forall (λ n : Z, 1 ≤ n)); [|lia|lia].
        destruct Hacc as [->|(_ & _ & ?)]; [constructor | done]. }
    eapply IH; [by right | by right | done].
Qed.

(** An entry of the collapsed table is the collapse of the cell of the same
    key. *)
Lemma collapse_cell_origin (counts : CountTable) out cb cell :
  table_ok counts →
  collapse counts = Ok out →
  dict_get (counts_collapsed out) cb = Some cell →
  dict_keys (counts_collapsed out) = cell_barcodes out ∧
  cell_barcodes out ≡ₚ dict_keys counts ∧
  ∃ m, dict_get counts cb = Some m ∧ collapse_umis m [] = Ok cell.
Proof.
  intros [Hnd Hall] Hout Hcell. unfold collapse in Hout.
  destruct (sorted (dict_keys counts)) as [cbs|] eqn:Hcbs; [|done]. simpl in Hout.
  destruct (collapse_cells cbs counts []) as [res|] eqn:Hres; [|done].
  simpl in Hout. simplify_eq. simpl in *.
  destruct (sorted_ok _ _ Hcbs) as [Hperm _].
  assert (NoDup cbs) as Hndc by by rewrite Hperm.
  assert (Hkeys : dict_keys res = cbs).
  { apply (collapse_cells_keys cbs counts [] res Hndc); [|done].
    intros; apply not_elem_of_nil. }
  split_and!; [done | done |].
  assert (cb ∈ cbs) as Hcb.
  { apply dec_stable. intros Hno. rewrite <- Hkeys in Hno.
    apply dict_get_None in Hno. congruence. }
  destruct (dict_get counts cb) as [m|] eqn:Hm.
  2: { apply dict_get_None in Hm. destruct Hm. by rewrite <- Hperm. }
  destruct (collapse_cells_spec cbs counts [] Hndc) as (res' & Hres' & _ & Hin).
  { intros cb' Hcb'. rewrite Hperm in Hcb'.
    destruct (dict_get counts cb') as [m'|] eqn:Hm'.
    - exists m'. split; [done|].
      destruct (dict_get_Forall cell_ok _ _ _ Hall Hm') as (_ & _ & Hallm').
      eapply Forall_impl; [done|]. by intros uc (? & _).
    - by apply dict_get_None in Hm'. }
  rewrite Hres in Hres'. simplify_eq.
  destruct (Hin cb m Hcb Hm) as (cell' & Hcell' & Hget). simplify_eq.
  by exists m.
Qed.

Lemma scan_finished_table_ok cfg features rs counts :
  scan cfg features rs [] = Finished counts → table_ok counts.
Proof.
  intros Hscan.
  pose proof (scan_table_ok cfg features rs [] (conj (NoDup_nil_2) (Forall_nil_2 _))) as Hok.
  by rewrite Hscan in Hok.
Qed.

(** The categories of a collapsed cell are winners of its buckets. *)
Lemma collapse_umis_keys (m : UmiTable) acc cell w :
  collapse_umis m acc = Ok cell →
  w ∈ dict_keys cell →
  w ∈ dict_keys acc ∨ ∃ ub udic, (ub, udic) ∈ m ∧ winner udic = Some w.
Proof.
  revert acc. induction m as [|[ub udic] m IH]; intros acc Hcell Hw.
  - simpl in Hcell. simplify_eq. by left.
  - cbn [collapse_umis] in Hcell.
    destruct (most_common_1 udic) as [|w0 l] eqn:Hmc; [done|].
    destruct (IH _ Hcell Hw) as [Hin|(ub' & udic' & Hin & Hwin)].
    + rewrite dict_keys_upd in Hin. case_decide; [by left|].
      apply elem_of_app in Hin as [?|Hin]; [by left|].
      apply list_elem_of_singleton in Hin as ->.
      right. exists ub, udic. split; [apply list_elem_of_here|].
      unfold winner. by rewrite Hmc.
    + right. exists ub', udic'. split; [by apply list_elem_of_further | done].
Qed.

(** X16: when the collapse of the table of a finished loop returns, the
    collapsed table has exactly one entry per cell barcode, in the order of
    [cell_barcodes], which lists every cell key of the count table once; and
    the entry of a cell is a non-empty [Counter] without repeated category
    whose counts are all at least one. *)
Theorem collapse_output_shape cfg features rs counts out :
  scan cfg features rs [] = Finished counts →
  collapse counts = Ok out →
  dict_keys (counts_collapsed out) = cell_barcodes out ∧
  NoDup (cell_barcodes out) ∧
  (∀ cb, cb ∈ cell_barcodes out ↔ cb ∈ dict_keys counts) ∧
  (∀ cb cell, dict_get (counts_collapsed out) cb = Some cell → counter_ok cell).
Proof.
  intros Hscan Hout.
  pose proof (scan_finished_table_ok _ _ _ _ Hscan) as Hok.
  assert (Hperm : cell_barcodes out ≡ₚ dict_keys counts ∧
                  dict_keys (counts_collapsed out) = cell_barcodes out).
  { unfold collapse in Hout.
    destruct (sorted (dict_keys counts)) as [cbs|] eqn:Hcbs; [|done]. simpl in Hout.
    destruct (collapse_cells cbs counts []) as [res|] eqn:Hres; [|done].
    simpl in Hout. simplify_eq. simpl.
    destruct (sorted_ok _ _ Hcbs) as [Hperm _]. split; [done|].
    apply (collapse_cells_keys cbs counts [] res);
      [rewrite Hperm; apply Hok | | done].
    intros; apply not_elem_of_nil. }
  destruct Hperm as [Hperm Hkeys].
  split_and!; [done | rewrite Hperm; apply Hok | by intros cb; rewrite Hperm |].
  intros cb cell Hcell.
  destruct (collapse_cell_origin counts out cb cell Hok Hout Hcell)
    as (_ & _ & m & Hm & Hcol).
  destruct Hok as [_ Hall].
  destruct (dict_get_Forall cell_ok _ _ _ Hall Hm) as (Hne & _ & _).
  eapply collapse_umis_ok; [by left | by left | done].
Qed.

Lemma collapse_output_shape_witness :
  dict_keys (counts_collapsed
     {| cell_barcodes := [Some "X"]; counts_collapsed := [(Some "X", [("GeneA", 1)])] |})
  = [Some "X"] ∧
  NoDup [Some "X"] ∧
  (∀ cb, cb ∈ [Some "X"] ↔ cb ∈ dict_keys Ex.tie_counts) ∧
  (∀ cb cell, dict_get [(Some "X", [("GeneA", 1)])] cb = Some cell → counter_ok cell).
Proof.
  apply (collapse_output_shape (Ex.cfg "union" "none") Ex.features Ex.tie Ex.tie_counts
           {| cell_barcodes := [Some "X"];
              counts_collapsed := [(Some "X", [("GeneA", 1)])] |}).
  - vm_compute. reflexivity.
  - vm_compute. reflexivity.
Defined.

(** X17: the collapse invents no category: a category listed for a cell in
    the collapsed table is the first maximum, hence a counted category, of
    one of the UMI buckets of that cell in the count table. *)
Theorem collapsed_categories_from_buckets cfg features rs counts out cb cell w :
  scan cfg features rs [] = Finished counts →
  collapse counts = Ok out →
  dict_get (counts_collapsed out) cb = Some cell →
  w ∈ dict_keys cell →
  ∃ m ub udic n,
    dict_get counts cb = Some m ∧ (ub, udic) ∈ m ∧ first_max udic w n.
Proof.
  intros Hscan Hout Hcell Hw.
  pose proof (scan_finished_table_ok _ _ _ _ Hscan) as Hok.
  destruct (collapse_cell_origin counts out cb cell Hok Hout Hcell)
    as (_ & _ & m & Hm & Hcol).
  destruct (collapse_umis_keys m [] cell w Hcol Hw) as [Hin|(ub & udic & Hin & Hwin)].
  { by apply elem_of_nil in Hin. }
  exists m, ub, udic.
  destruct Hok as [_ Hall].
  destruct (dict_get_Forall cell_ok _ _ _ Hall Hm) as (_ & _ & Hallm).
  rewrite Forall_forall in Hallm. destruct (Hallm _ Hin) as (Hne & _).
  destruct (most_common_1_first_max udic Hne) as (w' & n & Hmc & Hfm).
  unfold winner in Hwin. rewrite Hmc in Hwin. simpl in Hwin. simplify_eq.
  by exists n.
Qed.

Lemma collapsed_categories_from_buckets_witness :
  ∃ m ub udic n,
    dict_get Ex.tie_counts (Some "X") = Some m ∧ (ub, udic) ∈ m ∧
    first_max udic "GeneA" n.
Proof.
  apply (collapsed_categories_from_buckets (Ex.cfg "union" "none") Ex.features Ex.tie
           Ex.tie_counts
           {| cell_barcodes := [Some "X"];
              counts_collapsed := [(Some "X", [("GeneA", 1)])] |}
           (Some "X") [("GeneA", 1)] "GeneA").
  - vm_compute. reflexivity.
  - vm_compute. reflexivity.
  - reflexivity.
  - apply list_elem_of_here.
Defined.

(** ** Reading the features *)

Section Gff.
Context (lib : Library) (opt : Options).

Lemma gff_loop_app pre post st :
  gff_loop lib opt (pre ++ post) st
  = st' ← gff_loop lib opt pre st; gff_loop lib opt post st'.
Proof.
  revert st. induction pre as [|f pre IH]; intros st; [done|].
  cbn [app gff_loop]. destruct (gff_step lib opt st f); [apply IH | done].
Qed.

Lemma gff_step_gathered seen st f st' :
  gathered opt seen st →
  gff_step lib opt st f = Ok st' →
  gathered opt (seen ++ [f]) st'.
Proof.
  intros [Hids Hattrs]. unfold gff_step.
  destruct (decide (f_type f = feature_type opt)) as [Ht|Ht].
  2: { rewrite (bool_decide_eq_false_2 _ Ht). intros [= <-]. split.
       - intros fid. rewrite Hids. split.
         + intros (g & Hg & Hn). exists g. split; [set_solver | done].
         + intros (g & Hg & Hn). apply elem_of_app in Hg as [Hg|Hg]; [by exists g|].
           apply list_elem_of_singleton in Hg as ->. by destruct Hn.
       - intros fid Hfid. destruct (Hattrs fid Hfid) as (g & Hg & Hn & Hget).
         exists g. split; [set_solver | done]. }
  rewrite (bool_decide_eq_true_2 _ Ht).
  destruct (dict_get (f_attr f) (id_attribute opt)) as [fid0|] eqn:Hid; [|done].
  destruct (_ && _); [done|]. intros [= <-].
  split; cbn [gff_feature_attr gff_attributes].
  - intros fid. rewrite elem_of_union, elem_of_singleton, Hids. split.
    + intros [->|(g & Hg & Hn)].
      * exists f. split; [set_solver | done].
      * exists g. split; [set_solver | done].
    + intros (g & Hg & Hn). apply elem_of_app in Hg as [Hg|Hg]; [right; by exists g|].
      apply list_elem_of_singleton in Hg as ->. left.
      destruct Hn as [_ Hn]. congruence.
  - intros fid Hfid. rewrite dict_get_set.
    destruct (decide (fid0 = fid)) as [<-|Hne].
    + exists f. split; [set_solver | done].
    + apply elem_of_union in Hfid as [Hfid|Hfid];
        [apply elem_of_singleton in Hfid; congruence|].
      destruct (Hattrs fid Hfid) as (g & Hg & Hn & Hget).
      exists g. split; [set_solver | done].
Qed.

Lemma gff_loop_gathered gff seen st st' :
  gathered opt seen st →
  gff_loop lib opt gff st = Ok st' →
  gathered opt (seen ++ gff) st'.
Proof.
  revert seen st. induction gff as [|f gff IH]; intros seen st Hg Hloop.
  - simpl in Hloop. simplify_eq. by rewrite app_nil_r.
  - cbn [gff_loop] in Hloop.
    destruct (gff_step lib opt st f) as [st1|] eqn:Hstep; [|done]. simpl in Hloop.
    replace (seen ++ f :: gff) with ((seen ++ [f]) ++ gff) by by rewrite <- app_assoc.
    eapply IH; [|done]. by eapply gff_step_gathered.
Qed.

Lemma gathered_start : gathered opt [] (gff_start lib opt).
Proof.
  split; simpl.
  - intros fid. split; [set_solver|]. intros (f & Hf & _). by apply elem_of_nil in Hf.
  - set_solver.
Qed.

Lemma sorted_features_elem (s : gset string) fid :
  fid ∈ sorted_features s ↔ fid ∈ s.
Proof. unfold sorted_features. by rewrite merge_sort_Permutation, elem_of_elements. Qed.
End Gff.

(** X18: when the GFF loop ends normally, the sorted list of feature ids
    lists, in ascending order and without repetition, exactly the values of
    the id attribute of the features of the requested type; and each of them
    has an entry in [attributes] with one value per additional attribute,
    taken from a feature that names the id, the empty string standing for
    an attribute the feature does not have. *)
Theorem gff_feature_ids lib opt gff st :
  gff_loop lib opt gff (gff_start lib opt) = Ok st →
  let feature_attr := sorted_features (gff_feature_attr st) in
  StronglySorted String.le feature_attr ∧ NoDup feature_attr ∧
  (∀ fid, fid ∈ feature_attr ↔ ∃ f, f ∈ gff ∧ names_feature opt f fid) ∧
  (∀ fid, fid ∈ feature_attr →
     ∃ f l, f ∈ gff ∧ names_feature opt f fid ∧
            dict_get (gff_attributes st) fid = Some l ∧
            l = attribute_values opt f ∧
            length l = length (additional_attributes opt)).
Proof.
  intros Hloop feature_attr.
  destruct (gff_loop_gathered lib opt gff [] _ st (gathered_start lib opt) Hloop)
    as [Hids Hattrs]. simpl in Hids, Hattrs.
  split_and!.
  - apply StronglySorted_merge_sort; apply _.
  - unfold feature_attr, sorted_features. rewrite merge_sort_Permutation.
    apply NoDup_elements.
  - intros fid. unfold feature_attr. by rewrite sorted_features_elem.
  - intros fid Hfid. unfold feature_attr in Hfid. rewrite sorted_features_elem in Hfid.
    destruct (Hattrs fid Hfid) as (f & Hf & Hn & Hget).
    exists f, (attribute_values opt f). split_and!; try done.
    unfold attribute_values. by rewrite length_fmap.
Qed.

(** X19: the features of another type than the requested one are skipped,
    whatever they hold: reading a GFF file is reading its features of the
    requested type, so a feature of another type without id attribute or
    without strand is no error. *)
Theorem gff_other_types_skipped lib opt gff st :
  gff_loop lib opt gff st
  = gff_loop lib opt (filter (λ f, f_type f = feature_type opt) gff) st.
Proof.
  revert st. induction gff as [|f gff IH]; intros st; [done|].
  rewrite filter_cons. destruct (decide (f_type f = feature_type opt)) as [Ht|Ht].
  - cbn [gff_loop]. destruct (gff_step lib opt st f); [apply IH | done].
  - cbn [gff_loop]. unfold gff_step at 1.
    rewrite (bool_decide_eq_false_2 _ Ht). simpl. apply IH.
Qed.

(** X20: the first feature of the requested type that has no id attribute,
    or that has no strand (".") while the counting is stranded, ends the
    whole function with a [ValueError] that names the feature: no read is
    counted and nothing is printed. *)
Theorem gff_errors lib opt pre f post st read_seq :
  gff_loop lib opt pre (gff_start lib opt) = Ok st →
  f_type f = feature_type opt →
  (dict_get (f_attr f) (id_attribute opt) = None →
   count_reads_in_features lib opt (pre ++ f :: post) read_seq
   = ([], Raise (ValueError ("Feature " +:+ f_name f +:+ " does not contain a '" +:+
                             id_attribute opt +:+ "' attribute")))) ∧
  (is_Some (dict_get (f_attr f) (id_attribute opt)) →
   stranded (opt_cfg opt) ≠ "no" → strand (f_iv f) = "." →
   count_reads_in_features lib opt (pre ++ f :: post) read_seq
   = ([], Raise (ValueError ("Feature " +:+ f_name f +:+ " at " +:+
                             iv_str lib (f_iv f) +:+
                             " does not have strand information but you are " +:+
                             "running htseq-count in stranded mode. Use '--stranded=no'.")))).
Proof.
  intros Hpre Ht. split.
  - intros Hid. unfold count_reads_in_features.
    rewrite gff_loop_app, Hpre. simpl. unfold gff_step.
    by rewrite (bool_decide_eq_true_2 _ Ht), Hid.
  - intros [fid Hid] Hs Hstrand. unfold count_reads_in_features.
    rewrite gff_loop_app, Hpre. simpl. unfold gff_step.
    rewrite (bool_decide_eq_true_2 _ Ht), Hid.
    by rewrite (bool_decide_eq_true_2 _ Hs), (bool_decide_eq_true_2 _ Hstrand).
Qed.

Lemma gff_feature_ids_witness :
  let feature_attr := sorted_features (gff_feature_attr Ex2.gff_state) in
  StronglySorted String.le feature_attr ∧ NoDup feature_attr ∧
  (∀ fid, fid ∈ feature_attr ↔ ∃ f, f ∈ Ex2.gff ∧ names_feature Ex2.opt f fid) ∧
  (∀ fid, fid ∈ feature_attr →
     ∃ f l, f ∈ Ex2.gff ∧ names_feature Ex2.opt f fid ∧
            dict_get (gff_attributes Ex2.gff_state) fid = Some l ∧
            l = attribute_values Ex2.opt f ∧
            length l = length (additional_attributes Ex2.opt)).
Proof.
  apply (gff_feature_ids Ex2.lib Ex2.opt Ex2.gff Ex2.gff_state).
  reflexivity.
Defined.

Lemma gff_errors_witness :
  count_reads_in_features Ex2.lib Ex2.opt
    ([Ex2.exon "chr1" [("gene_id", "GeneB")]] ++ Ex2.exon "chr2" [] :: []) Ex2.reads
  = ([], Raise (ValueError "Feature e does not contain a 'gene_id' attribute")).
Proof.
  refine (proj1 (gff_errors Ex2.lib Ex2.opt [Ex2.exon "chr1" [("gene_id", "GeneB")]]
                   (Ex2.exon "chr2" []) [] _ Ex2.reads eq_refl eq_refl) eq_refl).
Defined.

(** ** Printing the table *)

Lemma result_mapM_fmap {A B} (f : A → result B) (g : A → B) (l : list A) :
  (∀ x, x ∈ l → f x = Ok (g x)) → result_mapM f l = Ok (g <$> l).
Proof.
  induction l as [|x l IH]; intros Hf; [done|].
  cbn [result_mapM]. rewrite (Hf x) by apply list_elem_of_here. simpl.
  rewrite IH; [done|]. intros y Hy. apply Hf. by apply list_elem_of_further.
Qed.

Lemma join_strings sep (l : list string) :
  join sep (Some <$> l) = Ok (String.concat sep l).
Proof.
  unfold join.
  rewrite (result_mapM_fmap _ (λ x : option string, default "" x)).
  - simpl. f_equal. f_equal. rewrite <- list_fmap_compose.
    induction l as [|s l IH]; [done|]. simpl. by f_equal.
  - intros x (s & -> & _)%list_elem_of_fmap. done.
Qed.

Lemma join_None sep (fields : list (option string)) :
  None ∈ fields → join sep fields = Raise TypeError.
Proof.
  unfold join. induction fields as [|x fields IH]; intros Hin.
  - by apply elem_of_nil in Hin.
  - cbn [result_mapM]. destruct x as [s|]; [|done]. simpl.
    apply elem_of_cons in Hin as [?|Hin]; [done|].
    specialize (IH Hin).
    destruct (result_mapM _ fields) as [strs|e]; simpl in *; [done | congruence].
Qed.

Lemma tr_bind_lift_ok {A B} (a : A) (f : A → tr B) : lift (Ok a) ≫= f = f a.
Proof. unfold mbind, tr_bind, lift. simpl. by destruct (f a). Qed.

Section Table.
Context (opt : Options) (out : Output) (names : list string).
Hypothesis Hnames : cell_barcodes out = Some <$> names.
Hypothesis Hkeys : dict_keys (counts_collapsed out) = cell_barcodes out.

Lemma count_strs fn :
  result_mapM (λ cb, count_str (counts_collapsed out) cb fn) (cell_barcodes out)
  = Ok ((λ cb, pretty (cell_count out (Some cb) fn)) <$> names).
Proof.
  rewrite Hnames.
  rewrite (result_mapM_fmap _ (λ cb, pretty (cell_count out cb fn))).
  - by rewrite <- list_fmap_compose.
  - intros cb Hcb. unfold count_str, cell_count.
    destruct (dict_get (counts_collapsed out) cb) as [ctr|] eqn:Hget; [done|].
    apply dict_get_None in Hget. destruct Hget. by rewrite Hkeys, Hnames.
Qed.

Lemma write_row_line fn attrs :
  write_row opt out fn attrs
  = ([String.concat (output_delimiter opt) (table_row out names fn attrs)], Ok tt).
Proof.
  unfold write_row. rewrite count_strs.
  unfold mbind, tr_bind, lift, print. cbn [fst snd app].
  by rewrite join_strings.
Qed.

Lemma write_other_rows_lines pad fns :
  write_other_rows opt pad out fns
  = (String.concat (output_delimiter opt) <$>
       ((λ fn, table_row out names fn pad) <$> fns), Ok tt).
Proof.
  induction fns as [|fn fns IH]; [done|].
  cbn [write_other_rows]. rewrite write_row_line, IH. reflexivity.
Qed.

Lemma write_feature_rows_lines (attributes : dict string (list string)) fns :
  (∀ fn, fn ∈ fns → is_Some (dict_get attributes fn)) →
  write_feature_rows opt attributes out fns
  = (String.concat (output_delimiter opt) <$>
       ((λ fn, table_row out names fn (default [] (dict_get attributes fn))) <$> fns),
     Ok tt).
Proof.
  induction fns as [|fn fns IH]; intros Hattrs; [done|].
  cbn [write_feature_rows fmap list_fmap].
  destruct (Hattrs fn) as [l Hl]; [apply list_elem_of_here|].
  rewrite !Hl, tr_bind_lift_ok, write_row_line, IH
    by (intros; apply Hattrs; by apply list_elem_of_further).
  reflexivity.
Qed.

Lemma write_table_lines feature_attr (attributes : dict string (list string)) :
  (∀ fn, fn ∈ feature_attr → is_Some (dict_get attributes fn)) →
  write_table opt feature_attr attributes out
  = (String.concat (output_delimiter opt) <$>
       table_rows opt feature_attr attributes out names, Ok tt).
Proof.
  intros Hattrs. unfold write_table, table_rows.
  rewrite Hnames.
  change ([Some ""] ++ (Some <$> ((λ _, "") <$> additional_attributes opt))
            ++ (Some <$> names))
    with (Some "" :: ((Some <$> ((λ _ : string, "") <$> additional_attributes opt))
            ++ (Some <$> names))).
  rewrite <- fmap_app, <- (fmap_cons Some), join_strings.
  rewrite write_feature_rows_lines, write_other_rows_lines by done.
  tr_unfold. by rewrite !fmap_app.
Qed.
End Table.

Lemma collapse_keys (counts : CountTable) out :
  table_ok counts →
  collapse counts = Ok out →
  dict_keys (counts_collapsed out) = cell_barcodes out ∧
  cell_barcodes out ≡ₚ dict_keys counts.
Proof.
  intros [Hnd _] Hout. unfold collapse in Hout.
  destruct (sorted (dict_keys counts)) as [cbs|] eqn:Hcbs; [|done]. simpl in Hout.
  destruct (collapse_cells cbs counts []) as [res|] eqn:Hres; [|done].
  simpl in Hout. simplify_eq. simpl.
  destruct (sorted_ok _ _ Hcbs) as [Hperm _]. split; [|done].
  apply (collapse_cells_keys cbs counts [] res); [by rewrite Hperm | | done].
  intros; apply not_elem_of_nil.
Qed.

Lemma count_reads_with_barcodes_ok cfg features read_seq out :
  count_reads_with_barcodes cfg features read_seq = Ok out →
  ∃ counts, scan cfg features (units read_seq) [] = Finished counts ∧
            collapse counts = Ok out.
Proof.
  unfold count_reads_with_barcodes. destruct (_ && _); [done|].
  destruct (scan cfg features (units read_seq) []) as [counts|]; [|done].
  intros. by exists counts.
Qed.

(** X21: when the features are read without error and the counting returns
    cell barcodes that are all strings, the function prints the whole table
    and ends normally: a header line with an empty field, one empty field
    per additional attribute and the cell barcodes; one line per feature id
    in ascending order with the id, its attribute values and, for each cell
    in the order of the header, the decimal of its collapsed count (0 when
    the cell does not have the feature); then the lines of [__no_feature],
    [__ambiguous], [__too_low_aQual], [__not_aligned] and
    [__alignment_not_unique] in this order.  All lines have the same number
    of fields, joined by the delimiter. *)
Theorem table_printed lib opt gff st read_seq out names :
  gff_loop lib opt gff (gff_start lib opt) = Ok st →
  count_reads_with_barcodes (opt_cfg opt) (gff_features st) read_seq = Ok out →
  cell_barcodes out = Some <$> names →
  let feature_attr := sorted_features (gff_feature_attr st) in
  let rows := table_rows opt feature_attr (gff_attributes st) out names in
  count_reads_in_features lib opt gff read_seq
  = (String.concat (output_delimiter opt) <$> rows, Ok tt) ∧
  length rows = (1 + length feature_attr + 5)%nat ∧
  Forall (λ row, length row
                 = (1 + length (additional_attributes opt) + length names)%nat) rows.
Proof.
  intros Hgff Hcount Hnames feature_attr rows.
  destruct (count_reads_with_barcodes_ok _ _ _ _ Hcount) as (counts & Hscan & Hcol).
  destruct (collapse_keys counts out (scan_finished_table_ok _ _ _ _ Hscan) Hcol)
    as [Hkeys _].
  destruct (gff_loop_gathered lib opt gff [] _ st (gathered_start lib opt) Hgff)
    as [_ Hattrs]. simpl in Hattrs.
  assert (Hall : ∀ fn, fn ∈ feature_attr →
            ∃ f, dict_get (gff_attributes st) fn = Some (attribute_values opt f)).
  { intros fn Hfn. unfold feature_attr in Hfn. rewrite sorted_features_elem in Hfn.
    destruct (Hattrs fn Hfn) as (f & _ & _ & Hget). by exists f. }
  split_and!.
  - unfold count_reads_in_features. rewrite Hgff. tr_unfold. rewrite Hcount. simpl.
    rewrite (write_table_lines opt out names Hnames Hkeys); [done|].
    intros fn Hfn. destruct (Hall fn Hfn) as [f ->]. by eexists.
  - unfold rows, table_rows. simpl. rewrite length_app, !length_fmap. simpl. lia.
  - unfold rows, table_rows. constructor; [|apply Forall_app; split].
    + simpl. rewrite length_app, !length_fmap. lia.
    + apply Forall_fmap, Forall_forall. intros fn Hfn.
      destruct (Hall fn Hfn) as [f Hf]. simpl. rewrite Hf. simpl.
      unfold attribute_values. rewrite length_app, !length_fmap. lia.
    + apply Forall_fmap, Forall_forall. intros fn _. simpl.
      rewrite length_app, !length_fmap. lia.
Qed.

Lemma table_printed_witness :
  let feature_attr := sorted_features (gff_feature_attr Ex2.gff_state) in
  let rows := table_rows Ex2.opt feature_attr (gff_attributes Ex2.gff_state) Ex2.out
                ["X"; "Y"] in
  count_reads_in_features Ex2.lib Ex2.opt Ex2.gff Ex2.reads
  = (String.concat (output_delimiter Ex2.opt) <$> rows, Ok tt) ∧
  length rows = (1 + length feature_attr + 5)%nat ∧
  Forall (λ row, length row
                 = (1 + length (additional_attributes Ex2.opt) + length ["X"; "Y"])%nat) rows.
Proof.
  apply (table_printed Ex2.lib Ex2.opt Ex2.gff Ex2.gff_state Ex2.reads Ex2.out ["X"; "Y"]).
  - reflexivity.
  - vm_compute. reflexivity.
  - reflexivity.
Defined.

(** The lines of the example: two features, two cells. *)
Example table_printed_lines :
  count_reads_in_features Ex2.lib Ex2.opt Ex2.gff Ex2.reads
  = ([",,X,Y"; "GeneA,,0,1"; "GeneB,b,1,0"; "__no_feature,,0,0"; "__ambiguous,,0,0";
      "__too_low_aQual,,0,0"; "__not_aligned,,0,0"; "__alignment_not_unique,,0,0"],
     Ok tt).
Proof. vm_compute. reflexivity. Qed.

Lemma collapse_raises (counts : CountTable) e :
  table_ok counts → collapse counts = Raise e → e = TypeError.
Proof.
  intros [Hnd Hall] Hcol. unfold collapse in Hcol.
  destruct (sorted (dict_keys counts)) as [cbs|e'] eqn:Hcbs.
  - simpl in Hcol. destruct (sorted_ok _ _ Hcbs) as [Hperm _].
    destruct (collapse_cells_spec cbs counts []) as (res & Hres & _).
    + by rewrite Hperm.
    + intros cb Hcb. rewrite Hperm in Hcb.
      destruct (dict_get counts cb) as [m|] eqn:Hm.
      * exists m. split; [done|].
        destruct (dict_get_Forall cell_ok _ _ _ Hall Hm) as (_ & _ & Hallm).
        eapply Forall_impl; [done|]. by intros uc (? & _).
      * by apply dict_get_None in Hm.
    + by rewrite Hres in Hcol.
  - simpl in Hcol. simplify_eq. by eapply sorted_error.
Qed.

(** X22: a counted record without cell tag leaves the run without table.
    If the features are read without error, the loop ends normally and some
    record unit that is not dropped has the cell barcode [None], then the
    function raises [TypeError] (from the sort of the cell keys, or from the
    join of the header line when [None] is the only key) and prints
    nothing. *)
Theorem missing_cell_tag_no_table lib opt gff st read_seq counts r ub :
  gff_loop lib opt gff (gff_start lib opt) = Ok st →
  pe_mode read_seq = false ∨ order (opt_cfg opt) = "name" ∨ order (opt_cfg opt) = "pos" →
  scan (opt_cfg opt) (gff_features st) (units read_seq) [] = Finished counts →
  r ∈ units read_seq →
  identify_barcodes (opt_cfg opt) r = (None, ub) →
  dropped (opt_cfg opt) r = false →
  count_reads_in_features lib opt gff read_seq = ([], Raise TypeError).
Proof.
  intros Hgff Horder Hscan Hr Hb Hd.
  pose proof (scan_finished_table_ok _ _ _ _ Hscan) as Hok.
  assert (HNone : None ∈ dict_keys counts).
  { assert (bucket counts None ub ≠ []) as Hbucket.
    { apply (scan_buckets _ _ _ _ _ None ub Hscan). right. by exists r. }
    apply dec_stable. intros Hno. apply dict_get_None in Hno.
    unfold bucket in Hbucket. by rewrite Hno in Hbucket. }
  unfold count_reads_in_features. rewrite Hgff. tr_unfold.
  unfold count_reads_with_barcodes.
  assert (pe_mode read_seq &&
          negb (bool_decide (order (opt_cfg opt) = "name")
                || bool_decide (order (opt_cfg opt) = "pos")) = false) as ->.
  { destruct Horder as [->|[Ho|Ho]]; [done| |];
      rewrite (bool_decide_eq_true_2 _ Ho); by rewrite ?orb_true_r, andb_false_r. }
  rewrite Hscan.
  destruct (collapse counts) as [out|e] eqn:Hcol; simpl.
  - destruct (collapse_keys counts out Hok Hcol) as [_ Hperm].
    unfold write_table. rewrite join_None; [done|].
    rewrite <- Hperm in HNone. set_solver.
  - by rewrite (collapse_raises counts e Hok Hcol).
Qed.

Lemma missing_cell_tag_no_table_witness :
  count_reads_in_features Ex2.lib Ex2.opt Ex2.gff (SingleEnd [Ex.unaligned []])
  = ([], Raise TypeError).
Proof.
  apply (missing_cell_tag_no_table Ex2.lib Ex2.opt Ex2.gff Ex2.gff_state
           (SingleEnd [Ex.unaligned []]) [(None, [(None, [("__not_aligned", 1)])])]
           (SE (Ex.unaligned [])) None).
  - reflexivity.
  - by left.
  - vm_compute. reflexivity.
  - apply list_elem_of_here.
  - reflexivity.
  - reflexivity.
Defined.

(** ** Further properties of the loop body *)

(** X23: when a single-end record reaches the overlap resolution, its
    interval sequence is made of the reference intervals of its matching
    operations ("M", "=", "X") of positive size, in the order of the CIGAR
    string, as they are, or strand-inverted when stranded is "reverse". *)
Theorem classify_se_intervals cfg r log iv_seq :
  classify_se cfg r = (log, Ok (Resolve iv_seq)) →
  aligned r = true ∧
  iv_seq = mate_intervals (bool_decide (stranded cfg = "reverse")) (Some r).
Proof.
  intros Hcl.
  assert (aligned r = true) as Ha.
  { unfold classify_se in Hcl. destruct (aligned r); [done|]. by tr_unfold. }
  split; [done|].
  assert (iv_seq = if bool_decide (stranded cfg ≠ "reverse")
                   then ivs_plain (cigar r) else ivs_inverted (cigar r)) as ->.
  { unfold classify_se in Hcl. rewrite Ha in Hcl. tr_unfold.
    repeat (case_match; simplify_eq/=); by simplify_eq. }
  destruct (decide (stranded cfg = "reverse")) as [Hr|Hr].
  - rewrite (bool_decide_eq_true_2 _ Hr), bool_decide_eq_false_2 by (intros ?; done).
    by apply ivs_inverted_mate.
  - rewrite (bool_decide_eq_false_2 _ Hr), bool_decide_eq_true_2 by done.
    by apply ivs_plain_mate.
Qed.

Lemma classify_se_intervals_witness :
  aligned (Ex.read "chr1" 0 10 30 Ex.XU None) = true ∧
  [Ok (with_strand (Ex.iv "chr1" 0 10) "-")]
  = mate_intervals (bool_decide (stranded Ex2.reverse_cfg = "reverse"))
      (Some (Ex.read "chr1" 0 10 30 Ex.XU None)).
Proof.
  apply (classify_se_intervals Ex2.reverse_cfg (Ex.read "chr1" 0 10 30 Ex.XU None) []).
  vm_compute. reflexivity.
Defined.

(** X24: one iteration of the loop touches only the bucket of the barcode of
    its record unit: whether it ends normally or raises, the bucket of every
    other (cell, umi) pair is what it was. *)
Theorem process_unit_other_buckets cfg features r counts cb ub :
  (cb, ub) ≠ identify_barcodes cfg r →
  bucket (final_table (process_unit cfg features r counts)) cb ub
  = bucket counts cb ub.
Proof.
  intros Hne. rewrite process_unit_table, bucket_apply_log.
  rewrite decide_False; [done|].
  intros Heq. apply Hne. by destruct (identify_barcodes cfg r); simplify_eq.
Qed.

Lemma process_unit_other_buckets_witness :
  bucket (final_table (process_unit (Ex.cfg "union" "none") Ex.features
                         (SE (Ex.read "chr1" 0 10 30 [("CB", "Y"); ("UB", "V")] None))
                         Ex.tie_counts)) (Some "X") (Some "U")
  = bucket Ex.tie_counts (Some "X") (Some "U").
Proof.
  apply (process_unit_other_buckets (Ex.cfg "union" "none") Ex.features).
  vm_compute. discriminate.
Defined.

(** ** The order of the intervals *)

Section Order.
Context (cfg : Config) (features : FeatureIndex).

Lemma step_sets_Permutation ivs ivs' :
  ivs ≡ₚ ivs' → step_sets features ivs ≡ₚ step_sets features ivs'.
Proof. intros Hp. unfold step_sets. by rewrite Hp. Qed.

Lemma foldl_union_Permutation (l l' : list FeatureSet) :
  l ≡ₚ l' → foldl (∪) ∅ l = foldl (∪) (∅ : FeatureSet) l'.
Proof.
  intros Hp. apply set_eq. intros f. rewrite !elem_of_foldl_union.
  split; intros [?|(t & Ht & ?)]; try (by left); right; exists t;
    (split; [|done]); [by rewrite <- Hp | by rewrite Hp].
Qed.

Lemma foldl_intersect_Permutation (l l' : list FeatureSet) :
  l ≡ₚ l' →
  foldl (intersect_step cfg) None l = foldl (intersect_step cfg) None l'.
Proof.
  intros Hp.
  pose proof (intersect_fold_None cfg l) as H1.
  pose proof (intersect_fold_None cfg l') as H2.
  destruct (foldl (intersect_step cfg) None l) as [s|],
           (foldl (intersect_step cfg) None l') as [s'|].
  - destruct H1 as [_ H1], H2 as [_ H2]. f_equal. apply set_eq. intros f.
    rewrite H1, H2. by rewrite Hp.
  - destruct H1 as [Hex _]. rewrite Hp in Hex.
    apply Exists_exists in Hex as (t & Ht & Hpart).
    rewrite Forall_forall in H2. by destruct (H2 t Ht).
  - destruct H2 as [Hex _]. rewrite <- Hp in Hex.
    apply Exists_exists in Hex as (t & Ht & Hpart).
    rewrite Forall_forall in H1. by destruct (H1 t Ht).
  - done.
Qed.
End Order.

(** X25: on intervals of known chromosomes, the result of the overlap
    resolution does not depend on the order of the intervals, in any of the
    three modes (so neither on the order of the mates nor on the order of
    the CIGAR operations). *)
Theorem resolve_fs_order_independent cfg features ivs ivs' :
  ivs ≡ₚ ivs' →
  Forall (λ iv, chrom iv ∈ chrom_vectors features) ivs →
  resolve_fs cfg features (Ok <$> ivs) = resolve_fs cfg features (Ok <$> ivs').
Proof.
  intros Hp Hknown.
  assert (Forall (λ iv, chrom iv ∈ chrom_vectors features) ivs') as Hknown'
    by by rewrite <- Hp.
  unfold resolve_fs. repeat case_bool_decide; [| |done].
  - rewrite !union_loop_known by done. simpl. do 2 f_equal.
    by apply foldl_union_Permutation, step_sets_Permutation.
  - rewrite !intersect_loop_known by done. f_equal.
    by apply foldl_intersect_Permutation, step_sets_Permutation.
Qed.

Lemma resolve_fs_order_independent_witness :
  resolve_fs (Ex.cfg "intersection-strict" "none") Ex.features
    (Ok <$> [Ex.iv "chr1" 0 10; Ex.iv "chr1" 250 260])
  = resolve_fs (Ex.cfg "intersection-strict" "none") Ex.features
      (Ok <$> [Ex.iv "chr1" 250 260; Ex.iv "chr1" 0 10]).
Proof.
  apply (resolve_fs_order_independent (Ex.cfg "intersection-strict" "none") Ex.features).
  - apply perm_swap.
  - repeat constructor; simpl; by apply elem_of_singleton.
Defined.
